(** * Mechanical resolution of merge conflicts in the issue store

    A shallow embedding of [bd resolve-conflicts] (package main of the
    issue tracker): the conflict scanner [detectConflicts], the collision
    resolver [resolveConflictsMechanical] with its identifier source
    [getNextAvailableID], the reference rewriter [remapTextReferences] and
    the file reconstructor [applyResolutions], together with the command
    [resolveConflictsCmd] that drives them.

    Go strings are byte strings; they are modelled by [string], one [ascii]
    per byte.  Go maps are [gmap]s, Go sets written as [map[string]bool] are
    [gset]s.  The few functions of the Go standard library the code calls
    are modelled first, each in a module named after its package. *)

From Stdlib Require Import ZArith String Ascii List Lia DecimalString.
From stdpp Require Import base option list gmap strings.

Local Open Scope string_scope.
Local Open Scope list_scope.
Local Open Scope Z_scope.

(** ** Bytes *)

Definition byteZ (c : ascii) : Z := Z.of_N (N_of_ascii c).
Definition byte_of_Z (z : Z) : ascii := ascii_of_N (Z.to_N z).

Definition NL : ascii := byte_of_Z 10.
Definition CR : ascii := byte_of_Z 13.

(** [skipn] and [firstn] on byte strings ([s[n:]] and [s[:n]]). *)
Fixpoint sdrop (n : nat) (s : string) : string :=
  match n, s with
  | O, _ => s
  | S _, EmptyString => EmptyString
  | S k, String _ s' => sdrop k s'
  end.

Fixpoint stake (n : nat) (s : string) : string :=
  match n, s with
  | O, _ => EmptyString
  | S _, EmptyString => EmptyString
  | S k, String c s' => String c (stake k s')
  end.

Fixpoint srev_app (s acc : string) : string :=
  match s with
  | EmptyString => acc
  | String c s' => srev_app s' (String c acc)
  end.

Definition srev (s : string) : string := srev_app s EmptyString.

(** ** Package unicode/utf8 *)

Module utf8.

Definition RuneError : Z := 65533.
Definition RuneSelf : Z := 128.

(** The table [first]: for a leading byte, the width of the encoding
    (0 for an invalid leading byte) and the accepted range of the second
    byte. *)
Definition first (b : Z) : nat * (Z * Z) :=
  if b <? 128 then (1%nat, (0, 0))
  else if b <? 194 then (0%nat, (0, 0))
  else if b <? 224 then (2%nat, (128, 191))
  else if b =? 224 then (3%nat, (160, 191))
  else if b <? 237 then (3%nat, (128, 191))
  else if b =? 237 then (3%nat, (128, 159))
  else if b <? 240 then (3%nat, (128, 191))
  else if b =? 240 then (4%nat, (144, 191))
  else if b <? 244 then (4%nat, (128, 191))
  else if b =? 244 then (4%nat, (128, 143))
  else (0%nat, (0, 0)).

Definition in_range (lo hi b : Z) : bool := (lo <=? b) && (b <=? hi).

(** [utf8.DecodeRuneInString]: the first rune of [s] and its width in
    bytes; an invalid encoding decodes to [(RuneError, 1)], the empty
    string to [(RuneError, 0)]. *)
Definition DecodeRuneInString (s : string) : Z * nat :=
  match s with
  | EmptyString => (RuneError, 0%nat)
  | String c0 r0 =>
    let s0 := byteZ c0 in
    match first s0 with
    | (0%nat, _) => (RuneError, 1%nat)
    | (1%nat, _) => (s0, 1%nat)
    | (sz, (lo, hi)) =>
      if (String.length s <? sz)%nat then (RuneError, 1%nat) else
      match r0 with
      | EmptyString => (RuneError, 1%nat)
      | String c1 r1 =>
        let s1 := byteZ c1 in
        if negb (in_range lo hi s1) then (RuneError, 1%nat) else
        if (sz <=? 2)%nat then
          (Z.lor (Z.shiftl (Z.land s0 31) 6) (Z.land s1 63), 2%nat)
        else
        match r1 with
        | EmptyString => (RuneError, 1%nat)
        | String c2 r2 =>
          let s2 := byteZ c2 in
          if negb (in_range 128 191 s2) then (RuneError, 1%nat) else
          if (sz <=? 3)%nat then
            (Z.lor (Z.shiftl (Z.land s0 15) 12)
               (Z.lor (Z.shiftl (Z.land s1 63) 6) (Z.land s2 63)), 3%nat)
          else
          match r2 with
          | EmptyString => (RuneError, 1%nat)
          | String c3 _ =>
            let s3 := byteZ c3 in
            if negb (in_range 128 191 s3) then (RuneError, 1%nat) else
            (Z.lor (Z.shiftl (Z.land s0 7) 18)
               (Z.lor (Z.shiftl (Z.land s1 63) 12)
                  (Z.lor (Z.shiftl (Z.land s2 63) 6) (Z.land s3 63))), 4%nat)
          end
        end
      end
    end
  end.

(** [utf8.RuneStart]: the byte is not a continuation byte. *)
Definition RuneStart (b : Z) : bool := negb (Z.land b 192 =? 128).

(** The backward search of [DecodeLastRuneInString], on the reversed
    string: the number of bytes, between 2 and [lim], from the end of the
    string back to the nearest byte that starts a rune. *)
Fixpoint findStart (k : nat) (fuel : nat) (rs : string) : option nat :=
  match fuel, rs with
  | S f, String c rs' =>
    if RuneStart (byteZ c) then Some k else findStart (S k) f rs'
  | _, _ => None
  end.

(** [utf8.DecodeLastRuneInString]: the last rune of [s] and its width. *)
Definition DecodeLastRuneInString (s : string) : Z * nat :=
  match srev s with
  | EmptyString => (RuneError, 0%nat)
  | String c rs =>
    let r := byteZ c in
    if r <? RuneSelf then (r, 1%nat) else
    match findStart 2 3 rs with
    | None => (RuneError, 1%nat)
    | Some k =>
      let '(r', size) := DecodeRuneInString (sdrop (String.length s - k) s) in
      if (size =? k)%nat then (r', size) else (RuneError, 1%nat)
    end
  end.

(** [utf8.AppendRune] for a valid code point that is not a surrogate;
    anything else is encoded as [RuneError]. *)
Definition encode3 (r : Z) : string :=
  String (byte_of_Z (Z.lor 224 (Z.shiftr r 12)))
    (String (byte_of_Z (Z.lor 128 (Z.land (Z.shiftr r 6) 63)))
       (String (byte_of_Z (Z.lor 128 (Z.land r 63))) EmptyString)).

Definition EncodeRune (r : Z) : string :=
  if (0 <=? r) && (r <? 128) then String (byte_of_Z r) EmptyString
  else if (128 <=? r) && (r <? 2048) then
    String (byte_of_Z (Z.lor 192 (Z.shiftr r 6)))
      (String (byte_of_Z (Z.lor 128 (Z.land r 63))) EmptyString)
  else if (r <? 0) || (1114111 <? r) || ((55296 <=? r) && (r <=? 57343)) then
    encode3 RuneError
  else if r <? 65536 then encode3 r
  else
    String (byte_of_Z (Z.lor 240 (Z.shiftr r 18)))
      (String (byte_of_Z (Z.lor 128 (Z.land (Z.shiftr r 12) 63)))
         (String (byte_of_Z (Z.lor 128 (Z.land (Z.shiftr r 6) 63)))
            (String (byte_of_Z (Z.lor 128 (Z.land r 63))) EmptyString))).

End utf8.

(** ** Package unicode *)

Module unicode.

(** [unicode.IsSpace]: the Latin-1 cases and the White_Space table. *)
Definition IsSpace (r : Z) : bool :=
  if (0 <=? r) && (r <=? 255) then
    utf8.in_range 9 13 r || (r =? 32) || (r =? 133) || (r =? 160)
  else
    (r =? 5760) || utf8.in_range 8192 8202 r || utf8.in_range 8232 8233 r
    || (r =? 8239) || (r =? 8287) || (r =? 12288).

End unicode.

(** ** Package strings *)

Module strings.

(** [strings.HasPrefix(s, prefix)]. *)
Definition HasPrefix (s pre : string) : bool := String.prefix pre s.

(** [strings.TrimLeftFunc(s, unicode.IsSpace)]; every round removes at
    least one byte, so [String.length s] rounds of fuel are enough. *)
Fixpoint trimLeftSpace (fuel : nat) (s : string) : string :=
  match fuel with
  | O => s
  | S f =>
    let '(r, w) := utf8.DecodeRuneInString s in
    if (0 <? w)%nat && unicode.IsSpace r then trimLeftSpace f (sdrop w s) else s
  end.

(** [strings.TrimRightFunc(s, unicode.IsSpace)]. *)
Fixpoint trimRightSpace (fuel : nat) (s : string) : string :=
  match fuel with
  | O => s
  | S f =>
    let '(r, w) := utf8.DecodeLastRuneInString s in
    if (0 <? w)%nat && unicode.IsSpace r
    then trimRightSpace f (stake (String.length s - w) s) else s
  end.

(** [strings.TrimSpace(s)]: [s] without leading and trailing white space,
    as defined by Unicode. *)
Definition TrimSpace (s : string) : string :=
  let l := trimLeftSpace (String.length s) s in
  trimRightSpace (String.length l) l.

(** [strings.Split(s, sep)] for a separator of one byte, which is what
    every call of the program passes (a newline, a hyphen): the
    substrings between the separators, always at least one. *)
Fixpoint Split (s : string) (sep : ascii) : list string :=
  match s with
  | EmptyString => [EmptyString]
  | String c s' =>
    if Ascii.eqb c sep then EmptyString :: Split s' sep
    else match Split s' sep with
         | h :: t => String c h :: t
         | [] => [String c EmptyString]
         end
  end.

(** [strings.Join(elems, sep)]. *)
Fixpoint Join (elems : list string) (sep : string) : string :=
  match elems with
  | [] => EmptyString
  | [x] => x
  | x :: rest => x +:+ sep +:+ Join rest sep
  end.

(** Replacement of a non-empty [old]: matches are found left to right
    and do not overlap; [skip] counts the bytes of the current match
    still to be consumed. *)
Fixpoint replaceFrom (old new : string) (skip : nat) (s : string) : string :=
  match s with
  | EmptyString => EmptyString
  | String c s' =>
    match skip with
    | S k => replaceFrom old new k s'
    | O =>
      if String.prefix old s
      then new +:+ replaceFrom old new (String.length old - 1) s'
      else String c (replaceFrom old new 0 s')
    end
  end.

(** Replacement of the empty string: [new] is inserted before every rune
    and at the end; [skip] counts the bytes of the current rune still to
    be copied. *)
Fixpoint insertAtRunes (new : string) (skip : nat) (s : string) : string :=
  match s with
  | EmptyString => new
  | String c s' =>
    match skip with
    | S k => String c (insertAtRunes new k s')
    | O =>
      new +:+ String c (insertAtRunes new (snd (utf8.DecodeRuneInString s) - 1) s')
    end
  end.

(** [strings.ReplaceAll(s, old, new)]. *)
Definition ReplaceAll (s old new : string) : string :=
  if String.eqb old new then s
  else match old with
       | EmptyString => insertAtRunes new 0 s
       | _ => replaceFrom old new 0 s
       end.

End strings.

(** ** Package fmt *)

Module fmt.

Definition isDigit (c : ascii) : bool := utf8.in_range 48 57 (byteZ c).

(** The scanner's [SkipSpace], for a scan that does not treat newlines as space:
    [None] is the error "unexpected newline". *)
Fixpoint SkipSpace (fuel : nat) (s : string) : option string :=
  match fuel with
  | O => Some s
  | S f =>
    match utf8.DecodeRuneInString s with
    | (_, O) => Some s
    | (r, w) =>
      if r =? 10 then None
      else if unicode.IsSpace r then SkipSpace f (sdrop w s)
      else Some s
    end
  end.

Fixpoint digits (s : string) : string :=
  match s with
  | String c s' => if isDigit c then String c (digits s') else EmptyString
  | EmptyString => EmptyString
  end.

Fixpoint decimal (acc : Z) (s : string) : Z :=
  match s with
  | String c s' => decimal (10 * acc + (byteZ c - 48)) s'
  | EmptyString => acc
  end.

Definition minInt64 : Z := - 2 ^ 63.
Definition maxInt64 : Z := 2 ^ 63 - 1.

(** [fmt.Sscanf(s, "%d", &num)] on a 64-bit [int]: the value stored in
    [num], or [None] when the scan fails and [num] is left as it was
    (no integer at the front of [s], or one that does not fit). *)
Definition Sscanf_d (s : string) : option Z :=
  match SkipSpace (String.length s) s with
  | None => None
  | Some s1 =>
    let '(neg, s2) :=
      match s1 with
      | String "+" t => (false, t)
      | String "-" t => (true, t)
      | _ => (false, s1)
      end in
    match digits s2 with
    | EmptyString => None
    | ds =>
      let v := if neg : bool then - decimal 0 ds else decimal 0 ds in
      if (minInt64 <=? v) && (v <=? maxInt64) then Some v else None
    end
  end.

(** The verb [%d] of [fmt.Sprintf]. *)
Definition itoa (n : Z) : string := NilZero.string_of_int (Z.to_int n).

(** [fmt.Sprintf("%s-%d", prefix, n)]. *)
Definition Sprintf_s_d (pre : string) (n : Z) : string :=
  pre +:+ "-" +:+ itoa n.

End fmt.

(** Addition on the 64-bit [int], with its wrap-around. *)
Definition wrap64 (z : Z) : Z := (z + 2 ^ 63) mod 2 ^ 64 - 2 ^ 63.

(** ** Package bufio *)

Module bufio.

(** [bufio.MaxScanTokenSize]: the size of the scanner's buffer. *)
Definition MaxScanTokenSize : Z := 65536.

(** [dropCR]: a line without its final carriage return. *)
Definition dropCR (line : string) : string :=
  match srev line with
  | String c r => if Ascii.eqb c CR then srev r else line
  | EmptyString => line
  end.

(** The segments of the content between newlines; the segment after the
    last newline is a line only when it is not empty. *)
Fixpoint dropLastEmpty (segs : list string) : list string :=
  match segs with
  | [] => []
  | [s] => if String.eqb s EmptyString then [] else [s]
  | s :: rest => s :: dropLastEmpty rest
  end.

(** The tokens produced by a [bufio.Scanner] with the default split
    function [ScanLines], in order; the second component tells whether
    the scanner stopped on [ErrTooLong], which it does at the first line
    that does not fit in the buffer. *)
Fixpoint scanTokens (segs : list string) : list string * bool :=
  match segs with
  | [] => ([], false)
  | s :: rest =>
    if MaxScanTokenSize <=? Z.of_nat (String.length s) then ([], true)
    else let '(toks, e) := scanTokens rest in (dropCR s :: toks, e)
  end.

Definition ScanLines (content : string) : list string * bool :=
  scanTokens (dropLastEmpty (strings.Split content NL)).

End bufio.

(** * The data model *)

(** Modelled from the spec: the declarations of [types.Dependency] and
    [types.Issue] are not among the sources.  A dependency edge carries the
    id of its target and the kind of the relation; the owner id is the
    field [IssueID] that the storage tests set. *)
Record Dependency := mkDependency {
  IssueID : string;
  DependsOnID : string;
  Type_ : string
}.

(** Modelled from the spec: an issue has an id, a title, four free-text
    fields and an ordered list of dependency edges; the fields of the
    record type that the resolver never reads (status, priority, ...) are
    kept together, abstractly, in [Rest]. *)
Record Issue (Other : Type) := mkIssue {
  ID : string;
  Title : string;
  Description : string;
  Design : string;
  AcceptanceCriteria : string;
  Notes : string;
  Dependencies : list Dependency;
  Rest : Other
}.

Arguments mkIssue {Other}.
Arguments ID {Other}.
Arguments Title {Other}.
Arguments Description {Other}.
Arguments Design {Other}.
Arguments AcceptanceCriteria {Other}.
Arguments Notes {Other}.
Arguments Dependencies {Other}.
Arguments Rest {Other}.

(** [ConflictBlock]: a git merge conflict section. *)
Record ConflictBlock (Other : Type) := mkConflictBlock {
  HeadIssues : list (Issue Other);
  BaseIssues : list (Issue Other);
  LineStart : Z;
  LineEnd : Z
}.

Arguments mkConflictBlock {Other}.
Arguments HeadIssues {Other}.
Arguments BaseIssues {Other}.
Arguments LineStart {Other}.
Arguments LineEnd {Other}.

(** [Resolution]: how to resolve a conflict; [Action] is "keep" or
    "remap".  The field [IssueID] is [IssueID_] here, and the field [Type]
    of a dependency is [Type_]. *)
Record Resolution := mkResolution {
  Action : string;
  IssueID_ : string;
  OldID : string;
  NewID : string;
  Reason : string
}.

(** Errors of the engine. *)
Inductive error :=
| ErrTooLong
| ErrStoreNotInitialized
| ErrSearchIssues
| ErrNextID (cause : error)
| ErrReading (cause : error).

Inductive result (A : Type) :=
| Ok (a : A)
| Err (e : error).

Arguments Ok {A}.
Arguments Err {A}.

(** The process-wide storage handle [store]: [nil], or a store whose
    [SearchIssues] answers with all its issues or with an error.  Nothing
    in a run of the command writes to the store. *)
Inductive Store (Other : Type) :=
| NilStore
| SearchFails
| Issues (all : list (Issue Other)).

Arguments NilStore {Other}.
Arguments SearchFails {Other}.
Arguments Issues {Other}.

(** What the program takes from its environment: the codec of
    encoding/json at the type [Issue] ([json.Unmarshal] fails with [None];
    the error of [json.Marshal] is discarded by the program), and the order
    in which a [range] over a map visits its entries.  Go leaves that order
    unspecified and lets it differ from one loop to the next, so it is
    given per loop, the loops being numbered. *)
Class Runtime (Other : Type) := {
  Unmarshal : string -> option (Issue Other);
  Marshal : Issue Other -> string;
  rangeOrder : nat -> gmap string string -> list (string * string);
  rangeOrder_perm : forall k m, rangeOrder k m ≡ₚ map_to_list m
}.

(** * The program *)

Section Engine.

Context {Other : Type} `{!Runtime Other}.

Local Abbreviation Issue := (Issue Other).
Local Abbreviation ConflictBlock := (ConflictBlock Other).

(** ** detectConflicts *)

(** The local variables of [detectConflicts]; its [inConflict] is
    [scanInConflict] here, the name being that of a variable of
    [applyResolutions] too. *)
Record ScanState := mkScanState {
  conflicts : list ConflictBlock;
  current : option ConflictBlock;
  scanInConflict : bool;
  inHead : bool;
  lineNum : Z
}.

Definition scanInit : ScanState :=
  mkScanState [] None false false 0.

(** One round of the scanning loop, on the text of one token.  [current]
    is dereferenced only where [inConflict] holds, and it was set when
    [inConflict] was (lemma [scan_current_set]); the branch for a nil
    [current] is there to make the function total. *)
Definition scanStep (st : ScanState) (text : string) : ScanState :=
  let line := strings.TrimSpace text in
  let n := lineNum st + 1 in
  let st := mkScanState (conflicts st) (current st) (scanInConflict st) (inHead st) n in
  if String.eqb line "" then st
  else if strings.HasPrefix line "<<<<<<<" then
    mkScanState (conflicts st) (Some (mkConflictBlock [] [] n 0)) true true n
  else if strings.HasPrefix line "=======" then
    if scanInConflict st
    then mkScanState (conflicts st) (current st) true false n
    else st
  else if strings.HasPrefix line ">>>>>>>" then
    if scanInConflict st then
      match current st with
      | Some c =>
        let c := mkConflictBlock (HeadIssues c) (BaseIssues c) (LineStart c) n in
        mkScanState (conflicts st ++ [c]) None false (inHead st) n
      | None => st
      end
    else st
  else if scanInConflict st
          && negb (strings.HasPrefix line "<")
          && negb (strings.HasPrefix line "=")
          && negb (strings.HasPrefix line ">") then
    match Unmarshal line with
    | None => st
    | Some issue =>
      match current st with
      | Some c =>
        let c :=
          if inHead st
          then mkConflictBlock (HeadIssues c ++ [issue]) (BaseIssues c) (LineStart c) (LineEnd c)
          else mkConflictBlock (HeadIssues c) (BaseIssues c ++ [issue]) (LineStart c) (LineEnd c) in
        mkScanState (conflicts st) (Some c) (scanInConflict st) (inHead st) n
      | None => st
      end
    end
  else st.

Definition scanLoop (st : ScanState) (tokens : list string) : ScanState :=
  fold_left scanStep tokens st.

(** [detectConflicts] on the content of the file at [jsonlPath], which is
    taken to be readable: the conflict blocks, and the error of the line
    scanner if it stopped on one. *)
Definition detectConflicts (content : string) : list ConflictBlock * option error :=
  let '(tokens, tooLong) := bufio.ScanLines content in
  let st := scanLoop scanInit tokens in
  if tooLong : bool then ([], Some (ErrReading ErrTooLong))
  else (conflicts st, None).

(** ** getNextAvailableID *)

(** The loop over [allIssues]: the running [maxNum] and [prefix]. *)
Definition nextIDStep (acc : Z * string) (issue : Issue) : Z * string :=
  let '(maxNum, pre) := acc in
  let parts := strings.Split (ID issue) "-" in
  if (2 <=? length parts)%nat then
    let pre :=
      if String.eqb pre ""
      then strings.Join (take (length parts - 1) parts) "-"
      else pre in
    let num := default 0 (fmt.Sscanf_d (List.last parts "")) in
    (if maxNum <? num then num else maxNum, pre)
  else (maxNum, pre).

Definition getNextAvailableID (store : Store Other) : result string :=
  match store with
  | NilStore => Err ErrStoreNotInitialized
  | SearchFails => Err ErrSearchIssues
  | Issues allIssues =>
    let '(maxNum, pre) := fold_left nextIDStep allIssues (0, "") in
    let pre := if String.eqb pre "" then "bd" else pre in
    Ok (fmt.Sprintf_s_d pre (wrap64 (maxNum + 1)))
  end.

(** ** resolveConflictsMechanical *)

Definition keepHead (id : string) : Resolution :=
  mkResolution "keep" id "" "" "HEAD version".

Definition keepBase (id : string) : Resolution :=
  mkResolution "keep" id "" "" "No collision".

Definition remap (old new : string) : Resolution :=
  mkResolution "remap" "" old new ("ID " +:+ old +:+ " exists in both HEAD and BASE").

(** The first pair of loops, over the HEAD issues of every block. *)
Definition headStep (acc : gset string * list Resolution) (issue : Issue)
  : gset string * list Resolution :=
  let '(headIDs, resolutions) := acc in
  ({[ID issue]} ∪ headIDs, resolutions ++ [keepHead (ID issue)]).

Definition headPass (cs : list ConflictBlock) : gset string * list Resolution :=
  fold_left (fun acc c => fold_left headStep (HeadIssues c) acc) cs (∅, []).

(** The second pair of loops, over the BASE issues of every block; it
    returns at the first error of the identifier source. *)
Definition baseStep (store : Store Other)
    (acc : result (gset string * list Resolution)) (issue : Issue)
  : result (gset string * list Resolution) :=
  match acc with
  | Err e => Err e
  | Ok (headIDs, resolutions) =>
    if bool_decide (ID issue ∈ headIDs) then
      match getNextAvailableID store with
      | Err e => Err (ErrNextID e)
      | Ok newID =>
        Ok ({[newID]} ∪ headIDs, resolutions ++ [remap (ID issue) newID])
      end
    else Ok ({[ID issue]} ∪ headIDs, resolutions ++ [keepBase (ID issue)])
  end.

Definition basePass (store : Store Other) (cs : list ConflictBlock)
    (acc : gset string * list Resolution)
  : result (gset string * list Resolution) :=
  fold_left (fun acc c => fold_left (baseStep store) (BaseIssues c) acc) cs (Ok acc).

Definition resolveConflictsMechanical (store : Store Other) (cs : list ConflictBlock)
  : result (list Resolution) :=
  match basePass store cs (headPass cs) with
  | Ok (_, resolutions) => Ok resolutions
  | Err e => Err e
  end.

(** ** remapTextReferences *)

(** [remapTextReferences]: one [strings.ReplaceAll] per entry of the
    table, in the order in which this loop, the [k]-th, ranges over it. *)
Definition remapTextReferences (k : nat) (text : string) (remapTable : gmap string string)
  : string :=
  fold_left (fun result '(oldID, newID) => strings.ReplaceAll result oldID newID)
            (rangeOrder k remapTable) text.

(** ** applyResolutions *)

(** The remap table: the "remap" resolutions in order, a later entry for
    the same old id replacing an earlier one. *)
Definition tableStep (t : gmap string string) (res : Resolution) : gmap string string :=
  if String.eqb (Action res) "remap" then <[OldID res := NewID res]> t else t.

Definition buildRemapTable (resolutions : list Resolution) : gmap string string :=
  fold_left tableStep resolutions ∅.

(** The loop over [issue.Dependencies]. *)
Definition remapDependency (remapTable : gmap string string) (dep : Dependency) : Dependency :=
  match remapTable !! DependsOnID dep with
  | Some newID => mkDependency (IssueID dep) newID (Type_ dep)
  | None => dep
  end.

Definition remapDependencies (remapTable : gmap string string) (deps : list Dependency)
  : list Dependency :=
  map (remapDependency remapTable) deps.

(** The rewriting of the four free-text fields of the issue of line [i];
    its four loops over the table are the loops [4 i] to [4 i + 3]. *)
Definition remapTexts (remapTable : gmap string string) (i : nat) (issue : Issue) : Issue :=
  mkIssue (ID issue) (Title issue)
    (remapTextReferences (4 * i) (Description issue) remapTable)
    (remapTextReferences (4 * i + 1) (Design issue) remapTable)
    (remapTextReferences (4 * i + 2) (AcceptanceCriteria issue) remapTable)
    (remapTextReferences (4 * i + 3) (Notes issue) remapTable)
    (Dependencies issue) (Rest issue).

(** An issue line inside a conflict: the id is remapped if it is in the
    table, then the dependencies, then the text fields. *)
Definition resolveInside (remapTable : gmap string string) (i : nat) (issue : Issue) : Issue :=
  let id := default (ID issue) (remapTable !! ID issue) in
  remapTexts remapTable i
    (mkIssue id (Title issue) (Description issue) (Design issue)
       (AcceptanceCriteria issue) (Notes issue)
       (remapDependencies remapTable (Dependencies issue)) (Rest issue)).

(** The flag [modified] of an issue line outside a conflict. *)
Definition modified (remapTable : gmap string string) (i : nat) (issue : Issue) : bool :=
  existsb (fun dep => bool_decide (is_Some (remapTable !! DependsOnID dep))) (Dependencies issue)
  || negb (String.eqb (remapTextReferences (4 * i) (Description issue) remapTable) (Description issue))
  || negb (String.eqb (remapTextReferences (4 * i + 1) (Design issue) remapTable) (Design issue))
  || negb (String.eqb (remapTextReferences (4 * i + 2) (AcceptanceCriteria issue) remapTable)
             (AcceptanceCriteria issue))
  || negb (String.eqb (remapTextReferences (4 * i + 3) (Notes issue) remapTable) (Notes issue)).

Definition resolveOutside (remapTable : gmap string string) (i : nat) (issue : Issue) : Issue :=
  remapTexts remapTable i
    (mkIssue (ID issue) (Title issue) (Description issue) (Design issue)
       (AcceptanceCriteria issue) (Notes issue)
       (remapDependencies remapTable (Dependencies issue)) (Rest issue)).

(** What the loop appends to [resolved] for a line outside a conflict
    that is not a marker. *)
Definition outsideLine (remapTable : gmap string string) (i : nat) (line : string) : string :=
  let trimmed := strings.TrimSpace line in
  if negb (String.eqb trimmed "")
     && negb (strings.HasPrefix trimmed "<")
     && negb (strings.HasPrefix trimmed "=")
     && negb (strings.HasPrefix trimmed ">") then
    match Unmarshal trimmed with
    | Some issue =>
      if modified remapTable i issue
      then Marshal (resolveOutside remapTable i issue)
      else line
    | None => line
    end
  else line.

(** What the loop appends to [conflictLines] for a line inside a conflict
    that is not a marker. *)
Definition insideLine (remapTable : gmap string string) (i : nat) (line : string) : list string :=
  let trimmed := strings.TrimSpace line in
  if negb (String.eqb trimmed "") then
    match Unmarshal trimmed with
    | Some issue => [Marshal (resolveInside remapTable i issue)]
    | None => []
    end
  else [].

(** The local variables of the loop of [applyResolutions]. *)
Record ApplyState := mkApplyState {
  resolved : list string;
  inConflict : bool;
  conflictLines : list string
}.

Definition applyInit : ApplyState := mkApplyState [] false [].

(** One round of the loop, on line [i] of the file. *)
Definition applyStep (remapTable : gmap string string) (i : nat)
    (st : ApplyState) (line : string) : ApplyState :=
  let trimmed := strings.TrimSpace line in
  if strings.HasPrefix trimmed "<<<<<<<" then
    mkApplyState (resolved st) true []
  else if strings.HasPrefix trimmed ">>>>>>>" then
    mkApplyState (resolved st ++ conflictLines st) false []
  else if strings.HasPrefix trimmed "=======" then st
  else if inConflict st then
    mkApplyState (resolved st) true (conflictLines st ++ insideLine remapTable i line)
  else
    mkApplyState (resolved st ++ [outsideLine remapTable i line]) false (conflictLines st).

Fixpoint applyLoop (remapTable : gmap string string) (i : nat)
    (st : ApplyState) (lines : list string) : ApplyState :=
  match lines with
  | [] => st
  | line :: rest => applyLoop remapTable (S i) (applyStep remapTable i st line) rest
  end.

(** [applyResolutions] on the content of the file, which is taken to be
    readable and writable: the content it writes back.  Its parameter
    [conflicts] is not used. *)
Definition applyResolutions (content : string) (resolutions : list Resolution) : string :=
  let lines := strings.Split content NL in
  let remapTable := buildRemapTable resolutions in
  strings.Join (resolved (applyLoop remapTable 0 applyInit lines)) (String NL "").

(** ** resolveConflictsCmd *)

(** How a run of the command ends. *)
Inductive Outcome :=
| DetectFailed (e : error)
| NoConflicts
| ShowConflicts (cs : list ConflictBlock)
| ResolveFailed (e : error)
| DryRun (resolutions : list Resolution)
| Resolved (cs : list ConflictBlock) (resolutions : list Resolution).

(** The exit status of the process. *)
Definition exitCode (o : Outcome) : Z :=
  match o with
  | DetectFailed _ | ResolveFailed _ => 1
  | _ => 0
  end.

(** The command, run with the flags [auto] and [dryRun] on a file with
    the given content: how it ends, and the content of the file after
    it. *)
Definition resolveConflictsCmd (auto dryRun : bool) (store : Store Other) (content : string)
  : Outcome * string :=
  match detectConflicts content with
  | (_, Some e) => (DetectFailed e, content)
  | (cs, None) =>
    if (length cs =? 0)%nat then (NoConflicts, content)
    else if negb auto && negb dryRun then (ShowConflicts cs, content)
    else
      match resolveConflictsMechanical store cs with
      | Err e => (ResolveFailed e, content)
      | Ok resolutions =>
        if dryRun then (DryRun resolutions, content)
        else (Resolved cs resolutions, applyResolutions content resolutions)
      end
  end.

End Engine.

(** ** formatConflictsJSON, formatResolutionsJSON *)

(** The values the two functions store in a [map[string]interface{}]:
    an [int], a [string] or a [[]string]. *)
Inductive jsonField :=
| FInt (n : Z)
| FString (s : string)
| FStrings (l : list string).

(** A slice declared with [var] and grown with [append]: [nil] until
    the first element is appended. *)
Inductive slice (A : Type) :=
| nil_slice
| Slice (elems : list A).

Arguments nil_slice {A}.
Arguments Slice {A}.

Definition slice_elems {A : Type} (s : slice A) : list A :=
  match s with
  | nil_slice => []
  | Slice l => l
  end.

(** [append(s, x)]. *)
Definition append_slice {A : Type} (s : slice A) (x : A) : slice A :=
  Slice (slice_elems s ++ [x]).

Section Reports.

Context {Other : Type}.

(** The map built for one conflict; [headIDs] and [baseIDs] are made
    with the length of the issue lists and filled index by index. *)
Definition conflictEntry (conflict : ConflictBlock Other) : gmap string jsonField :=
  let headIDs := map ID (HeadIssues conflict) in
  let baseIDs := map ID (BaseIssues conflict) in
  <["line_start" := FInt (LineStart conflict)]>
    (<["line_end" := FInt (LineEnd conflict)]>
       (<["head_issues" := FStrings headIDs]>
          (<["base_issues" := FStrings baseIDs]> ∅))).

Definition formatConflictsJSON (conflicts : list (ConflictBlock Other))
  : slice (gmap string jsonField) :=
  fold_left (fun result conflict => append_slice result (conflictEntry conflict))
            conflicts nil_slice.

(** The map built for one resolution. *)
Definition resolutionEntry (res : Resolution) : gmap string jsonField :=
  let r : gmap string jsonField :=
    <["action" := FString (Action res)]> (<["reason" := FString (Reason res)]> ∅) in
  if String.eqb (Action res) "keep" then
    <["issue_id" := FString (IssueID_ res)]> r
  else if String.eqb (Action res) "remap" then
    <["new_id" := FString (NewID res)]> (<["old_id" := FString (OldID res)]> r)
  else r.

Definition formatResolutionsJSON (resolutions : list Resolution)
  : slice (gmap string jsonField) :=
  fold_left (fun result res => append_slice result (resolutionEntry res))
            resolutions nil_slice.

End Reports.

(** ** The command and the operations on the file *)

(** How the operations of a run on the file at [jsonlPath] end: [os.Open]
    and the reads of the line scanner in [detectConflicts], [os.ReadFile]
    and [os.WriteFile] in [applyResolutions]; [true] stands for a nil
    error. *)
Record FileAccess := mkFileAccess {
  opens : bool;
  scans : bool;
  reads : bool;
  writes : bool
}.

Section Run.

Context {Other : Type} `{!Runtime Other}.

(** How a run ends when these operations can fail: as
    [resolveConflictsCmd] has it, or on the error of [os.Open] or of the
    line scanner, which [detectConflicts] returns, or on the error of
    [os.ReadFile] or [os.WriteFile], which [applyResolutions] returns. *)
Inductive Ending :=
| Ended (o : @Outcome Other)
| OpenFailed
| ScanFailed
| ApplyFailed.

(** The exit status of the process: each of the three errors is printed
    and followed by [os.Exit(1)]. *)
Definition exitStatus (e : Ending) : Z :=
  match e with
  | Ended o => exitCode o
  | OpenFailed | ScanFailed | ApplyFailed => 1
  end.

(** The command on a file with the given content, the operations on the
    file ending as [access] says. *)
Definition resolveConflictsRun (access : FileAccess) (auto dryRun : bool)
    (store : Store Other) (content : string) : Ending :=
  if negb (opens access) then OpenFailed
  else if negb (scans access) then ScanFailed
  else
    match fst (resolveConflictsCmd auto dryRun store content) with
    | Resolved cs resolutions =>
      if reads access && writes access
      then Ended (Resolved cs resolutions)
      else ApplyFailed
    | o => Ended o
    end.

End Run.

(** * Package encoding/json, at the type of issues

    The codec the program runs with.  [Unmarshal] checks that the whole
    text is one JSON value and decodes it into the fields of an issue by
    name; the members of an object that name no field are skipped.
    [Marshal] writes the fields of an issue, and nothing else. *)

Module json.

#[local] Unset Elimination Schemes.

Inductive value :=
| Null
| Bool (b : bool)
| Number (literal : string)
| Str (s : string)
| Array (items : list value)
| Object (members : list (string * value)).

#[local] Set Elimination Schemes.

Definition isSpace (c : ascii) : bool :=
  let b := byteZ c in (b =? 32) || (b =? 9) || (b =? 13) || (b =? 10).

Fixpoint skipSpace (s : string) : string :=
  match s with
  | String c s' => if isSpace c then skipSpace s' else s
  | EmptyString => s
  end.

Definition hexDigit (c : ascii) : option Z :=
  let b := byteZ c in
  if utf8.in_range 48 57 b then Some (b - 48)
  else if utf8.in_range 97 102 b then Some (b - 87)
  else if utf8.in_range 65 70 b then Some (b - 55)
  else None.

(** [getu4]: the rune of the four hexadecimal digits of a [\u] escape. *)
Definition getu4 (a b c d : ascii) : option Z :=
  match hexDigit a, hexDigit b, hexDigit c, hexDigit d with
  | Some x, Some y, Some z, Some w => Some (4096 * x + 256 * y + 16 * z + w)
  | _, _, _, _ => None
  end.

Definition isSurrogate (r : Z) : bool := utf8.in_range 55296 57343 r.

(** [utf16.DecodeRune]: the code point of a surrogate pair, if it is one. *)
Definition decodeSurrogates (r1 r2 : Z) : option Z :=
  if utf8.in_range 55296 56319 r1 && utf8.in_range 56320 57343 r2
  then Some (Z.lor (Z.shiftl (r1 - 55296) 10) (r2 - 56320) + 65536)
  else None.

Definition simpleEscape (c : ascii) : option ascii :=
  let b := byteZ c in
  if (b =? 34) || (b =? 92) || (b =? 47) then Some c
  else if b =? 98 then Some (byte_of_Z 8)
  else if b =? 102 then Some (byte_of_Z 12)
  else if b =? 110 then Some (byte_of_Z 10)
  else if b =? 114 then Some (byte_of_Z 13)
  else if b =? 116 then Some (byte_of_Z 9)
  else None.

Definition cons_fst (c : ascii) (r : option (string * string)) : option (string * string) :=
  match r with
  | Some (s, rest) => Some (String c s, rest)
  | None => None
  end.

Definition app_fst (p : string) (r : option (string * string)) : option (string * string) :=
  match r with
  | Some (s, rest) => Some (p +:+ s, rest)
  | None => None
  end.

(** The text of a string literal after its opening quote: the string it
    denotes and what follows the closing quote.  [copy] counts the bytes of
    the current rune still to be copied.  Invalid UTF-8 and unpaired
    surrogates become [RuneError]. *)
Fixpoint unquote (copy : nat) (s : string) : option (string * string) :=
  match s with
  | EmptyString => None
  | String c s' =>
    match copy with
    | S k => cons_fst c (unquote k s')
    | O =>
      let b := byteZ c in
      if b =? 34 then Some (EmptyString, s')
      else if b <? 32 then None
      else if b =? 92 then
        match s' with
        | EmptyString => None
        | String e s2 =>
          if byteZ e =? 117 then
            match s2 with
            | String h1 (String h2 (String h3 (String h4 s6))) =>
              match getu4 h1 h2 h3 h4 with
              | None => None
              | Some rr =>
                if isSurrogate rr then
                  match s6 with
                  | String b1 (String b2 (String g1 (String g2 (String g3 (String g4 s12))))) =>
                    match (if (byteZ b1 =? 92) && (byteZ b2 =? 117)
                           then getu4 g1 g2 g3 g4 else None) with
                    | Some rr1 =>
                      match decodeSurrogates rr rr1 with
                      | Some dec => app_fst (utf8.EncodeRune dec) (unquote 0 s12)
                      | None => app_fst (utf8.EncodeRune utf8.RuneError) (unquote 0 s6)
                      end
                    | None => app_fst (utf8.EncodeRune utf8.RuneError) (unquote 0 s6)
                    end
                  | _ => app_fst (utf8.EncodeRune utf8.RuneError) (unquote 0 s6)
                  end
                else app_fst (utf8.EncodeRune rr) (unquote 0 s6)
              end
            | _ => None
            end
          else
            match simpleEscape e with
            | Some c' => cons_fst c' (unquote 0 s2)
            | None => None
            end
        end
      else if b <? 128 then cons_fst c (unquote 0 s')
      else
        match utf8.DecodeRuneInString s with
        | (_, S (S w)) => cons_fst c (unquote (S w) s')
        | _ => app_fst (utf8.EncodeRune utf8.RuneError) (unquote 0 s')
        end
    end
  end.

(** A number literal at the front of [s]: its text and what follows. *)
Definition scanNumber (s : string) : option (string * string) :=
  let '(sign, s1) :=
    match s with
    | String "-" t => ("-", t)
    | _ => ("", s)
    end in
  let int := fmt.digits s1 in
  let s2 := sdrop (String.length int) s1 in
  if String.eqb int "" then None
  else if String.prefix "0" int && negb (String.eqb int "0") then
    (* a leading zero ends the integer part: what follows it is not a delimiter *)
    None
  else
    let '(frac, s3) :=
      match s2 with
      | String "." t => (Some (fmt.digits t), sdrop (String.length (fmt.digits t)) t)
      | _ => (None, s2)
      end in
    match frac with
    | Some EmptyString => None
    | _ =>
      let fracText := match frac with Some f => "." +:+ f | None => "" end in
      match s3 with
      | String e t =>
        if (byteZ e =? 101) || (byteZ e =? 69) then
          let '(esign, t1) :=
            match t with
            | String "+" u => ("+", u)
            | String "-" u => ("-", u)
            | _ => ("", t)
            end in
          let ds := fmt.digits t1 in
          if String.eqb ds "" then None
          else Some (sign +:+ int +:+ fracText +:+ String e esign +:+ ds,
                     sdrop (String.length ds) t1)
        else Some (sign +:+ int +:+ fracText, s3)
      | EmptyString => Some (sign +:+ int +:+ fracText, s3)
      end
    end.

Definition maxNestingDepth : Z := 10000.

(** One JSON value at the front of [s] (after white space), inside [depth]
    arrays and objects: the value and what follows it. *)
Fixpoint parseValue (fuel : nat) (depth : Z) (s : string) : option (value * string) :=
  match fuel with
  | O => None
  | S f =>
    match skipSpace s with
    | EmptyString => None
    | String c r as s0 =>
      let b := byteZ c in
      if b =? 123 then
        if maxNestingDepth <? depth + 1 then None else
        match skipSpace r with
        | String "}" r' => Some (Object [], r')
        | r' =>
          match parseMembers f (depth + 1) r' with
          | Some (ms, rest) => Some (Object ms, rest)
          | None => None
          end
        end
      else if b =? 91 then
        if maxNestingDepth <? depth + 1 then None else
        match skipSpace r with
        | String "]" r' => Some (Array [], r')
        | r' =>
          match parseElements f (depth + 1) r' with
          | Some (vs, rest) => Some (Array vs, rest)
          | None => None
          end
        end
      else if b =? 34 then
        match unquote 0 r with
        | Some (str, rest) => Some (Str str, rest)
        | None => None
        end
      else if String.prefix "true" s0 then Some (Bool true, sdrop 4 s0)
      else if String.prefix "false" s0 then Some (Bool false, sdrop 5 s0)
      else if String.prefix "null" s0 then Some (Null, sdrop 4 s0)
      else
        match scanNumber s0 with
        | Some (lit, rest) => Some (Number lit, rest)
        | None => None
        end
    end
  end
with parseMembers (fuel : nat) (depth : Z) (s : string)
  : option (list (string * value) * string) :=
  match fuel with
  | O => None
  | S f =>
    match skipSpace s with
    | String c r =>
      if byteZ c =? 34 then
        match unquote 0 r with
        | Some (key, r1) =>
          match skipSpace r1 with
          | String ":" r2 =>
            match parseValue f depth r2 with
            | Some (v, r3) =>
              match skipSpace r3 with
              | String "," r4 =>
                match parseMembers f depth r4 with
                | Some (ms, rest) => Some ((key, v) :: ms, rest)
                | None => None
                end
              | String "}" r4 => Some ([(key, v)], r4)
              | _ => None
              end
            | None => None
            end
          | _ => None
          end
        | None => None
        end
      else None
    | EmptyString => None
    end
  end
with parseElements (fuel : nat) (depth : Z) (s : string)
  : option (list value * string) :=
  match fuel with
  | O => None
  | S f =>
    match parseValue f depth s with
    | Some (v, r1) =>
      match skipSpace r1 with
      | String "," r2 =>
        match parseElements f depth r2 with
        | Some (vs, rest) => Some (v :: vs, rest)
        | None => None
        end
      | String "]" r2 => Some ([v], r2)
      | _ => None
      end
    | None => None
    end
  end.

(** The value a text denotes, when the text is valid JSON: one value with
    nothing but white space around it.  Every step of the parser consumes a
    byte, so fuel for one step more than the text has bytes is enough. *)
Definition parse (data : string) : option value :=
  match parseValue (S (String.length data)) 0 data with
  | Some (v, rest) => if String.eqb (skipSpace rest) "" then Some v else None
  | None => None
  end.

(** *** Decoding into an issue *)

(** [foldName]: the key under which a field is found when no field has
    exactly the name of the member: ASCII letters in upper case, and the
    two runes that fold to an ASCII letter (the Kelvin sign, the long s)
    replaced by it. *)
Fixpoint foldName (s : string) : string :=
  match s with
  | EmptyString => EmptyString
  | String c s' =>
    let b := byteZ c in
    if utf8.in_range 97 122 b then String (byte_of_Z (b - 32)) (foldName s')
    else
      match s' with
      | String c1 s2 =>
        if (b =? 197) && (byteZ c1 =? 191) then String "S" (foldName s2)
        else
          match s2 with
          | String c2 s3 =>
            if (b =? 226) && (byteZ c1 =? 132) && (byteZ c2 =? 170)
            then String "K" (foldName s3)
            else String c (foldName s')
          | EmptyString => String c (foldName s')
          end
      | EmptyString => String c (foldName s')
      end
  end.

(** The member [key] names the field whose JSON name is [name]. *)
Definition names (key name : string) : bool :=
  String.eqb key name || String.eqb (foldName key) (foldName name).

(** A JSON value decoded into a field of type string that holds [old]:
    [null] leaves the field as it is, anything but a string is a type
    error. *)
Definition decodeString (old : string) (v : value) : option string :=
  match v with
  | Str s => Some s
  | Null => Some old
  | _ => None
  end.

Definition zeroDependency : Dependency := mkDependency "" "" "".

Definition decodeDependencyMember (acc : option Dependency) (m : string * value)
  : option Dependency :=
  match acc with
  | None => None
  | Some d =>
    let '(key, v) := m in
    if names key "issue_id" then
      option_map (fun s => mkDependency s (DependsOnID d) (Type_ d)) (decodeString (IssueID d) v)
    else if names key "depends_on_id" then
      option_map (fun s => mkDependency (IssueID d) s (Type_ d)) (decodeString (DependsOnID d) v)
    else if names key "relation_type" then
      option_map (fun s => mkDependency (IssueID d) (DependsOnID d) s) (decodeString (Type_ d) v)
    else Some d
  end.

Definition decodeDependency (v : value) : option Dependency :=
  match v with
  | Object ms => fold_left decodeDependencyMember ms (Some zeroDependency)
  | Null => Some zeroDependency
  | _ => None
  end.

Fixpoint decodeAll (vs : list value) : option (list Dependency) :=
  match vs with
  | [] => Some []
  | v :: rest =>
    match decodeDependency v, decodeAll rest with
    | Some d, Some ds => Some (d :: ds)
    | _, _ => None
    end
  end.

Definition decodeDependencies (v : value) : option (list Dependency) :=
  match v with
  | Array vs => decodeAll vs
  | Null => Some []
  | _ => None
  end.

Definition zeroIssue : Issue unit := mkIssue "" "" "" "" "" "" [] tt.

Definition decodeIssueMember (acc : option (Issue unit)) (m : string * value)
  : option (Issue unit) :=
  match acc with
  | None => None
  | Some i =>
    let '(key, v) := m in
    if names key "id" then
      option_map (fun s => mkIssue s (Title i) (Description i) (Design i)
                             (AcceptanceCriteria i) (Notes i) (Dependencies i) tt)
                 (decodeString (ID i) v)
    else if names key "title" then
      option_map (fun s => mkIssue (ID i) s (Description i) (Design i)
                             (AcceptanceCriteria i) (Notes i) (Dependencies i) tt)
                 (decodeString (Title i) v)
    else if names key "description" then
      option_map (fun s => mkIssue (ID i) (Title i) s (Design i)
                             (AcceptanceCriteria i) (Notes i) (Dependencies i) tt)
                 (decodeString (Description i) v)
    else if names key "design" then
      option_map (fun s => mkIssue (ID i) (Title i) (Description i) s
                             (AcceptanceCriteria i) (Notes i) (Dependencies i) tt)
                 (decodeString (Design i) v)
    else if names key "acceptance_criteria" then
      option_map (fun s => mkIssue (ID i) (Title i) (Description i) (Design i)
                             s (Notes i) (Dependencies i) tt)
                 (decodeString (AcceptanceCriteria i) v)
    else if names key "notes" then
      option_map (fun s => mkIssue (ID i) (Title i) (Description i) (Design i)
                             (AcceptanceCriteria i) s (Dependencies i) tt)
                 (decodeString (Notes i) v)
    else if names key "dependencies" then
      option_map (fun ds => mkIssue (ID i) (Title i) (Description i) (Design i)
                              (AcceptanceCriteria i) (Notes i) ds tt)
                 (decodeDependencies v)
    else Some i
  end.

(** A JSON value decoded into a zero issue: an object fills the fields its
    members name, in order; [null] leaves the issue as it is; any other
    value is a type error. *)
Definition decodeIssue (v : value) : option (Issue unit) :=
  match v with
  | Object ms => fold_left decodeIssueMember ms (Some zeroIssue)
  | Null => Some zeroIssue
  | _ => None
  end.

(** Modelled from the spec: the JSON names of the fields ([id], [title],
    [description], [design], [acceptance_criteria], [notes],
    [dependencies] with [depends_on_id] and [relation_type]; [issue_id]
    for the owner of an edge) stand for the tags of the missing type
    declarations.  [json.Unmarshal(data, &issue)] on a zero issue. *)
Definition Unmarshal (data : string) : option (Issue unit) :=
  match parse data with
  | Some v => decodeIssue v
  | None => None
  end.

(** *** Encoding an issue *)

Definition quote : string := String (byte_of_Z 34) EmptyString.

Definition hexOf (n : Z) : ascii :=
  if n <? 10 then byte_of_Z (48 + n) else byte_of_Z (87 + n).

(** The escape of a byte by its code, in four hexadecimal digits. *)
Definition escapeByte (b : Z) : string :=
  "\u00" +:+ String (hexOf (Z.shiftr b 4)) (String (hexOf (Z.land b 15)) EmptyString).

(** The body of a string literal, as the encoder writes it with HTML
    escaping on; [skip] counts the bytes of the current rune still to be
    passed over, copied when [keep] holds. *)
Fixpoint encodeBody (skip : nat) (keep : bool) (s : string) : string :=
  match s with
  | EmptyString => EmptyString
  | String c s' =>
    match skip with
    | S k => if keep then String c (encodeBody k keep s') else encodeBody k keep s'
    | O =>
      let b := byteZ c in
      if b <? 128 then
        if (b =? 34) || (b =? 92) then "\" +:+ String c (encodeBody 0 true s')
        else if b =? 10 then "\n" +:+ encodeBody 0 true s'
        else if b =? 13 then "\r" +:+ encodeBody 0 true s'
        else if b =? 9 then "\t" +:+ encodeBody 0 true s'
        else if (b <? 32) || (b =? 60) || (b =? 62) || (b =? 38)
        then escapeByte b +:+ encodeBody 0 true s'
        else String c (encodeBody 0 true s')
      else
        match utf8.DecodeRuneInString s with
        | (r, S (S w)) =>
          if r =? 8232 then "\u2028" +:+ encodeBody (S w) false s'
          else if r =? 8233 then "\u2029" +:+ encodeBody (S w) false s'
          else String c (encodeBody (S w) true s')
        | _ => "\ufffd" +:+ encodeBody 0 true s'
        end
    end
  end.

Definition encodeString (s : string) : string := quote +:+ encodeBody 0 true s +:+ quote.

Definition member (name : string) (text : string) : string :=
  quote +:+ name +:+ quote +:+ ":" +:+ text.

Definition encodeDependency (d : Dependency) : string :=
  "{" +:+ member "issue_id" (encodeString (IssueID d)) +:+ ","
      +:+ member "depends_on_id" (encodeString (DependsOnID d)) +:+ ","
      +:+ member "relation_type" (encodeString (Type_ d)) +:+ "}".

(** Modelled from the spec: the JSON names are those of [Unmarshal], in
    the order in which the spec lists the fields; an empty list of
    dependencies is left out.  [json.Marshal(issue)]. *)
Definition Marshal (i : Issue unit) : string :=
  "{" +:+ member "id" (encodeString (ID i)) +:+ ","
      +:+ member "title" (encodeString (Title i)) +:+ ","
      +:+ member "description" (encodeString (Description i)) +:+ ","
      +:+ member "design" (encodeString (Design i)) +:+ ","
      +:+ member "acceptance_criteria" (encodeString (AcceptanceCriteria i)) +:+ ","
      +:+ member "notes" (encodeString (Notes i))
      +:+ match Dependencies i with
          | [] => ""
          | ds => "," +:+ member "dependencies"
                    ("[" +:+ strings.Join (map encodeDependency ds) "," +:+ "]")
          end
      +:+ "}".

(** JSON written with apostrophes for quotation marks, to be read by the
    examples below. *)
Fixpoint text (s : string) : string :=
  match s with
  | EmptyString => EmptyString
  | String c s' => String (if byteZ c =? 39 then byte_of_Z 34 else c) (text s')
  end.

End json.

(** The runtime of the program: the JSON codec above, and maps ranged over
    in the order in which [ord] arranges their entries. *)
Definition goRuntime (ord : nat -> list (string * string) -> list (string * string))
    (Hord : forall k l, ord k l ≡ₚ l) : Runtime unit :=
  {| Unmarshal := json.Unmarshal;
     Marshal := json.Marshal;
     rangeOrder := fun k m => ord k (map_to_list m);
     rangeOrder_perm := fun k m => Hord k (map_to_list m) |}.

Definition inOrder (k : nat) (l : list (string * string)) : list (string * string) := l.

#[export] Instance stdRuntime : Runtime unit :=
  goRuntime inOrder (fun _ l => Permutation_refl l).

(** * Vocabulary of the properties *)

(** The three kinds of marker line, as both loops recognise them: by the
    first seven bytes of the line once trimmed. *)
Definition isOpen (line : string) : bool :=
  strings.HasPrefix (strings.TrimSpace line) "<<<<<<<".

Definition isDivider (line : string) : bool :=
  strings.HasPrefix (strings.TrimSpace line) "=======".

Definition isClose (line : string) : bool :=
  strings.HasPrefix (strings.TrimSpace line) ">>>>>>>".

Definition isMarker (line : string) : bool :=
  isOpen line || isDivider line || isClose line.

(** The lines of a file, as [applyResolutions] splits it. *)
Definition fileLines (content : string) : list string :=
  strings.Split content NL.

(** A file with no conflict-marker line. *)
Definition noMarkers (content : string) : Prop :=
  Forall (fun line => isMarker line = false) (fileLines content).

(** The condition under which the loop of [applyResolutions] tries to read
    a line outside a conflict as a record. *)
Definition candidate (line : string) : bool :=
  let trimmed := strings.TrimSpace line in
  negb (String.eqb trimmed "")
  && negb (strings.HasPrefix trimmed "<")
  && negb (strings.HasPrefix trimmed "=")
  && negb (strings.HasPrefix trimmed ">").

(** The ids of the HEAD records and of the BASE records of the conflicts
    found, in order. *)
Definition headIDsOf {Other : Type} (cs : list (ConflictBlock Other)) : list string :=
  map ID (flat_map HeadIssues cs).

Definition baseIDsOf {Other : Type} (cs : list (ConflictBlock Other)) : list string :=
  map ID (flat_map BaseIssues cs).

(** The new ids of the "remap" resolutions of a list. *)
Definition freshIDs (resolutions : list Resolution) : list string :=
  map NewID (filter (fun res => Action res = "remap") resolutions).


(** What the loop of [applyResolutions] emits for consecutive lines outside
    a conflict, none of them a marker, the first being line [i]. *)
Fixpoint outsideLines {Other : Type} `{!Runtime Other}
    (remapTable : gmap string string) (i : nat) (lines : list string) : list string :=
  match lines with
  | [] => []
  | line :: rest => outsideLine remapTable i line :: outsideLines remapTable (S i) rest
  end.

(** What it buffers for consecutive lines inside a conflict, none of them a
    marker. *)
Fixpoint insideLines {Other : Type} `{!Runtime Other}
    (remapTable : gmap string string) (i : nat) (lines : list string) : list string :=
  match lines with
  | [] => []
  | line :: rest => insideLine remapTable i line ++ insideLines remapTable (S i) rest
  end.

(** The resolutions carry, as new ids, only the id that the identifier
    source returns for the store. *)
Definition freshOnly {Other : Type} (store : Store Other) (rs : list Resolution) : Prop :=
  forall res, res ∈ rs -> Action res = "remap" ->
    getNextAvailableID store = Ok (NewID res).

(** The state of the loop of [applyResolutions] holds no buffered line
    when it is outside of a conflict. *)
Definition clean (st : ApplyState) : Prop :=
  inConflict st = false -> conflictLines st = [].

(** What the scanning loop reads from a line inside a conflict that is
    not a marker: the record it decodes, if it tries and succeeds. *)
Definition scanRecord {Other : Type} `{!Runtime Other} (text : string)
  : option (Issue Other) :=
  if candidate text then Unmarshal (strings.TrimSpace text) else None.

(** The blocks lie in order between line [lo], exclusive, and line [hi],
    inclusive: each starts after the end of the one before it and ends
    after its own start. *)
Fixpoint regionsWithin {Other : Type} (lo : Z) (cs : list (ConflictBlock Other)) (hi : Z)
  : bool :=
  match cs with
  | [] => lo <=? hi
  | c :: rest =>
    (lo <? LineStart c) && (LineStart c <? LineEnd c) && regionsWithin (LineEnd c) rest hi
  end.

(** The number that the loop of [getNextAvailableID] reads from an id,
    and the prefix it would take from it. *)
Definition issueNumber (id : string) : Z :=
  let parts := strings.Split id "-" in
  if (2 <=? length parts)%nat
  then default 0 (fmt.Sscanf_d (List.last parts ""))
  else 0.

Definition idPrefix (id : string) : string :=
  let parts := strings.Split id "-" in
  if (2 <=? length parts)%nat
  then strings.Join (take (length parts - 1) parts) "-"
  else "".

(** Some BASE record has an id that a HEAD record or an earlier BASE
    record has too. *)
Definition collides {Other : Type} (cs : list (ConflictBlock Other)) : bool :=
  negb (bool_decide (NoDup (baseIDsOf cs))
        && forallb (fun id => negb (bool_decide (id ∈ headIDsOf cs))) (baseIDsOf cs)).

(** A line of the file does not fit in the buffer of the line scanner. *)
Definition tooLong (content : string) : bool :=
  existsb (fun line => bufio.MaxScanTokenSize <=? Z.of_nat (String.length line))
          (fileLines content).

(** A string holds no newline. *)
Fixpoint oneLine (s : string) : bool :=
  match s with
  | EmptyString => true
  | String c s' => negb (Ascii.eqb c NL) && oneLine s'
  end.

(** The invariant of the scanning loop behind the order of the blocks: the
    blocks found lie before the conflict being read, which started at a
    line already counted. *)
Definition scanOrdered {Other : Type} (st : @ScanState Other) : Prop :=
  match current st with
  | Some c =>
    regionsWithin 0 (conflicts st) (LineStart c - 1) = true /\ LineStart c <= lineNum st
  | None => regionsWithin 0 (conflicts st) (lineNum st) = true
  end.

(** An id has a hyphen: the loop of [getNextAvailableID] reads a prefix
    and a number from it. *)
Definition hyphenated (id : string) : bool :=
  (2 <=? length (strings.Split id "-"))%nat.

(** A resolution as [resolveConflictsMechanical] builds it: a "keep" has
    no old and new id, a "remap" has no issue id. *)
Definition mechanical (res : Resolution) : Prop :=
  (Action res = "keep" /\ OldID res = "" /\ NewID res = "")
  \/ (Action res = "remap" /\ IssueID_ res = "").

(** What [formatConflictsJSON] shows of a block. *)
Definition conflictSummary {Other : Type} (c : ConflictBlock Other)
  : Z * Z * list string * list string :=
  (LineStart c, LineEnd c, map ID (HeadIssues c), map ID (BaseIssues c)).

(** The id of a BASE record clashes: a HEAD record has it, or one of the
    BASE records before it, or it is the new id and one of the BASE
    records before it has clashed. *)
Definition clashes (heads : list string) (fresh : string) (earlier : list string)
    (id : string) : Prop :=
  id ∈ heads \/ id ∈ earlier
  \/ (id = fresh /\ ~ (NoDup earlier /\ forall x, x ∈ earlier -> x ∉ heads)).

(** * Sample inputs *)

(** A file, from its lines. *)
Definition fileOf (lines : list string) : string :=
  strings.Join lines (String NL "").

(** An issue that has only an id. *)
Definition stored (id : string) : Issue unit := mkIssue id "" "" "" "" "" [] tt.

(** A store whose highest issue number is 5. *)
Definition store5 : Store unit :=
  Issues [stored "bd-1"; stored "bd-2"; stored "bd-3"; stored "bd-4"; stored "bd-5"].

(** A file without conflict markers. *)
Definition plainFile : string :=
  fileOf [json.text "{'id':'bd-1','title':'one'}";
          json.text "{'id':'bd-2','title':'two','description':'after bd-1'}";
          ""].

(** Scenario B of the specification: [bd-1] on both sides of one conflict,
    and, outside of it, a record that mentions [bd-1] and [bd-10] and
    depends on [bd-1]. *)
Definition headLine : string := json.text "{'id':'bd-1','title':'ours'}".
Definition baseLine : string := json.text "{'id':'bd-1','title':'theirs'}".
Definition outsideRecord : string :=
  json.text "{'id':'bd-9','title':'nine','description':'see bd-1 and bd-10','dependencies':[{'issue_id':'bd-9','depends_on_id':'bd-1','relation_type':'blocks'}]}".

Definition collisionFile : string :=
  fileOf [outsideRecord; "<<<<<<< HEAD"; headLine; "======="; baseLine;
          ">>>>>>> feature"; ""].

(** The conflict of [collisionFile], and one with two colliding ids. *)
Definition ours (id : string) : Issue unit := mkIssue id "ours" "" "" "" "" [] tt.
Definition theirs (id : string) : Issue unit := mkIssue id "theirs" "" "" "" "" [] tt.

Definition collision : ConflictBlock unit :=
  mkConflictBlock [ours "bd-1"] [theirs "bd-1"] 2 6.

Definition twoCollisions : ConflictBlock unit :=
  mkConflictBlock [ours "bd-1"; ours "bd-2"] [theirs "bd-1"; theirs "bd-2"] 1 7.

(** The conflict of scenario B and a plain line, followed by a conflict
    whose open marker is never closed. *)
Definition plainLine : string := json.text "{'id':'bd-3','title':'three'}".
Definition lostLine : string := json.text "{'id':'bd-4','title':'four'}".

Definition unterminatedFile : string :=
  fileOf ["<<<<<<< HEAD"; headLine; "======="; baseLine; ">>>>>>> feature"; plainLine;
          "<<<<<<< HEAD"; lostLine; "======="; plainLine].

(** A divider outside of any conflict, before the conflict of scenario B. *)
Definition strayDividerFile : string :=
  fileOf ["======="; "<<<<<<< HEAD"; headLine; "======="; baseLine; ">>>>>>> feature"].

(** A record with a member that names no field of an issue, in a
    conflict. *)
Definition customLine : string :=
  json.text "{'id':'bd-1','title':'theirs','x_custom':'keep me'}".

Definition customFile : string :=
  fileOf ["<<<<<<< HEAD"; headLine; "======="; customLine; ">>>>>>> feature"].

(** One HEAD record and two BASE records with the same id. *)
Definition repeatedCollision : ConflictBlock unit :=
  mkConflictBlock [ours "bd-1"] [theirs "bd-1"; theirs "bd-1"] 1 6.

(** A HEAD record with the id that the store hands out next. *)
Definition takenCollision : ConflictBlock unit :=
  mkConflictBlock [ours "bd-1"; ours "bd-6"] [theirs "bd-1"] 1 6.

(** Scenario B with a second HEAD record, which refers to [bd-1]. *)
Definition headReference : string :=
  json.text "{'id':'bd-7','title':'ours too','description':'blocked by bd-1','dependencies':[{'issue_id':'bd-7','depends_on_id':'bd-1','relation_type':'blocks'}]}".

Definition headReferenceFile : string :=
  fileOf ["<<<<<<< HEAD"; headLine; headReference; "======="; baseLine;
          ">>>>>>> feature"].
(** A conflict without a divider, after a plain line. *)
Definition undividedFile : string :=
  fileOf [plainLine; "<<<<<<< HEAD"; headLine; baseLine; ">>>>>>> feature"].

(** A conflict whose two sides hold different ids. *)
Definition distinctIDs : ConflictBlock unit :=
  mkConflictBlock [ours "bd-1"] [theirs "bd-2"] 1 5.

(** A conflict whose records have no id. *)
Definition missingIDs : ConflictBlock unit :=
  mkConflictBlock [ours ""] [theirs ""] 1 5.

(** A conflict that is opened twice. *)
Definition restartedFile : string :=
  fileOf [plainLine; "<<<<<<< HEAD"; lostLine; "<<<<<<< HEAD"; headLine; "=======";
          baseLine; ">>>>>>> feature"].

(** A conflict with a collision, and a BASE record that has the id that
    the store hands out next. *)
Definition freshClash : ConflictBlock unit :=
  mkConflictBlock [ours "bd-1"] [theirs "bd-1"; theirs "bd-6"; theirs "bd-7"] 1 7.


(** * Properties of the library functions *)

Section Library.

Lemma prefix_cons a p c t :
  String.prefix (String a p) (String c t)
  = if ascii_dec a c then String.prefix p t else false.
Proof. reflexivity. Qed.

Lemma HasPrefix_head a p s :
  strings.HasPrefix s (String a p) = true -> exists t, s = String a t.
Proof.
  unfold strings.HasPrefix. destruct s as [|c t]; [discriminate|].
  rewrite prefix_cons. destruct (ascii_dec a c) as [->|]; [eauto|discriminate].
Qed.

Lemma open_not_divider t :
  strings.HasPrefix t "<<<<<<<" = true -> strings.HasPrefix t "=======" = false.
Proof. intros [t' ->]%HasPrefix_head. reflexivity. Qed.

Lemma open_not_close t :
  strings.HasPrefix t "<<<<<<<" = true -> strings.HasPrefix t ">>>>>>>" = false.
Proof. intros [t' ->]%HasPrefix_head. reflexivity. Qed.

Lemma close_not_divider t :
  strings.HasPrefix t ">>>>>>>" = true -> strings.HasPrefix t "=======" = false.
Proof. intros [t' ->]%HasPrefix_head. reflexivity. Qed.

Lemma HasPrefix_shorter t a p :
  strings.HasPrefix t (String a p) = true -> strings.HasPrefix t (String a "") = true.
Proof.
  intros [t' ->]%HasPrefix_head. unfold strings.HasPrefix. rewrite prefix_cons.
  destruct (ascii_dec a a); [|done]. by destruct t'.
Qed.

(** ** Byte strings *)

Lemma append_nil t : "" +:+ t = t.
Proof. reflexivity. Qed.

Lemma append_cons c s t : String c s +:+ t = String c (s +:+ t).
Proof. reflexivity. Qed.

Lemma length_app_string s t :
  String.length (s +:+ t) = (String.length s + String.length t)%nat.
Proof.
  induction s as [|c s IH]; [done|]. rewrite append_cons. simpl. by rewrite IH.
Qed.

Lemma app_empty_r s : s +:+ "" = s.
Proof. induction s as [|c s IH]; [done|]. by rewrite append_cons, IH. Qed.

Lemma app_assoc_string s t u : (s +:+ t) +:+ u = s +:+ (t +:+ u).
Proof. induction s as [|c s IH]; [done|]. by rewrite !append_cons, IH. Qed.

Lemma srev_app_spec s acc : srev_app s acc = srev s +:+ acc.
Proof.
  unfold srev. revert acc. induction s as [|c s IH]; intros acc; simpl; [done|].
  rewrite (IH (String c acc)), (IH (String c EmptyString)), app_assoc_string. done.
Qed.

Lemma srev_app_snoc s c acc :
  srev_app (s +:+ String c "") acc = String c (srev_app s acc).
Proof.
  revert acc. induction s as [|a s IH]; intros acc; [done|].
  rewrite append_cons. simpl. by rewrite IH.
Qed.

Lemma srev_snoc s c : srev (s +:+ String c "") = String c (srev s).
Proof. apply srev_app_snoc. Qed.

Lemma srev_cons c s : srev (String c s) = srev s +:+ String c "".
Proof. unfold srev at 1. simpl. apply srev_app_spec. Qed.

Lemma srev_involutive s : srev (srev s) = s.
Proof.
  induction s as [|c s IH]; [done|]. by rewrite srev_cons, srev_snoc, IH.
Qed.

Lemma sdrop_app n s t :
  (n <= String.length s)%nat -> sdrop n (s +:+ t) = sdrop n s +:+ t.
Proof.
  revert s. induction n as [|n IH]; intros s Hn; [done|].
  destruct s as [|c s]; simpl in Hn; [lia|].
  rewrite append_cons. simpl. apply IH. lia.
Qed.

Lemma stake_app_length s t : stake (String.length s) (s +:+ t) = s.
Proof.
  induction s as [|c s IH]; [by destruct t|]. rewrite append_cons. simpl. by rewrite IH.
Qed.

Lemma length_sdrop n s : String.length (sdrop n s) = (String.length s - n)%nat.
Proof. revert s. induction n as [|n IH]; intros [|c s]; simpl; done. Qed.

(** ** Decoding a rune *)

Lemma first_cases b :
  fst (utf8.first b) = 0%nat \/ fst (utf8.first b) = 1%nat
  \/ ((fst (utf8.first b) = 2%nat \/ fst (utf8.first b) = 3%nat \/ fst (utf8.first b) = 4%nat)
      /\ 128 <= fst (snd (utf8.first b))).
Proof.
  unfold utf8.first.
  repeat (match goal with |- context [if ?c then _ else _] => destruct c end;
          simpl; [auto 10 with lia|]).
  auto.
Qed.

Lemma decode_width_pos s :
  s <> "" -> (1 <= snd (utf8.DecodeRuneInString s))%nat.
Proof.
  destruct s as [|c0 r0]; [done|]. intros _. unfold utf8.DecodeRuneInString.
  destruct (utf8.first (byteZ c0)) as [[|[|sz]] [lo hi]]; simpl; try lia.
  repeat (match goal with
          | |- context [if ?c then _ else _] => destruct c
          | |- context [match ?s with EmptyString => _ | String _ _ => _ end] => destruct s
          end; simpl; try lia).
Qed.

Lemma decode_width_le s :
  (snd (utf8.DecodeRuneInString s) <= String.length s)%nat.
Proof.
  destruct s as [|c0 r0]; [done|]. unfold utf8.DecodeRuneInString.
  destruct (utf8.first (byteZ c0)) as [[|[|sz]] [lo hi]]; simpl; try lia.
  repeat (match goal with
          | |- context [if ?c then _ else _] => destruct c
          | |- context [match ?s with EmptyString => _ | String _ _ => _ end] => destruct s
          end; simpl; try lia).
Qed.


(** A carriage return after a string does not change how its first rune
    decodes: it continues no encoding. *)
Lemma decode_app_CR s :
  s <> "" ->
  utf8.DecodeRuneInString (s +:+ String CR "") = utf8.DecodeRuneInString s.
Proof.
  destruct s as [|c0 r0]; [done|]. intros _. rewrite append_cons.
  unfold utf8.DecodeRuneInString.
  destruct (first_cases (byteZ c0)) as [H|[H|[H Hlo]]];
    destruct (utf8.first (byteZ c0)) as [sz [lo hi]]; simpl in *.
  - by subst sz.
  - by subst sz.
  - assert (Hcr : forall hi', utf8.in_range lo hi' (byteZ CR) = false).
    { intros hi'. unfold utf8.in_range. change (byteZ CR) with 13.
      apply andb_false_intro1. apply Z.leb_gt. lia. }
    assert (Hcr' : utf8.in_range 128 191 (byteZ CR) = false) by done.
    destruct r0 as [|c1 [|c2 [|c3 r3]]];
      rewrite ?append_cons, ?append_nil;
      destruct H as [-> | [-> | ->] ]; simpl; rewrite ?Hcr, ?Hcr'; simpl;
      repeat (match goal with
              | |- context [if ?c then _ else _] => destruct c
              end; simpl; rewrite ?Hcr'; simpl; try done); done.
Qed.


(** ** Trimming *)

Lemma trimLeftSpace_empty fuel : strings.trimLeftSpace fuel "" = "".
Proof. by destruct fuel. Qed.

Lemma trimLeftSpace_app_CR fuel s :
  (String.length s <= fuel)%nat ->
  strings.trimLeftSpace (S fuel) (s +:+ String CR "")
  = match strings.trimLeftSpace fuel s with
    | EmptyString => EmptyString
    | t => t +:+ String CR ""
    end.
Proof.
  revert s. induction fuel as [|f IH]; intros s Hlen.
  - destruct s; [done|simpl in Hlen; lia].
  - destruct (decide (s = "")) as [->|Hne].
    { rewrite append_nil. by rewrite trimLeftSpace_empty. }
    change (strings.trimLeftSpace (S (S f)) (s +:+ String CR ""))
      with (let '(r, w) := utf8.DecodeRuneInString (s +:+ String CR "") in
            if (0 <? w)%nat && unicode.IsSpace r
            then strings.trimLeftSpace (S f) (sdrop w (s +:+ String CR ""))
            else s +:+ String CR "").
    change (strings.trimLeftSpace (S f) s)
      with (let '(r, w) := utf8.DecodeRuneInString s in
            if (0 <? w)%nat && unicode.IsSpace r
            then strings.trimLeftSpace f (sdrop w s) else s).
    rewrite decode_app_CR by done.
    pose proof (decode_width_pos s Hne) as Hpos.
    pose proof (decode_width_le s) as Hle.
    destruct (utf8.DecodeRuneInString s) as [r w]; simpl in Hpos, Hle.
    destruct ((0 <? w)%nat && unicode.IsSpace r).
    + rewrite sdrop_app by done. apply IH. rewrite length_sdrop. lia.
    + destruct s; [done|]. by rewrite append_cons.
Qed.

Lemma trimRightSpace_app_CR fuel t :
  strings.trimRightSpace (S fuel) (t +:+ String CR "") = strings.trimRightSpace fuel t.
Proof.
  simpl. unfold utf8.DecodeLastRuneInString. rewrite srev_snoc.
  change (byteZ CR <? utf8.RuneSelf) with true. cbv iota.
  change ((0 <? 1)%nat && unicode.IsSpace (byteZ CR)) with true. cbv iota.
  rewrite length_app_string. simpl.
  replace (String.length t + 1 - 1)%nat with (String.length t) by lia.
  by rewrite stake_app_length.
Qed.

Lemma TrimSpace_app_CR s : strings.TrimSpace (s +:+ String CR "") = strings.TrimSpace s.
Proof.
  unfold strings.TrimSpace. rewrite length_app_string. simpl.
  replace (String.length s + 1)%nat with (S (String.length s)) by lia.
  rewrite trimLeftSpace_app_CR by done.
  destruct (strings.trimLeftSpace (String.length s) s) as [|c t] eqn:E; [done|].
  generalize (String c t). intros l0.
  rewrite length_app_string. change (String.length (String CR "")) with 1%nat.
  replace (String.length l0 + 1)%nat with (S (String.length l0)) by lia.
  apply trimRightSpace_app_CR.
Qed.

Lemma dropCR_spec line :
  bufio.dropCR line = line \/ line = bufio.dropCR line +:+ String CR "".
Proof.
  unfold bufio.dropCR. destruct (srev line) as [|c r] eqn:E; [by left|].
  destruct (Ascii.eqb_spec c CR) as [->|]; [right|by left].
  rewrite <- (srev_involutive line), E. apply srev_cons.
Qed.

(** The scanner's token and the line it comes from are trimmed to the same
    text. *)
Lemma TrimSpace_dropCR line : strings.TrimSpace (bufio.dropCR line) = strings.TrimSpace line.
Proof.
  destruct (dropCR_spec line) as [->|H]; [done|].
  rewrite H at 2. by rewrite TrimSpace_app_CR.
Qed.


(** ** Splitting and joining *)

Lemma Split_nonempty s sep : strings.Split s sep <> [].
Proof.
  destruct s as [|c s]; simpl; [done|].
  destruct (Ascii.eqb c sep); [done|]. by destruct (strings.Split s sep).
Qed.

Lemma Join_cons x rest sep :
  rest <> [] -> strings.Join (x :: rest) sep = x +:+ sep +:+ strings.Join rest sep.
Proof. by destruct rest. Qed.

(** Joining what was split gives the string back. *)
Lemma Join_Split s sep : strings.Join (strings.Split s sep) (String sep "") = s.
Proof.
  induction s as [|c s IH]; [done|]. simpl.
  pose proof (Split_nonempty s sep) as Hne.
  destruct (Ascii.eqb_spec c sep) as [->|Hc].
  - rewrite Join_cons by done. by rewrite IH.
  - destruct (strings.Split s sep) as [|h t]; [done|].
    destruct t as [|h' t]; simpl in *; [by rewrite IH|].
    rewrite <- IH. by rewrite !append_cons.
Qed.

Lemma dropLastEmpty_spec segs :
  bufio.dropLastEmpty segs = segs \/ segs = bufio.dropLastEmpty segs ++ [""].
Proof.
  induction segs as [|s rest IH]; [by left|].
  destruct rest as [|s' rest'].
  - simpl. destruct (String.eqb_spec s ""); [subst; by right|by left].
  - change (bufio.dropLastEmpty (s :: s' :: rest'))
      with (s :: bufio.dropLastEmpty (s' :: rest')).
    destruct IH as [->|IH]; [by left|right]. by rewrite IH at 1.
Qed.

Lemma scanTokens_spec segs :
  bufio.scanTokens segs = (map bufio.dropCR segs, false)
  \/ snd (bufio.scanTokens segs) = true.
Proof.
  induction segs as [|s rest IH]; [by left|]. simpl.
  destruct (bufio.MaxScanTokenSize <=? Z.of_nat (String.length s)); [by right|].
  destruct IH as [->|IH]; [by left|right].
  by destruct (bufio.scanTokens rest) as [toks e]; simpl in *.
Qed.

End Library.

(** * The conflict scanner *)

Section Scanner.

Context {Other : Type} `{!Runtime Other}.

Local Abbreviation ScanState := (@ScanState Other).

(** The cases of [scanStep], by the kind of the line. *)
Ltac scan_cases text :=
  unfold scanStep, isOpen, isDivider, isClose in *;
  destruct (String.eqb (strings.TrimSpace text) "") eqn:Hempty;
  [ apply String.eqb_eq in Hempty; try rewrite Hempty in *
  | destruct (strings.HasPrefix (strings.TrimSpace text) "<<<<<<<") eqn:Hopen;
    [ | destruct (strings.HasPrefix (strings.TrimSpace text) "=======") eqn:Hdiv;
        [ | destruct (strings.HasPrefix (strings.TrimSpace text) ">>>>>>>") eqn:Hclose ] ] ].

(** The scanner reads a token only through its trimmed text. *)
Lemma scanStep_dropCR (st : ScanState) line :
  scanStep st (bufio.dropCR line) = scanStep st line.
Proof. unfold scanStep. by rewrite TrimSpace_dropCR. Qed.

Lemma scanLoop_dropCR (st : ScanState) lines :
  scanLoop st (map bufio.dropCR lines) = scanLoop st lines.
Proof.
  unfold scanLoop. revert st. induction lines as [|l ls IH]; intros st; simpl; [done|].
  by rewrite scanStep_dropCR, IH.
Qed.

Lemma scanLoop_app (st : ScanState) l1 l2 :
  scanLoop st (l1 ++ l2) = scanLoop (scanLoop st l1) l2.
Proof. apply fold_left_app. Qed.

(** A blank line only advances the line counter. *)
Lemma scanStep_blank (st : ScanState) :
  scanStep st "" = mkScanState (conflicts st) (current st) (scanInConflict st)
                     (inHead st) (lineNum st + 1).
Proof. reflexivity. Qed.

(** [current] is set wherever the loop dereferences it. *)
Lemma scan_current_set_step (st : ScanState) text :
  (scanInConflict st = true -> is_Some (current st)) ->
  scanInConflict (scanStep st text) = true -> is_Some (current (scanStep st text)).
Proof.
  intros Hinv. scan_cases text; simpl; try done.
  - destruct (scanInConflict st) eqn:Hc; simpl; [auto|done].
  - destruct (scanInConflict st) eqn:Hc; simpl; [|done].
    destruct (current st) eqn:Hcur; simpl; [done|].
    intros _. by destruct Hinv.
  - destruct (scanInConflict st && _ && _ && _) eqn:Hc'; simpl; [|done].
    destruct (Unmarshal _); simpl; [|done].
    destruct (current st) eqn:Hcur; simpl; [done|].
    intros Hc. apply andb_prop in Hc' as [[[Hc' _]%andb_prop _]%andb_prop _].
    rewrite Hc' in Hinv. by destruct Hinv.
Qed.

Lemma scan_current_set tokens :
  let st := scanLoop (@scanInit Other) tokens in
  scanInConflict st = true -> is_Some (current st).
Proof.
  induction tokens as [|t ts IH] using rev_ind; [done|].
  rewrite scanLoop_app. simpl. by apply scan_current_set_step.
Qed.

(** Only a close marker seals a region: any other line leaves the list of
    conflicts as it is. *)
Lemma scanStep_conflicts (st : ScanState) text :
  isClose text = false -> conflicts (scanStep st text) = conflicts st.
Proof.
  intros Hc. scan_cases text; simpl; try done.
  - by destruct (scanInConflict st).
  - destruct (scanInConflict st && _ && _ && _); [|done].
    destruct (Unmarshal _); [|done]. by destruct (current st).
Qed.

Lemma scanLoop_conflicts (st : ScanState) lines :
  Forall (fun l => isClose l = false) lines ->
  conflicts (scanLoop st lines) = conflicts st.
Proof.
  unfold scanLoop. revert st. induction lines as [|l ls IH]; intros st Hall; [done|].
  inversion Hall; subst. simpl. rewrite IH by done. by apply scanStep_conflicts.
Qed.

(** [detectConflicts] in terms of the lines of the file: either the line
    scanner gave up on a line too long for its buffer, or the result is
    what the loop computes on the lines that [applyResolutions] sees. *)
Lemma detectConflicts_lines content :
  detectConflicts content = ([], Some (ErrReading ErrTooLong))
  \/ detectConflicts content
     = (conflicts (scanLoop scanInit (fileLines content)), None).
Proof.
  unfold detectConflicts, bufio.ScanLines, fileLines.
  destruct (scanTokens_spec (bufio.dropLastEmpty (strings.Split content NL))) as [->|H].
  - right. rewrite scanLoop_dropCR. f_equal.
    destruct (dropLastEmpty_spec (strings.Split content NL)) as [->|E]; [done|].
    rewrite E at 2. rewrite scanLoop_app. done.
  - left. destruct (bufio.scanTokens _) as [toks e]. simpl in H. by subst e.
Qed.

End Scanner.

(** * The collision resolver *)

Section Resolver.

Context {Other : Type} `{!Runtime Other}.

Local Abbreviation Issue := (Issue Other).
Local Abbreviation ConflictBlock := (ConflictBlock Other).

Lemma fold_left_flat_map {A B C : Type} (f : A -> B -> A) (g : C -> list B) cs acc :
  fold_left (fun acc c => fold_left f (g c) acc) cs acc
  = fold_left f (flat_map g cs) acc.
Proof.
  revert acc. induction cs as [|c cs IH]; intros acc; simpl; [done|].
  by rewrite fold_left_app, IH.
Qed.

Lemma fold_left_cons {A B : Type} (f : A -> B -> A) x l a :
  fold_left f (x :: l) a = fold_left f l (f a x).
Proof. reflexivity. Qed.

Lemma headPass_flat (cs : list ConflictBlock) :
  headPass cs = fold_left headStep (flat_map HeadIssues cs) (∅, []).
Proof. apply fold_left_flat_map. Qed.

Lemma basePass_flat store (cs : list ConflictBlock) acc :
  basePass store cs acc = fold_left (baseStep store) (flat_map BaseIssues cs) (Ok acc).
Proof. apply (fold_left_flat_map (baseStep store)). Qed.

Lemma baseStep_Err store (issues : list Issue) e :
  fold_left (baseStep store) issues (Err e) = Err e.
Proof. induction issues; simpl; auto. Qed.

(** The HEAD pass only keeps, and claims every HEAD id. *)
Lemma headPass_spec (issues : list Issue) ids rs :
  fold_left headStep issues (ids, rs)
  = (list_to_set (map ID issues) ∪ ids, rs ++ map (fun i => keepHead (ID i)) issues).
Proof.
  revert ids rs. induction issues as [|i issues IH]; intros ids rs.
  - simpl. f_equal; [by rewrite (left_id_L ∅ (∪))|by rewrite app_nil_r].
  - rewrite fold_left_cons. unfold headStep at 2. rewrite IH. f_equal.
    + simpl. by rewrite (assoc_L (∪)), (comm_L (∪) (list_to_set _)).
    + simpl. by rewrite <- app_assoc.
Qed.

(** Every "remap" resolution of a run carries the id that the identifier
    source returns, which is the same at every call. *)
Lemma baseStep_freshOnly store (issue : Issue) ids rs ids' rs' :
  freshOnly store rs ->
  baseStep store (Ok (ids, rs)) issue = Ok (ids', rs') ->
  freshOnly store rs'.
Proof.
  intros Hrs. simpl. case_bool_decide.
  - destruct (getNextAvailableID store) as [newID|] eqn:Hid; [|done].
    intros [= <- <-]. intros res [Hin| ->%list_elem_of_singleton]%elem_of_app Hact; auto.
  - intros [= <- <-]. intros res [Hin| ->%list_elem_of_singleton]%elem_of_app Hact; auto.
    done.
Qed.

Lemma basePass_freshOnly store (issues : list Issue) ids rs ids' rs' :
  freshOnly store rs ->
  fold_left (baseStep store) issues (Ok (ids, rs)) = Ok (ids', rs') ->
  freshOnly store rs'.
Proof.
  revert ids rs. induction issues as [|i issues IH]; intros ids rs Hrs.
  - by intros [= <- <-].
  - rewrite fold_left_cons.
    destruct (baseStep store (Ok (ids, rs)) i) as [[ids1 rs1]|e] eqn:Hstep.
    + intros Hfold. eapply IH; [|exact Hfold]. by eapply baseStep_freshOnly.
    + by rewrite baseStep_Err.
Qed.

Lemma resolve_freshOnly store (cs : list ConflictBlock) rs :
  resolveConflictsMechanical store cs = Ok rs -> freshOnly store rs.
Proof.
  unfold resolveConflictsMechanical. rewrite headPass_flat, headPass_spec, basePass_flat.
  destruct (fold_left _ _ _) as [[ids' rs']|e] eqn:Hfold; [|done].
  intros [= <-]. eapply basePass_freshOnly; [|exact Hfold].
  intros res Hin Hact. rewrite app_nil_l in Hin.
  apply list_elem_of_fmap in Hin as [i [-> _]]. done.
Qed.

(** Any two "remap" resolutions of one run carry the same new id. *)
Corollary fresh_ids_coincide store (cs : list ConflictBlock) rs res1 res2 :
  resolveConflictsMechanical store cs = Ok rs ->
  res1 ∈ rs -> res2 ∈ rs -> Action res1 = "remap" -> Action res2 = "remap" ->
  NewID res1 = NewID res2.
Proof.
  intros Hrun Hin1 Hin2 Hact1 Hact2. apply resolve_freshOnly in Hrun.
  pose proof (Hrun res1 Hin1 Hact1) as H1. pose proof (Hrun res2 Hin2 Hact2) as H2.
  congruence.
Qed.

(** The resolver fails only when the identifier source does. *)
Lemma basePass_Err store (issues : list Issue) acc e :
  fold_left (baseStep store) issues (Ok acc) = Err e ->
  exists e0, getNextAvailableID store = Err e0 /\ e = ErrNextID e0.
Proof.
  revert acc. induction issues as [|i issues IH]; intros [ids rs]; [done|].
  rewrite fold_left_cons. unfold baseStep at 2. case_bool_decide.
  - destruct (getNextAvailableID store) as [newID|e0] eqn:Hid; [by apply IH|].
    rewrite baseStep_Err. intros [= <-]. eauto.
  - apply IH.
Qed.

Lemma resolve_Err store (cs : list ConflictBlock) e :
  resolveConflictsMechanical store cs = Err e ->
  cs <> [] /\ exists e0, getNextAvailableID store = Err e0 /\ e = ErrNextID e0.
Proof.
  unfold resolveConflictsMechanical. rewrite basePass_flat.
  destruct (headPass cs) as [ids rs].
  destruct (fold_left _ _ _) as [[ids' rs']|e'] eqn:Hfold; [done|].
  intros [= ->]. split; [|by eapply basePass_Err].
  intros ->. done.
Qed.

(** When the identifier source fails, a BASE record whose id a HEAD
    record has makes the resolver fail. *)
Lemma basePass_collision store (issues : list Issue) ids rs e0 id :
  getNextAvailableID store = Err e0 ->
  id ∈ ids -> id ∈ map ID issues ->
  fold_left (baseStep store) issues (Ok (ids, rs)) = Err (ErrNextID e0).
Proof.
  intros Hid. revert ids rs. induction issues as [|i issues IH]; intros ids rs Hin Hbase.
  - by apply elem_of_nil in Hbase.
  - rewrite fold_left_cons. unfold baseStep at 2. rewrite Hid.
    case_bool_decide as Hc; [by rewrite baseStep_Err|].
    apply IH; [by apply elem_of_union_r|].
    simpl in Hbase. apply elem_of_cons in Hbase as [->|]; [done|done].
Qed.

Lemma resolve_collision store (cs : list ConflictBlock) e0 id :
  getNextAvailableID store = Err e0 ->
  id ∈ headIDsOf cs -> id ∈ baseIDsOf cs ->
  resolveConflictsMechanical store cs = Err (ErrNextID e0).
Proof.
  intros Hid Hh Hb. unfold resolveConflictsMechanical.
  rewrite headPass_flat, headPass_spec, basePass_flat.
  erewrite basePass_collision; [done|exact Hid| |exact Hb].
  apply elem_of_union_l, elem_of_list_to_set. exact Hh.
Qed.

(** The BASE pass only adds resolutions. *)
Lemma basePass_keeps store (issues : list Issue) ids rs ids' rs' res :
  fold_left (baseStep store) issues (Ok (ids, rs)) = Ok (ids', rs') ->
  res ∈ rs -> res ∈ rs'.
Proof.
  revert ids rs. induction issues as [|i issues IH]; intros ids rs.
  - by intros [= <- <-].
  - rewrite fold_left_cons. unfold baseStep at 2. case_bool_decide.
    + destruct (getNextAvailableID store) as [newID|e0]; [|by rewrite baseStep_Err].
      intros Hfold Hin. eapply IH; [exact Hfold|]. apply elem_of_app. by left.
    + intros Hfold Hin. eapply IH; [exact Hfold|]. apply elem_of_app. by left.
Qed.

(** A BASE record whose id is claimed gets a "remap" resolution. *)
Lemma basePass_remaps store (issues : list Issue) ids rs ids' rs' id :
  fold_left (baseStep store) issues (Ok (ids, rs)) = Ok (ids', rs') ->
  id ∈ ids -> id ∈ map ID issues ->
  exists res, res ∈ rs' /\ Action res = "remap" /\ OldID res = id.
Proof.
  revert ids rs. induction issues as [|i issues IH]; intros ids rs Hfold Hin Hbase.
  - by apply elem_of_nil in Hbase.
  - rewrite fold_left_cons in Hfold. unfold baseStep at 2 in Hfold.
    simpl in Hbase. apply elem_of_cons in Hbase as [->|Hbase].
    + rewrite bool_decide_eq_true_2 in Hfold by done.
      destruct (getNextAvailableID store) as [newID|e0];
        [|by rewrite baseStep_Err in Hfold].
      exists (remap (ID i) newID). split; [|done].
      eapply basePass_keeps; [exact Hfold|]. apply elem_of_app. right. by left.
    + case_bool_decide.
      * destruct (getNextAvailableID store) as [newID|e0];
          [|by rewrite baseStep_Err in Hfold].
        eapply IH; [exact Hfold| |done]. by apply elem_of_union_r.
      * eapply IH; [exact Hfold| |done]. by apply elem_of_union_r.
Qed.

Lemma resolve_remaps store (cs : list ConflictBlock) rs id :
  resolveConflictsMechanical store cs = Ok rs ->
  id ∈ headIDsOf cs -> id ∈ baseIDsOf cs ->
  exists res, res ∈ rs /\ Action res = "remap" /\ OldID res = id.
Proof.
  unfold resolveConflictsMechanical. rewrite headPass_flat, headPass_spec, basePass_flat.
  destruct (fold_left _ _ _) as [[ids' rs']|e] eqn:Hfold; [|done].
  intros [= <-] Hh Hb. eapply basePass_remaps; [exact Hfold| |exact Hb].
  apply elem_of_union_l, elem_of_list_to_set. exact Hh.
Qed.

End Resolver.

(** * The reference rewriter *)

Section Rewriter.

Context {Other : Type} `{!Runtime Other}.

(** ** [strings.ReplaceAll] *)

Lemma prefix_spec old s : String.prefix old s = true <-> exists b, s = old +:+ b.
Proof.
  revert s. induction old as [|a old IH]; intros s.
  - split; [intros _; by exists s|intros _; by destruct s].
  - destruct s as [|c s]; [split; [done|by intros [b Hb]]|].
    rewrite prefix_cons. destruct (ascii_dec a c) as [->|Hne].
    + rewrite IH. split; intros [b Hb]; exists b.
      * by rewrite append_cons, Hb.
      * rewrite append_cons in Hb. by injection Hb.
    + split; [done|]. intros [b Hb]. rewrite append_cons in Hb. by injection Hb.
Qed.








(** ** [remapTextReferences] *)


Lemma rangeOrder_empty k : rangeOrder k (∅ : gmap string string) = [].
Proof.
  apply Permutation_nil_r. rewrite (rangeOrder_perm k ∅). by rewrite map_to_list_empty.
Qed.

Lemma rangeOrder_singleton k old new :
  rangeOrder k ({[old := new]} : gmap string string) = [(old, new)].
Proof.
  apply Permutation_singleton_r. rewrite (rangeOrder_perm k _).
  by rewrite map_to_list_singleton.
Qed.

Lemma remapTextReferences_empty k text : remapTextReferences k text ∅ = text.
Proof. unfold remapTextReferences. by rewrite rangeOrder_empty. Qed.

Lemma remapTextReferences_singleton k text old new :
  remapTextReferences k text {[old := new]} = strings.ReplaceAll text old new.
Proof. unfold remapTextReferences. by rewrite rangeOrder_singleton. Qed.


(** ** Dependencies *)


Lemma remapDependency_miss (remapTable : gmap string string) dep :
  remapTable !! DependsOnID dep = None -> remapDependency remapTable dep = dep.
Proof. unfold remapDependency. by intros ->. Qed.

Lemma remapDependencies_empty deps : remapDependencies ∅ deps = deps.
Proof.
  unfold remapDependencies. induction deps as [|d deps IH]; [done|].
  simpl. rewrite IH. by rewrite remapDependency_miss.
Qed.

(** ** The flag [modified] *)

Lemma modified_false (remapTable : gmap string string) i (issue : Issue Other) :
  modified remapTable i issue = false <->
  Forall (fun dep => remapTable !! DependsOnID dep = None) (Dependencies issue)
  /\ remapTextReferences (4 * i) (Description issue) remapTable = Description issue
  /\ remapTextReferences (4 * i + 1) (Design issue) remapTable = Design issue
  /\ remapTextReferences (4 * i + 2) (AcceptanceCriteria issue) remapTable
     = AcceptanceCriteria issue
  /\ remapTextReferences (4 * i + 3) (Notes issue) remapTable = Notes issue.
Proof.
  unfold modified. rewrite !orb_false_iff, !negb_false_iff, !String.eqb_eq.
  rewrite <- not_true_iff_false, existsb_exists, Forall_forall.
  split.
  - intros ((((Hd & ?) & ?) & ?) & ?). repeat split; try done.
    intros dep Hin. destruct (remapTable !! DependsOnID dep) eqn:E; [|done].
    exfalso. apply Hd. exists dep. split; [by apply list_elem_of_In|].
    apply bool_decide_eq_true. by rewrite E.
  - intros (Hd & ? & ? & ? & ?). repeat split; try done.
    intros (dep & Hin%list_elem_of_In & Hs). apply bool_decide_eq_true in Hs.
    rewrite (Hd dep Hin) in Hs.
    by destruct Hs.
Qed.

Lemma modified_empty i (issue : Issue Other) : modified ∅ i issue = false.
Proof.
  apply modified_false. rewrite !remapTextReferences_empty. repeat split; try done.
  apply Forall_forall. intros dep _. apply lookup_empty.
Qed.

Lemma outsideLine_empty i line : outsideLine ∅ i line = line.
Proof.
  unfold outsideLine. destruct (_ && _ && _ && _); [|done].
  destruct (Unmarshal _); [|done]. by rewrite modified_empty.
Qed.

End Rewriter.

(** * The file reconstructor *)

Section Reconstructor.

Context {Other : Type} `{!Runtime Other}.

Implicit Types (remapTable : gmap string string) (st : ApplyState).

(** The cases of [applyStep], by the kind of the line. *)
Lemma applyStep_open remapTable i st line :
  isOpen line = true ->
  applyStep remapTable i st line = mkApplyState (resolved st) true [].
Proof. unfold isOpen, applyStep. by intros ->. Qed.

Lemma applyStep_close remapTable i st line :
  isOpen line = false -> isClose line = true ->
  applyStep remapTable i st line
  = mkApplyState (resolved st ++ conflictLines st) false [].
Proof. unfold isOpen, isClose, applyStep. by intros -> ->. Qed.

Lemma applyStep_divider remapTable i st line :
  isOpen line = false -> isClose line = false -> isDivider line = true ->
  applyStep remapTable i st line = st.
Proof. unfold isOpen, isClose, isDivider, applyStep. by intros -> -> ->. Qed.

Lemma applyStep_inside remapTable i st line :
  isMarker line = false -> inConflict st = true ->
  applyStep remapTable i st line
  = mkApplyState (resolved st) true (conflictLines st ++ insideLine remapTable i line).
Proof.
  unfold isMarker, isOpen, isClose, isDivider, applyStep.
  intros [[-> ->]%orb_false_elim ->]%orb_false_elim. by intros ->.
Qed.

Lemma applyStep_outside remapTable i st line :
  isMarker line = false -> inConflict st = false ->
  applyStep remapTable i st line
  = mkApplyState (resolved st ++ [outsideLine remapTable i line]) false (conflictLines st).
Proof.
  unfold isMarker, isOpen, isClose, isDivider, applyStep.
  intros [[-> ->]%orb_false_elim ->]%orb_false_elim. by intros ->.
Qed.

Lemma applyLoop_app remapTable i st l1 l2 :
  applyLoop remapTable i st (l1 ++ l2)
  = applyLoop remapTable (i + length l1) (applyLoop remapTable i st l1) l2.
Proof.
  revert i st. induction l1 as [|l l1 IH]; intros i st; simpl.
  - by rewrite Nat.add_0_r.
  - rewrite IH. f_equal. lia.
Qed.

(** Outside a conflict the buffer of conflict lines is empty. *)
Lemma applyStep_clean remapTable i st line :
  clean st -> clean (applyStep remapTable i st line).
Proof.
  unfold clean, applyStep. intros Hst.
  repeat (destruct (strings.HasPrefix _ _); simpl; [done|]).
  destruct (inConflict st); [done|]. simpl. auto.
Qed.

Lemma applyLoop_clean remapTable i st lines :
  clean st -> clean (applyLoop remapTable i st lines).
Proof.
  revert i st. induction lines as [|l ls IH]; intros i st Hst; simpl; [done|].
  by apply IH, applyStep_clean.
Qed.

(** What has been emitted stays emitted. *)
Lemma applyStep_resolved_prefix remapTable i st line :
  resolved st `prefix_of` resolved (applyStep remapTable i st line).
Proof.
  unfold applyStep.
  repeat (destruct (strings.HasPrefix _ _); simpl; [try done; by apply prefix_app_r|]).
  destruct (inConflict st); simpl; [done|by apply prefix_app_r].
Qed.

Lemma applyLoop_resolved_prefix remapTable i st lines :
  resolved st `prefix_of` resolved (applyLoop remapTable i st lines).
Proof.
  revert i st. induction lines as [|l ls IH]; intros i st; simpl; [done|].
  etrans; [apply applyStep_resolved_prefix|apply IH].
Qed.

(** Lines outside a conflict, none of them a marker. *)
Lemma applyLoop_outside remapTable i st lines :
  Forall (fun l => isMarker l = false) lines -> inConflict st = false ->
  applyLoop remapTable i st lines
  = mkApplyState (resolved st ++ outsideLines remapTable i lines) false (conflictLines st).
Proof.
  revert i st. induction lines as [|l ls IH]; intros i st Hall Hout.
  - simpl. rewrite app_nil_r. destruct st; simpl in *; by subst.
  - inversion Hall; subst. simpl. rewrite applyStep_outside by done.
    rewrite IH by done. simpl. by rewrite <- app_assoc.
Qed.

(** Lines inside a conflict, none of them a marker. *)
Lemma applyLoop_inside remapTable i st lines :
  Forall (fun l => isMarker l = false) lines -> inConflict st = true ->
  applyLoop remapTable i st lines
  = mkApplyState (resolved st) true (conflictLines st ++ insideLines remapTable i lines).
Proof.
  revert i st. induction lines as [|l ls IH]; intros i st Hall Hin.
  - simpl. rewrite app_nil_r. destruct st; simpl in *; by subst.
  - inversion Hall; subst. simpl. rewrite applyStep_inside by done.
    rewrite IH by done. simpl. by rewrite <- app_assoc.
Qed.

(** Inside a conflict that is never closed nothing is emitted. *)
Lemma applyLoop_unclosed remapTable i st lines :
  Forall (fun l => isClose l = false) lines -> inConflict st = true ->
  resolved (applyLoop remapTable i st lines) = resolved st
  /\ inConflict (applyLoop remapTable i st lines) = true.
Proof.
  revert i st. induction lines as [|l ls IH]; intros i st Hall Hin; [done|].
  inversion Hall as [|? ? Hl Hls]; subst. simpl.
  assert (resolved (applyStep remapTable i st l) = resolved st
          /\ inConflict (applyStep remapTable i st l) = true) as [Hr Hc].
  { unfold applyStep. unfold isClose in Hl. rewrite Hl.
    destruct (strings.HasPrefix _ "<<<<<<<"); [done|].
    destruct (strings.HasPrefix _ "======="); [done|]. by rewrite Hin. }
  destruct (IH (S i) _ Hls Hc) as [Hr' Hc']. by rewrite Hr', Hr.
Qed.

Lemma open_is_marker line : isOpen line = true -> isMarker line = true.
Proof. unfold isMarker. by intros ->. Qed.

Lemma open_is_not_close line : isOpen line = true -> isClose line = false.
Proof. apply open_not_close. Qed.

Lemma isMarker_false line :
  isMarker line = false ->
  isOpen line = false /\ isDivider line = false /\ isClose line = false.
Proof. unfold isMarker. by intros [[-> ->]%orb_false_elim ->]%orb_false_elim. Qed.

Lemma close_is_not_open line : isClose line = true -> isOpen line = false.
Proof. unfold isClose, isOpen. intros [t' ->]%HasPrefix_head. reflexivity. Qed.

Lemma divider_is_not_open line : isDivider line = true -> isOpen line = false.
Proof. unfold isDivider, isOpen. intros [t' ->]%HasPrefix_head. reflexivity. Qed.

Lemma divider_is_not_close line : isDivider line = true -> isClose line = false.
Proof. unfold isDivider, isClose. intros [t' ->]%HasPrefix_head. reflexivity. Qed.

(** A whole conflict region, its markers and the record lines of its two
    sides, is replaced by what its lines give, HEAD side first. *)
Lemma applyLoop_region remapTable i st openLine heads divider bases closeLine :
  isOpen openLine = true -> isDivider divider = true -> isClose closeLine = true ->
  Forall (fun l => isMarker l = false) heads ->
  Forall (fun l => isMarker l = false) bases ->
  applyLoop remapTable i st (openLine :: heads ++ divider :: bases ++ [closeLine])
  = mkApplyState
      (resolved st ++ insideLines remapTable (S i) heads
         ++ insideLines remapTable (S (S (i + length heads))) bases)
      false [].
Proof.
  intros Hopen Hdiv Hclose Hheads Hbases.
  cbn [applyLoop]. rewrite applyStep_open by done.
  rewrite applyLoop_app, (applyLoop_inside _ _ _ heads) by done.
  cbn [applyLoop resolved conflictLines].
  rewrite applyStep_divider
    by (try done; first [by apply divider_is_not_open|by apply divider_is_not_close]).
  rewrite applyLoop_app, (applyLoop_inside _ _ _ bases) by done.
  cbn [applyLoop resolved conflictLines].
  rewrite applyStep_close by (try done; by apply close_is_not_open).
  cbn [resolved conflictLines]. by rewrite app_nil_l.
Qed.

End Reconstructor.

(** * The claims *)

Section Claims.

Context {Other : Type} `{!Runtime Other}.

Local Abbreviation Issue := (Issue Other).
Local Abbreviation ConflictBlock := (ConflictBlock Other).
Local Abbreviation ScanState := (@ScanState Other).

(** ** The remap table *)

Lemma buildRemapTable_app r1 r2 :
  buildRemapTable (r1 ++ r2) = fold_left tableStep r2 (buildRemapTable r1).
Proof. unfold buildRemapTable. apply fold_left_app. Qed.

(** A key of the table stays one. *)
Lemma tableStep_keeps rs (t : gmap string string) old :
  is_Some (t !! old) -> is_Some (fold_left tableStep rs t !! old).
Proof.
  revert t. induction rs as [|res rs IH]; intros t Hin; [done|].
  simpl. apply IH. unfold tableStep. destruct (String.eqb _ _); [|done].
  rewrite lookup_insert. case_decide; [done|done].
Qed.

(** An entry of the table is there from the start or comes from a "remap"
    resolution. *)
Lemma tableStep_origin rs (t : gmap string string) old new :
  fold_left tableStep rs t !! old = Some new ->
  t !! old = Some new
  \/ exists res, res ∈ rs /\ Action res = "remap" /\ OldID res = old /\ NewID res = new.
Proof.
  revert t. induction rs as [|res rs IH]; intros t Hl; [by left|].
  simpl in Hl. apply IH in Hl as [Hl|(res' & Hin & ?)].
  - unfold tableStep in Hl. destruct (String.eqb_spec (Action res) "remap") as [Hact|];
      [|by left].
    rewrite lookup_insert in Hl. case_decide as Hk; [|by left].
    right. exists res. injection Hl as <-. repeat split; try done. by left.
  - right. exists res'. split; [by right|done].
Qed.

(** A "remap" resolution of the list gives its old id an entry. *)
Lemma tableStep_enters rs (t : gmap string string) res :
  res ∈ rs -> Action res = "remap" -> is_Some (fold_left tableStep rs t !! OldID res).
Proof.
  revert t. induction rs as [|r rs IH]; intros t Hin Hact; [by apply elem_of_nil in Hin|].
  simpl. apply elem_of_cons in Hin as [<-|Hin]; [|by apply IH].
  apply tableStep_keeps. unfold tableStep. rewrite Hact. simpl.
  rewrite lookup_insert_eq. done.
Qed.

(** ** C6 *)

(** C6. Within one resolution run the remap table is built monotonically:
    an entry [old -> new] made by the resolutions processed so far is
    still there, with the same new id, after the resolutions that follow,
    also when several of them remap the same old id. *)
Theorem C6_remap_table_monotone (store : Store Other) (cs : list ConflictBlock)
    (resolutions r1 r2 : list Resolution) (old new : string) :
  resolveConflictsMechanical store cs = Ok resolutions ->
  resolutions = r1 ++ r2 ->
  buildRemapTable r1 !! old = Some new ->
  buildRemapTable (r1 ++ r2) !! old = Some new.
Proof.
  intros Hrun -> Hold. apply resolve_freshOnly in Hrun.
  assert (Hnew : getNextAvailableID store = Ok new).
  { apply (tableStep_origin r1 ∅) in Hold as [Hold|(res & Hin & Hact & _ & <-)].
    - by rewrite lookup_empty in Hold.
    - apply Hrun; [|done]. apply elem_of_app. by left. }
  rewrite buildRemapTable_app.
  destruct (tableStep_keeps r2 (buildRemapTable r1) old) as [new' Hnew']; [by eexists|].
  rewrite Hnew'. f_equal.
  apply tableStep_origin in Hnew' as [Hnew'|(res & Hin & Hact & _ & <-)]; [congruence|].
  assert (getNextAvailableID store = Ok (NewID res)) as Hres.
  { apply Hrun; [|done]. apply elem_of_app. by right. }
  congruence.
Qed.

(** ** C7 *)

Lemma divider_not_open text : isDivider text = true -> isOpen text = false.
Proof.
  unfold isDivider, isOpen. intros [t' ->]%HasPrefix_head. reflexivity.
Qed.

Lemma divider_not_close text : isDivider text = true -> isClose text = false.
Proof.
  unfold isDivider, isClose. intros [t' ->]%HasPrefix_head. reflexivity.
Qed.

Lemma divider_not_blank text :
  isDivider text = true -> String.eqb (strings.TrimSpace text) "" = false.
Proof.
  unfold isDivider. intros [t' ->]%HasPrefix_head. reflexivity.
Qed.

(** C7 (amended). While scanning, a line switches the current region from
    the head side to the base side if and only if the scanner is inside a
    region and the trimmed line begins with the divider characters
    [=======]; a divider seen outside of any region changes nothing but
    the line counter of the scanner, and the reconstructor emits nothing
    for a divider line. *)
Theorem C7_divider_switch (st : ScanState) (text : string) :
  inHead st = true ->
  (inHead (scanStep st text) = false
   <-> scanInConflict st = true /\ isDivider text = true)
  /\ (scanInConflict st = false -> isDivider text = true ->
      scanStep st text
      = mkScanState (conflicts st) (current st) false (inHead st) (lineNum st + 1))
  /\ (forall remapTable i ast,
        isDivider text = true -> applyStep remapTable i ast text = ast).
Proof.
  intros Hhead. split; [|split].
  - unfold scanStep, isDivider.
    destruct (String.eqb (strings.TrimSpace text) "") eqn:Hempty.
    { apply String.eqb_eq in Hempty. rewrite Hempty. simpl. rewrite Hhead.
      split; [done|]. by intros [_ ?]. }
    destruct (strings.HasPrefix (strings.TrimSpace text) "<<<<<<<") eqn:Hopen.
    { rewrite (open_not_divider _ Hopen). simpl. split; [done|]. by intros [_ ?]. }
    destruct (strings.HasPrefix (strings.TrimSpace text) "=======") eqn:Hdiv.
    { destruct (scanInConflict st); simpl; [done|]. rewrite Hhead.
      split; [done|]. by intros [? _]. }
    assert (Hsame : forall s : ScanState,
               inHead s = inHead st -> inHead s = false <-> scanInConflict st = true /\ false = true).
    { intros s ->. rewrite Hhead. split; [done|]. by intros [_ ?]. }
    destruct (strings.HasPrefix (strings.TrimSpace text) ">>>>>>>").
    { apply Hsame. destruct (scanInConflict st); [|done]. by destruct (current st). }
    apply Hsame. destruct (_ && _ && _ && _); [|done].
    destruct (Unmarshal _); [|done]. by destruct (current st).
  - intros Hout Hdiv. unfold scanStep.
    rewrite (divider_not_blank _ Hdiv).
    pose proof (divider_not_open _ Hdiv) as Ho. unfold isOpen in Ho. rewrite Ho.
    unfold isDivider in Hdiv. rewrite Hdiv. simpl. by rewrite Hout.
  - intros remapTable i ast Hdiv. apply applyStep_divider; [|  |done].
    + by apply divider_not_open.
    + by apply divider_not_close.
Qed.

(** ** C8 *)

(** C8. If the identifier source fails while the resolutions are computed,
    the command stops with an error before it writes anything: the file is
    what it was and no resolution of the run is returned.  The resolver
    fails exactly by the failure of the identifier source, which it meets
    as soon as a BASE record has the id of a HEAD record. *)
Theorem C8_allocation_failure_aborts (store : Store Other) (cs : list ConflictBlock)
    (e : error) :
  resolveConflictsMechanical store cs = Err e ->
  (exists e0, getNextAvailableID store = Err e0 /\ e = ErrNextID e0)
  /\ forall auto dryRun content,
       detectConflicts content = (cs, None) ->
       snd (resolveConflictsCmd auto dryRun store content) = content
       /\ (auto || dryRun = true ->
           resolveConflictsCmd auto dryRun store content = (ResolveFailed e, content)
           /\ exitCode (ResolveFailed e : @Outcome Other) = 1).
Proof.
  intros Hres. destruct (resolve_Err _ _ _ Hres) as [Hne Hsrc]. split; [done|].
  intros auto dryRun content Hdet. unfold resolveConflictsCmd. rewrite Hdet, Hres.
  destruct cs as [|c cs]; [done|]. simpl.
  destruct auto, dryRun; simpl; split; try done; by intros.
Qed.

(** ** C9 *)

(** C9. On a file with no conflict-marker line, detection returns no
    conflict region, the command leaves the file as it is whatever its
    flags, and so does the resolve-and-apply pipeline itself: it has
    nothing to resolve, and [applyResolutions] writes back every byte. *)
Theorem C9_no_markers_noop (content : string) :
  noMarkers content ->
  fst (detectConflicts content) = []
  /\ (forall auto dryRun store,
        snd (resolveConflictsCmd auto dryRun store content) = content)
  /\ (forall store,
        resolveConflictsMechanical store (fst (detectConflicts content)) = Ok [])
  /\ applyResolutions content [] = content.
Proof.
  intros Hno. unfold noMarkers in Hno.
  assert (Hdet : fst (detectConflicts content) = []).
  { destruct (detectConflicts_lines content) as [->| ->]; [done|]. simpl.
    rewrite scanLoop_conflicts; [done|].
    eapply Forall_impl; [exact Hno|]. intros l Hl. by apply isMarker_false in Hl as (_ & _ & ?). }
  split; [done|]. split; [|split].
  - intros auto dryRun store. unfold resolveConflictsCmd.
    destruct (detectConflicts content) as [cs [e|]]; [done|]. simpl in Hdet. by subst cs.
  - intros store. by rewrite Hdet.
  - unfold applyResolutions. change (buildRemapTable []) with (∅ : gmap string string).
    change (strings.Split content NL) with (fileLines content).
    rewrite applyLoop_outside by done. simpl.
    assert (Hid : forall i ls, outsideLines ∅ i ls = ls).
    { intros i ls. revert i. induction ls as [|l ls IH]; intros i; [done|].
      simpl. by rewrite outsideLine_empty, IH. }
    rewrite Hid. apply Join_Split.
Qed.

(** ** C10 *)

(** C10. When a conflict-open marker has no close marker after it, the
    scanner reports no region for it, only the regions sealed before it,
    and the reconstructor writes nothing for the marker and the lines that
    follow it to the end of the file: the rewritten file is what the lines
    before the marker give. *)
Theorem C10_unterminated_region_dropped (content : string) (pre rest : list string)
    (openLine : string) :
  fileLines content = pre ++ openLine :: rest ->
  isOpen openLine = true ->
  Forall (fun l => isClose l = false) rest ->
  (forall c, c ∈ fst (detectConflicts content) -> c ∈ conflicts (scanLoop scanInit pre))
  /\ forall resolutions,
       applyResolutions content resolutions
       = strings.Join
           (resolved (applyLoop (buildRemapTable resolutions) 0 applyInit pre))
           (String NL "").
Proof.
  intros Hlines Hopen Hrest. split.
  - destruct (detectConflicts_lines content) as [->| ->]; simpl.
    { intros c Hc. by apply elem_of_nil in Hc. }
    rewrite Hlines, scanLoop_app, scanLoop_conflicts; [done|].
    constructor; [by apply open_is_not_close|done].
  - intros resolutions. unfold applyResolutions.
    change (strings.Split content NL) with (fileLines content).
    rewrite Hlines, applyLoop_app. cbn [applyLoop].
    rewrite applyStep_open by done.
    match goal with
    | |- context [applyLoop ?t ?i ?st rest] =>
      destruct (applyLoop_unclosed t i st rest Hrest eq_refl) as [-> _]
    end.
    done.
Qed.

(** ** C3 *)

Lemma insideLine_record remapTable i line (issue : Issue) :
  Unmarshal (strings.TrimSpace line) = Some issue ->
  strings.TrimSpace line <> "" ->
  insideLine remapTable i line = [Marshal (resolveInside remapTable i issue)].
Proof.
  intros Hparse Hne. unfold insideLine.
  destruct (String.eqb_spec (strings.TrimSpace line) ""); [done|]. simpl.
  by rewrite Hparse.
Qed.

Lemma outsideLine_record remapTable i line (issue : Issue) :
  Unmarshal (strings.TrimSpace line) = Some issue ->
  candidate line = true ->
  outsideLine remapTable i line
  = if modified remapTable i issue
    then Marshal (resolveOutside remapTable i issue) else line.
Proof.
  intros Hparse Hc. unfold outsideLine. unfold candidate in Hc. rewrite Hc.
  by rewrite Hparse.
Qed.

Lemma outsideLine_other remapTable i line :
  candidate line = false \/ Unmarshal (strings.TrimSpace line) = None ->
  outsideLine remapTable i line = line.
Proof.
  unfold outsideLine, candidate. intros [-> | Hnone]; [done|].
  destruct (_ && _ && _ && _); [|done]. by rewrite Hnone.
Qed.


(** ** C4 *)

(** C4 (amended). For a line met outside of every conflict region that is
    not itself a marker line, the reconstructor emits exactly one line, in
    place: the raw text of the line, byte for byte, unless the line is read
    as a record that has a dependency whose target is an old id of the
    remap table or a free-text field that the substitution changes, in
    which case it emits the re-serialized rewritten record.  A divider or a
    close marker met outside of a region is not emitted.  What has been
    emitted is never dropped afterwards. *)
Theorem C4_outside_lines (remapTable : gmap string string) (pre post : list string)
    (line : string) (st : ApplyState) :
  st = applyLoop remapTable 0 applyInit pre ->
  inConflict st = false ->
  isOpen line = false ->
  let i := length pre in
  let st' := applyStep remapTable i st line in
  resolved st'
  = resolved st ++ (if isMarker line then [] else [outsideLine remapTable i line])
  /\ inConflict st' = false
  /\ resolved st' `prefix_of`
       resolved (applyLoop remapTable 0 applyInit (pre ++ line :: post))
  /\ (candidate line = false \/ Unmarshal (strings.TrimSpace line) = None ->
      outsideLine remapTable i line = line)
  /\ (forall issue : Issue,
        Unmarshal (strings.TrimSpace line) = Some issue -> candidate line = true ->
        outsideLine remapTable i line
        = if modified remapTable i issue
          then Marshal (resolveOutside remapTable i issue) else line)
  /\ (forall issue : Issue,
        modified remapTable i issue = false <->
        Forall (fun dep => remapTable !! DependsOnID dep = None) (Dependencies issue)
        /\ remapTextReferences (4 * i) (Description issue) remapTable = Description issue
        /\ remapTextReferences (4 * i + 1) (Design issue) remapTable = Design issue
        /\ remapTextReferences (4 * i + 2) (AcceptanceCriteria issue) remapTable
           = AcceptanceCriteria issue
        /\ remapTextReferences (4 * i + 3) (Notes issue) remapTable = Notes issue).
Proof.
  intros Hst Hout Hopen i st'.
  assert (Hclean : conflictLines st = []).
  { subst st. by apply (applyLoop_clean remapTable 0 applyInit pre). }
  assert (Hstep : resolved st'
                  = resolved st ++ (if isMarker line then [] else [outsideLine remapTable i line])
                  /\ inConflict st' = false).
  { subst st'. destruct (isMarker line) eqn:Hm.
    - unfold isMarker in Hm. rewrite Hopen in Hm. simpl in Hm.
      destruct (isClose line) eqn:Hc.
      + rewrite applyStep_close by done. simpl. by rewrite Hclean.
      + rewrite orb_false_r in Hm. rewrite applyStep_divider by done.
        by rewrite app_nil_r.
    - by rewrite applyStep_outside. }
  destruct Hstep as [Hres Hin]. split_and!; try done.
  - replace (pre ++ line :: post) with ((pre ++ [line]) ++ post) by by rewrite <- app_assoc.
    rewrite applyLoop_app, applyLoop_app. simpl. rewrite <- Hst.
    apply applyLoop_resolved_prefix.
  - apply outsideLine_other.
  - intros issue. apply outsideLine_record.
  - intros issue. apply modified_false.
Qed.

(** ** C5 *)

(** C5 (amended). A record line that the engine re-serializes is written
    from the record it was decoded into, rewritten: the fields that the
    record type models and that the rewriting does not touch, the title
    and the fields the engine never reads (and, outside of a conflict, the
    id), are the original ones.  Nothing else of the original line is
    carried over: lines that decode into the same record are re-serialized
    to the same text, so a member that names no field of the record type
    is not preserved. *)
Theorem C5_reserialized_from_record (remapTable : gmap string string) (i : nat)
    (line : string) (issue : Issue) :
  Unmarshal (strings.TrimSpace line) = Some issue ->
  strings.TrimSpace line <> "" ->
  let inside := resolveInside remapTable i issue in
  let outside := resolveOutside remapTable i issue in
  (insideLine remapTable i line = [Marshal inside]
   /\ Title inside = Title issue /\ Rest inside = Rest issue)
  /\ (candidate line = true -> modified remapTable i issue = true ->
      outsideLine remapTable i line = Marshal outside)
  /\ (ID outside = ID issue /\ Title outside = Title issue /\ Rest outside = Rest issue)
  /\ (forall line',
        Unmarshal (strings.TrimSpace line') = Some issue ->
        strings.TrimSpace line' <> "" ->
        insideLine remapTable i line' = insideLine remapTable i line
        /\ (candidate line' = true -> candidate line = true ->
            modified remapTable i issue = true ->
            outsideLine remapTable i line' = outsideLine remapTable i line)).
Proof.
  intros Hparse Hne inside outside. split_and!; try done.
  - by apply insideLine_record.
  - intros Hc Hm. rewrite (outsideLine_record _ _ _ issue) by done. by rewrite Hm.
  - intros line' Hparse' Hne'. split.
    + by rewrite !(insideLine_record _ _ _ issue).
    + intros Hc' Hc Hm. rewrite !(outsideLine_record _ _ _ issue) by done. by rewrite Hm.
Qed.

(** ** C2 *)

(** The loop of [applyResolutions] keeps no track of the side of a
    record (it skips the divider): when an id is carried by a HEAD record
    and by a BASE record of the conflicts, the table maps it to the id
    that the identifier source returns, and every record of a conflict
    that carries the id, the HEAD record as well as the BASE record, is
    written with that id in its place. *)
Lemma colliding_id_renamed_on_both_sides (store : Store Other)
    (cs : list ConflictBlock) (resolutions : list Resolution) (id : string) :
  resolveConflictsMechanical store cs = Ok resolutions ->
  id ∈ headIDsOf cs ->
  id ∈ baseIDsOf cs ->
  exists fresh,
    getNextAvailableID store = Ok fresh
    /\ buildRemapTable resolutions !! id = Some fresh
    /\ forall i line (issue : Issue),
         Unmarshal (strings.TrimSpace line) = Some issue ->
         strings.TrimSpace line <> "" ->
         ID issue = id ->
         exists issue',
           insideLine (buildRemapTable resolutions) i line = [Marshal issue']
           /\ ID issue' = fresh /\ Title issue' = Title issue
           /\ Rest issue' = Rest issue.
Proof.
  intros Hrun Hh Hb.
  destruct (resolve_remaps _ _ _ _ Hrun Hh Hb) as (res & Hin & Hact & Hold).
  destruct (tableStep_enters resolutions ∅ res Hin Hact) as [fresh Hfresh].
  rewrite Hold in Hfresh. change (fold_left tableStep resolutions ∅)
    with (buildRemapTable resolutions) in Hfresh.
  exists fresh. split_and!; try done.
  - pose proof Hfresh as Hf.
    apply (tableStep_origin resolutions ∅) in Hf as [Hf|(res' & Hin' & Hact' & _ & <-)].
    + by rewrite lookup_empty in Hf.
    + by apply (resolve_freshOnly _ _ _ Hrun).
  - intros i line issue Hparse Hne Hid.
    exists (resolveInside (buildRemapTable resolutions) i issue). split_and!; try done.
    + by apply insideLine_record.
    + simpl. by rewrite Hid, Hfresh.
Qed.

End Claims.

(** * The claims on the sample inputs *)

(** ** C1 *)

(** C1 (the code on the failing inputs). In one run on the store whose
    highest number is 5, two BASE records collide with HEAD records, and
    both get the same "fresh" id, [bd-6]; and in a run on a file in which a
    HEAD record already has the id [bd-6], the colliding BASE record gets
    that id. *)
Theorem C1_colliding_records_share_fresh_id :
  resolveConflictsMechanical store5 [twoCollisions]
  = Ok [keepHead "bd-1"; keepHead "bd-2"; remap "bd-1" "bd-6"; remap "bd-2" "bd-6"]
  /\ freshIDs [keepHead "bd-1"; keepHead "bd-2"; remap "bd-1" "bd-6"; remap "bd-2" "bd-6"]
     = ["bd-6"; "bd-6"]
  /\ resolveConflictsMechanical store5 [takenCollision]
     = Ok [keepHead "bd-1"; keepHead "bd-6"; remap "bd-1" "bd-6"]
  /\ headIDsOf [takenCollision] = ["bd-1"; "bd-6"].
Proof. by vm_compute. Qed.

(** ** C2 *)

(** C2. The code breaks the claim: with [bd-1] on both sides of a
    conflict and a second HEAD record that refers to [bd-1], the resolver
    returns a "keep" for the HEAD record [bd-1], and yet the command run
    with [--auto] writes that record back with the id [bd-6]: no record
    of the file written has the id [bd-1] any more, and the references to
    [bd-1] of the other HEAD record are rewritten to [bd-6]. *)
Lemma C2_head_record_loses_id :
  json.Unmarshal headLine = Some (ours "bd-1")
  /\ json.Unmarshal headReference
     = Some (mkIssue "bd-7" "ours too" "blocked by bd-1" "" "" ""
               [mkDependency "bd-7" "bd-1" "blocks"] tt)
  /\ resolveConflictsMechanical store5 (fst (detectConflicts headReferenceFile))
     = Ok [keepHead "bd-1"; keepHead "bd-7"; remap "bd-1" "bd-6"]
  /\ map json.Unmarshal
       (fileLines (snd (resolveConflictsCmd true false store5 headReferenceFile)))
     = [Some (ours "bd-6");
        Some (mkIssue "bd-7" "ours too" "blocked by bd-6" "" "" ""
                [mkDependency "bd-7" "bd-6" "blocks"] tt);
        Some (theirs "bd-6")]
  /\ Forall (fun r => option_map ID r <> Some "bd-1")
       (map json.Unmarshal
          (fileLines (snd (resolveConflictsCmd true false store5 headReferenceFile)))).
Proof.
  split_and!; try by vm_compute.
  vm_compute. repeat constructor; discriminate.
Qed.

(** ** C3 *)



(** ** C4 *)

(** C4 fails as stated: a divider line that stands before the conflict of
    scenario B, outside of every region, is not in the rewritten file. *)
Lemma C4_stray_divider_dropped :
  fileLines strayDividerFile
  = ["======="; "<<<<<<< HEAD"; headLine; "======="; baseLine; ">>>>>>> feature"]
  /\ fileLines (snd (resolveConflictsCmd true false store5 strayDividerFile))
     = [json.Marshal (ours "bd-6"); json.Marshal (theirs "bd-6")]
  /\ Forall (fun line => line <> "=======")
       (fileLines (snd (resolveConflictsCmd true false store5 strayDividerFile))).
Proof.
  split_and!; try by vm_compute.
  vm_compute. repeat constructor; discriminate.
Qed.

Lemma C4_witness :
  applyInit = applyLoop {["bd-1" := "bd-6"]} 0 applyInit []
  /\ inConflict applyInit = false
  /\ isOpen outsideRecord = false
  /\ resolved (applyStep {["bd-1" := "bd-6"]} 0 applyInit outsideRecord)
     = [outsideLine {["bd-1" := "bd-6"]} 0 outsideRecord]
  /\ resolved (applyStep {["bd-1" := "bd-6"]} 0 applyInit "=======") = [].
Proof.
  assert (H3 : isOpen outsideRecord = false) by (by vm_compute).
  assert (H4 : isOpen "=======" = false) by (by vm_compute).
  split; [reflexivity|]. split; [reflexivity|]. split; [exact H3|]. split.
  - destruct (C4_outside_lines {["bd-1" := "bd-6"]} [] [] outsideRecord applyInit
                eq_refl eq_refl H3) as (-> & _).
    by vm_compute.
  - destruct (C4_outside_lines {["bd-1" := "bd-6"]} [] [] "=======" applyInit
                eq_refl eq_refl H4) as (-> & _).
    by vm_compute.
Defined.

(** ** C5 *)

(** C5 fails as stated: the member [x_custom] of a record in a conflict is
    not in the line that is written back for it. *)
Lemma C5_unknown_field_lost :
  json.parse customLine
  = Some (json.Object [("id", json.Str "bd-1"); ("title", json.Str "theirs");
                       ("x_custom", json.Str "keep me")])
  /\ map json.parse (fileLines (snd (resolveConflictsCmd true false store5 customFile)))
     = [Some (json.Object [("id", json.Str "bd-6"); ("title", json.Str "ours");
                           ("description", json.Str ""); ("design", json.Str "");
                           ("acceptance_criteria", json.Str ""); ("notes", json.Str "")]);
        Some (json.Object [("id", json.Str "bd-6"); ("title", json.Str "theirs");
                           ("description", json.Str ""); ("design", json.Str "");
                           ("acceptance_criteria", json.Str ""); ("notes", json.Str "")])].
Proof. by vm_compute. Qed.

Lemma C5_witness :
  json.Unmarshal (strings.TrimSpace customLine) = Some (theirs "bd-1")
  /\ strings.TrimSpace customLine <> ""
  /\ insideLine {["bd-1" := "bd-6"]} 0 customLine
     = insideLine {["bd-1" := "bd-6"]} 0 baseLine.
Proof.
  assert (H1 : Unmarshal (strings.TrimSpace customLine) = Some (theirs "bd-1"))
    by (by vm_compute).
  assert (H2 : strings.TrimSpace customLine <> "") by (by vm_compute).
  split; [exact H1|]. split; [exact H2|].
  destruct (C5_reserialized_from_record {["bd-1" := "bd-6"]} 0 customLine _ H1 H2)
    as (_ & _ & _ & Hsame).
  symmetry. apply Hsame; by vm_compute.
Defined.

(** ** C6 *)

Lemma C6_witness :
  resolveConflictsMechanical store5 [repeatedCollision]
  = Ok ([keepHead "bd-1"; remap "bd-1" "bd-6"] ++ [remap "bd-1" "bd-6"])
  /\ buildRemapTable [keepHead "bd-1"; remap "bd-1" "bd-6"] !! "bd-1" = Some "bd-6"
  /\ buildRemapTable ([keepHead "bd-1"; remap "bd-1" "bd-6"] ++ [remap "bd-1" "bd-6"])
     !! "bd-1" = Some "bd-6".
Proof.
  assert (H1 : resolveConflictsMechanical store5 [repeatedCollision]
               = Ok ([keepHead "bd-1"; remap "bd-1" "bd-6"] ++ [remap "bd-1" "bd-6"]))
    by (by vm_compute).
  assert (H2 : buildRemapTable [keepHead "bd-1"; remap "bd-1" "bd-6"] !! "bd-1"
               = Some "bd-6") by (by vm_compute).
  split; [exact H1|]. split; [exact H2|].
  exact (C6_remap_table_monotone store5 [repeatedCollision] _ _ _ "bd-1" "bd-6"
           H1 eq_refl H2).
Defined.

(** ** C7 *)

(** C7 fails as stated: inside a region, on the head side, a line that
    begins with the divider characters without being the marker switches
    the scanner to the base side. *)
Lemma C7_prefix_switches_side :
  scanInConflict (scanStep scanInit "<<<<<<< HEAD") = true
  /\ inHead (scanStep scanInit "<<<<<<< HEAD") = true
  /\ strings.TrimSpace "=======abc" <> "======="
  /\ inHead (scanStep (scanStep scanInit "<<<<<<< HEAD") "=======abc") = false.
Proof. by vm_compute. Qed.

Lemma C7_witness :
  inHead (scanStep (scanInit : @ScanState unit) "<<<<<<< HEAD") = true
  /\ (inHead (scanStep (scanStep scanInit "<<<<<<< HEAD") "=======") = false
      <-> scanInConflict (scanStep (scanInit : @ScanState unit) "<<<<<<< HEAD") = true
          /\ isDivider "=======" = true).
Proof.
  assert (H : inHead (scanStep (scanInit : @ScanState unit) "<<<<<<< HEAD") = true)
    by reflexivity.
  split; [exact H|].
  exact (proj1 (C7_divider_switch (scanStep scanInit "<<<<<<< HEAD") "=======" H)).
Defined.

(** ** C8 *)

Lemma C8_witness :
  resolveConflictsMechanical NilStore [collision] = Err (ErrNextID ErrStoreNotInitialized)
  /\ detectConflicts collisionFile = ([collision], None)
  /\ resolveConflictsCmd true false NilStore collisionFile
     = (ResolveFailed (ErrNextID ErrStoreNotInitialized), collisionFile).
Proof.
  assert (H1 : resolveConflictsMechanical NilStore [collision]
               = Err (ErrNextID ErrStoreNotInitialized)) by (by vm_compute).
  assert (H2 : detectConflicts collisionFile = ([collision], None)) by (by vm_compute).
  split; [exact H1|]. split; [exact H2|].
  destruct (C8_allocation_failure_aborts NilStore [collision] _ H1) as [_ Hcmd].
  destruct (Hcmd true false collisionFile H2) as [_ Hfail].
  exact (proj1 (Hfail eq_refl)).
Defined.

(** ** C9 *)

Lemma C9_witness :
  noMarkers plainFile
  /\ fst (detectConflicts plainFile) = []
  /\ applyResolutions plainFile [] = plainFile.
Proof.
  assert (H : noMarkers plainFile).
  { unfold noMarkers. repeat constructor. }
  split; [exact H|].
  destruct (C9_no_markers_noop plainFile H) as (H1 & _ & _ & H4). by split.
Defined.

(** ** C10 *)

Lemma C10_witness :
  fileLines unterminatedFile
  = ["<<<<<<< HEAD"; headLine; "======="; baseLine; ">>>>>>> feature"; plainLine]
    ++ "<<<<<<< HEAD" :: [lostLine; "======="; plainLine]
  /\ isOpen "<<<<<<< HEAD" = true
  /\ Forall (fun l => isClose l = false) [lostLine; "======="; plainLine]
  /\ (forall c, c ∈ fst (detectConflicts unterminatedFile) ->
        c = mkConflictBlock [ours "bd-1"] [theirs "bd-1"] 1 5)
  /\ applyResolutions unterminatedFile [keepHead "bd-1"; remap "bd-1" "bd-6"]
     = fileOf [json.Marshal (ours "bd-6"); json.Marshal (theirs "bd-6"); plainLine].
Proof.
  assert (H1 : fileLines unterminatedFile
               = ["<<<<<<< HEAD"; headLine; "======="; baseLine; ">>>>>>> feature";
                  plainLine]
                 ++ "<<<<<<< HEAD" :: [lostLine; "======="; plainLine]) by (by vm_compute).
  assert (H2 : isOpen "<<<<<<< HEAD" = true) by reflexivity.
  assert (H3 : Forall (fun l => isClose l = false) [lostLine; "======="; plainLine])
    by (repeat constructor).
  split; [exact H1|]. split; [exact H2|]. split; [exact H3|].
  destruct (C10_unterminated_region_dropped unterminatedFile _ _ _ H1 H2 H3)
    as [Hscan Happly].
  split.
  - intros c Hc. apply Hscan in Hc. vm_compute in Hc.
    by apply list_elem_of_singleton in Hc.
  - rewrite Happly. by vm_compute.
Defined.

(** * The conflict scanner: the blocks it reports *)

Section ScannerRegions.

Context {Other : Type} `{!Runtime Other}.

Local Abbreviation ScanState := (@ScanState Other).
Local Abbreviation ConflictBlock := (ConflictBlock Other).

Ltac step_cases text :=
  unfold scanStep, isOpen, isDivider, isClose in *;
  destruct (String.eqb (strings.TrimSpace text) "") eqn:Hempty;
  [ apply String.eqb_eq in Hempty; try rewrite Hempty in *
  | destruct (strings.HasPrefix (strings.TrimSpace text) "<<<<<<<") eqn:Hopen;
    [ | destruct (strings.HasPrefix (strings.TrimSpace text) "=======") eqn:Hdiv;
        [ | destruct (strings.HasPrefix (strings.TrimSpace text) ">>>>>>>") eqn:Hclose ] ] ].

(** Every token is counted, whatever it holds. *)
Lemma scanStep_lineNum (st : ScanState) text :
  lineNum (scanStep st text) = lineNum st + 1.
Proof.
  step_cases text; simpl; try done.
  - by destruct (scanInConflict st).
  - destruct (scanInConflict st); [|done]. by destruct (current st).
  - destruct (scanInConflict st && _ && _ && _); [|done].
    destruct (Unmarshal _); [|done]. by destruct (current st).
Qed.

Lemma scanLoop_lineNum (st : ScanState) lines :
  lineNum (scanLoop st lines) = lineNum st + Z.of_nat (length lines).
Proof.
  unfold scanLoop. revert st. induction lines as [|l ls IH]; intros st; simpl; [lia|].
  rewrite IH, scanStep_lineNum. lia.
Qed.

Lemma regionsWithin_weaken lo (cs : list ConflictBlock) hi hi' :
  hi <= hi' -> regionsWithin lo cs hi = true -> regionsWithin lo cs hi' = true.
Proof.
  intros Hle. revert lo. induction cs as [|c cs IH]; intros lo; simpl.
  - intros H1%Z.leb_le. apply Z.leb_le. lia.
  - intros [[H1 H2]%andb_prop H3]%andb_prop. rewrite H1, H2. simpl. by apply IH.
Qed.

Lemma regionsWithin_snoc lo (cs : list ConflictBlock) c hi :
  regionsWithin lo cs (LineStart c - 1) = true ->
  LineStart c < LineEnd c -> LineEnd c <= hi ->
  regionsWithin lo (cs ++ [c]) hi = true.
Proof.
  intros Hcs Hc Hhi. revert lo Hcs. induction cs as [|c' cs IH]; intros lo; simpl.
  - intros H1%Z.leb_le. rewrite !andb_true_iff, !Z.ltb_lt, Z.leb_le. lia.
  - intros [[H1 H2]%andb_prop H3]%andb_prop. rewrite H1, H2. simpl. by apply IH.
Qed.

Lemma scanOrdered_step (st : ScanState) text :
  scanOrdered st -> scanOrdered (scanStep st text).
Proof.
  unfold scanOrdered. intros Hinv.
  assert (Hnone : current st = None ->
                  regionsWithin 0 (conflicts st) (lineNum st + 1) = true).
  { intros E. rewrite E in Hinv. eapply regionsWithin_weaken; [|done]. lia. }
  assert (Hsome : forall c, current st = Some c ->
                  regionsWithin 0 (conflicts st) (LineStart c - 1) = true
                  /\ LineStart c <= lineNum st + 1).
  { intros c E. rewrite E in Hinv. destruct Hinv. split; [done|lia]. }
  assert (Hsame : match current st with
                  | Some c => regionsWithin 0 (conflicts st) (LineStart c - 1) = true
                              /\ LineStart c <= lineNum st + 1
                  | None => regionsWithin 0 (conflicts st) (lineNum st + 1) = true
                  end).
  { destruct (current st) eqn:E; [by apply Hsome|by apply Hnone]. }
  step_cases text; simpl; try done.
  - split; [|lia]. replace (lineNum st + 1 - 1) with (lineNum st) by lia.
    destruct (current st) as [c|] eqn:E.
    + destruct Hinv. eapply regionsWithin_weaken; [|done]. lia.
    + done.
  - by destruct (scanInConflict st).
  - destruct (scanInConflict st); [|done].
    destruct (current st) as [c|] eqn:E; simpl; [|done].
    destruct Hsame. apply regionsWithin_snoc; simpl; [done|lia|lia].
  - destruct (scanInConflict st && _ && _ && _); [|done].
    destruct (Unmarshal _); [|done].
    destruct (current st) as [c|] eqn:E; simpl; [|done].
    destruct Hsame. by destruct (inHead st).
Qed.

Lemma scanOrdered_loop (st : ScanState) lines :
  scanOrdered st -> scanOrdered (scanLoop st lines).
Proof.
  unfold scanLoop. revert st. induction lines as [|l ls IH]; intros st Hst; [done|].
  simpl. by apply IH, scanOrdered_step.
Qed.

(** The line scanner gives up exactly when a line of the file is too long
    for its buffer. *)
Lemma scanTokens_ok segs :
  existsb (fun s => bufio.MaxScanTokenSize <=? Z.of_nat (String.length s)) segs = false ->
  bufio.scanTokens segs = (map bufio.dropCR segs, false).
Proof.
  induction segs as [|s segs IH]; simpl; [done|].
  intros [H1 H2]%orb_false_elim. rewrite H1, IH by done. done.
Qed.

Lemma scanTokens_stops segs :
  existsb (fun s => bufio.MaxScanTokenSize <=? Z.of_nat (String.length s)) segs = true ->
  snd (bufio.scanTokens segs) = true.
Proof.
  induction segs as [|s segs IH]; simpl; [done|].
  destruct (bufio.MaxScanTokenSize <=? _); simpl; [done|].
  intros H1. destruct (bufio.scanTokens segs). simpl. by apply IH.
Qed.

Lemma dropLastEmpty_tooLong segs :
  existsb (fun s => bufio.MaxScanTokenSize <=? Z.of_nat (String.length s))
          (bufio.dropLastEmpty segs)
  = existsb (fun s => bufio.MaxScanTokenSize <=? Z.of_nat (String.length s)) segs.
Proof.
  destruct (dropLastEmpty_spec segs) as [->|E]; [done|].
  rewrite E at 2. rewrite existsb_app. simpl. by rewrite !orb_false_r.
Qed.

Lemma detect_ok content :
  tooLong content = false ->
  detectConflicts content = (conflicts (scanLoop scanInit (fileLines content)), None).
Proof.
  intros Hlong. destruct (detectConflicts_lines content) as [E|E]; [|done].
  exfalso. revert E. unfold detectConflicts, bufio.ScanLines.
  rewrite scanTokens_ok; [done|]. by rewrite dropLastEmpty_tooLong.
Qed.

Lemma detect_stops content :
  tooLong content = true ->
  detectConflicts content = ([], Some (ErrReading ErrTooLong)).
Proof.
  intros Hlong. unfold detectConflicts, bufio.ScanLines.
  pose proof (scanTokens_stops (bufio.dropLastEmpty (strings.Split content NL))) as Hs.
  rewrite dropLastEmpty_tooLong in Hs. specialize (Hs Hlong).
  destruct (bufio.scanTokens _) as [toks e]. simpl in Hs. by subst e.
Qed.

(** ** Lines inside a conflict *)

Lemma marker_free_cases text :
  isMarker text = false ->
  strings.HasPrefix (strings.TrimSpace text) "<<<<<<<" = false
  /\ strings.HasPrefix (strings.TrimSpace text) "=======" = false
  /\ strings.HasPrefix (strings.TrimSpace text) ">>>>>>>" = false.
Proof. intros H0. by apply isMarker_false in H0. Qed.

(** A line that is not a marker, read on the HEAD side and on the BASE
    side of the conflict [c]. *)
Lemma scanStep_head_record (st : ScanState) c text :
  isMarker text = false ->
  scanInConflict st = true -> current st = Some c -> inHead st = true ->
  scanStep st text
  = mkScanState (conflicts st)
      (Some (mkConflictBlock (HeadIssues c ++ option_list (scanRecord text))
               (BaseIssues c) (LineStart c) (LineEnd c)))
      true true (lineNum st + 1).
Proof.
  intros (Ho & Hd & Hc)%marker_free_cases Hin Hcur Hhead.
  unfold scanStep, scanRecord, candidate. rewrite Ho, Hd, Hc, Hin, Hcur, Hhead. simpl.
  destruct c as [hs bs ls le]. simpl.
  destruct (String.eqb (strings.TrimSpace text) "") eqn:Hempty; simpl.
  { by rewrite app_nil_r. }
  destruct (negb _ && negb _ && negb _); simpl; [|by rewrite app_nil_r].
  destruct (Unmarshal _); simpl; [done|by rewrite app_nil_r].
Qed.

Lemma scanStep_base_record (st : ScanState) c text :
  isMarker text = false ->
  scanInConflict st = true -> current st = Some c -> inHead st = false ->
  scanStep st text
  = mkScanState (conflicts st)
      (Some (mkConflictBlock (HeadIssues c)
               (BaseIssues c ++ option_list (scanRecord text)) (LineStart c) (LineEnd c)))
      true false (lineNum st + 1).
Proof.
  intros (Ho & Hd & Hc)%marker_free_cases Hin Hcur Hhead.
  unfold scanStep, scanRecord, candidate. rewrite Ho, Hd, Hc, Hin, Hcur, Hhead. simpl.
  destruct c as [hs bs ls le]. simpl.
  destruct (String.eqb (strings.TrimSpace text) "") eqn:Hempty; simpl.
  { by rewrite app_nil_r. }
  destruct (negb _ && negb _ && negb _); simpl; [|by rewrite app_nil_r].
  destruct (Unmarshal _); simpl; [done|by rewrite app_nil_r].
Qed.

Lemma omap_option_list {A B : Type} (f : A -> option B) x l :
  omap f (x :: l) = option_list (f x) ++ omap f l.
Proof. simpl. by destruct (f x). Qed.

Lemma scanLoop_head_records (st : ScanState) c lines :
  Forall (fun l => isMarker l = false) lines ->
  scanInConflict st = true -> current st = Some c -> inHead st = true ->
  scanLoop st lines
  = mkScanState (conflicts st)
      (Some (mkConflictBlock (HeadIssues c ++ omap scanRecord lines)
               (BaseIssues c) (LineStart c) (LineEnd c)))
      true true (lineNum st + Z.of_nat (length lines)).
Proof.
  unfold scanLoop. intros Hall. revert st c.
  induction Hall as [|l ls Hl Hls IH]; intros st c Hin Hcur Hhead.
  - simpl. rewrite app_nil_r, Z.add_0_r. destruct st, c. simpl in *. by subst.
  - rewrite fold_left_cons, (scanStep_head_record st c) by done.
    erewrite IH; [|done..]. rewrite omap_option_list, app_assoc.
    cbn [conflicts HeadIssues BaseIssues LineStart LineEnd lineNum length].
    f_equal. lia.
Qed.

Lemma scanLoop_base_records (st : ScanState) c lines :
  Forall (fun l => isMarker l = false) lines ->
  scanInConflict st = true -> current st = Some c -> inHead st = false ->
  scanLoop st lines
  = mkScanState (conflicts st)
      (Some (mkConflictBlock (HeadIssues c)
               (BaseIssues c ++ omap scanRecord lines) (LineStart c) (LineEnd c)))
      true false (lineNum st + Z.of_nat (length lines)).
Proof.
  unfold scanLoop. intros Hall. revert st c.
  induction Hall as [|l ls Hl Hls IH]; intros st c Hin Hcur Hhead.
  - simpl. rewrite app_nil_r, Z.add_0_r. destruct st, c. simpl in *. by subst.
  - rewrite fold_left_cons, (scanStep_base_record st c) by done.
    erewrite IH; [|done..]. rewrite omap_option_list, app_assoc.
    cbn [conflicts HeadIssues BaseIssues LineStart LineEnd lineNum length].
    f_equal. lia.
Qed.

(** The three markers, as the scanning loop takes them. *)
Lemma scanStep_open (st : ScanState) text :
  isOpen text = true ->
  scanStep st text
  = mkScanState (conflicts st) (Some (mkConflictBlock [] [] (lineNum st + 1) 0))
      true true (lineNum st + 1).
Proof.
  intros Ho. step_cases text; try done.
Qed.

Lemma scanStep_divider (st : ScanState) text :
  isDivider text = true -> scanInConflict st = true ->
  scanStep st text
  = mkScanState (conflicts st) (current st) true false (lineNum st + 1).
Proof.
  intros Hd Hin. pose proof (divider_is_not_open _ Hd) as Ho.
  step_cases text; try done. by rewrite Hin.
Qed.

Lemma scanStep_close (st : ScanState) c text :
  isClose text = true -> scanInConflict st = true -> current st = Some c ->
  scanStep st text
  = mkScanState
      (conflicts st
         ++ [mkConflictBlock (HeadIssues c) (BaseIssues c) (LineStart c) (lineNum st + 1)])
      None false (inHead st) (lineNum st + 1).
Proof.
  intros Hc Hin Hcur. pose proof (close_is_not_open _ Hc) as Ho.
  pose proof (close_not_divider _ Hc) as Hd.
  step_cases text; try done. by rewrite Hin, Hcur.
Qed.

(** A conflict with its two sides, read from any state of the loop. *)
Ltac proj :=
  cbn [conflicts current scanInConflict inHead lineNum
       HeadIssues BaseIssues LineStart LineEnd app].

Lemma scanLoop_region (st : ScanState) openLine heads divider bases closeLine :
  isOpen openLine = true -> isDivider divider = true -> isClose closeLine = true ->
  Forall (fun l => isMarker l = false) heads ->
  Forall (fun l => isMarker l = false) bases ->
  scanLoop st (openLine :: heads ++ divider :: bases ++ [closeLine])
  = mkScanState
      (conflicts st
         ++ [mkConflictBlock (omap scanRecord heads) (omap scanRecord bases)
               (lineNum st + 1)
               (lineNum st + Z.of_nat (length heads) + Z.of_nat (length bases) + 3)])
      None false false
      (lineNum st + Z.of_nat (length heads) + Z.of_nat (length bases) + 3).
Proof.
  intros Ho Hd Hc Hheads Hbases.
  change (openLine :: heads ++ divider :: bases ++ [closeLine])
    with ([openLine] ++ heads ++ [divider] ++ bases ++ [closeLine]).
  rewrite !scanLoop_app.
  change (scanLoop st [openLine]) with (scanStep st openLine).
  rewrite scanStep_open by done.
  erewrite (scanLoop_head_records _ _ heads); [|done..]. proj.
  change (scanLoop ?s [divider]) with (scanStep s divider).
  rewrite scanStep_divider by done. proj.
  erewrite (scanLoop_base_records _ _ bases); [|done..]. proj.
  change (scanLoop ?s [closeLine]) with (scanStep s closeLine).
  erewrite scanStep_close; [|done..]. proj.
  by replace (lineNum st + 1 + Z.of_nat (length heads) + 1 + Z.of_nat (length bases) + 1)
    with (lineNum st + Z.of_nat (length heads) + Z.of_nat (length bases) + 3) by lia.
Qed.

(** A conflict without a divider: all its lines are read on the HEAD
    side. *)
Lemma scanLoop_region_undivided (st : ScanState) openLine heads closeLine :
  isOpen openLine = true -> isClose closeLine = true ->
  Forall (fun l => isMarker l = false) heads ->
  scanLoop st (openLine :: heads ++ [closeLine])
  = mkScanState
      (conflicts st
         ++ [mkConflictBlock (omap scanRecord heads) [] (lineNum st + 1)
               (lineNum st + Z.of_nat (length heads) + 2)])
      None false true (lineNum st + Z.of_nat (length heads) + 2).
Proof.
  intros Ho Hc Hheads.
  change (openLine :: heads ++ [closeLine]) with ([openLine] ++ heads ++ [closeLine]).
  rewrite !scanLoop_app.
  change (scanLoop st [openLine]) with (scanStep st openLine).
  rewrite scanStep_open by done.
  erewrite (scanLoop_head_records _ _ heads); [|done..]. proj.
  change (scanLoop ?s [closeLine]) with (scanStep s closeLine).
  erewrite scanStep_close; [|done..]. proj.
  by replace (lineNum st + 1 + Z.of_nat (length heads) + 1)
    with (lineNum st + Z.of_nat (length heads) + 2) by lia.
Qed.

End ScannerRegions.

Section ScannerProperties.

Context {Other : Type} `{!Runtime Other}.

Local Abbreviation ScanState := (@ScanState Other).
Local Abbreviation ConflictBlock := (ConflictBlock Other).

Ltac step_cases text :=
  unfold scanStep, isOpen, isDivider, isClose in *;
  destruct (String.eqb (strings.TrimSpace text) "") eqn:Hempty;
  [ apply String.eqb_eq in Hempty; try rewrite Hempty in *
  | destruct (strings.HasPrefix (strings.TrimSpace text) "<<<<<<<") eqn:Hopen;
    [ | destruct (strings.HasPrefix (strings.TrimSpace text) "=======") eqn:Hdiv;
        [ | destruct (strings.HasPrefix (strings.TrimSpace text) ">>>>>>>") eqn:Hclose ] ] ].

(** The loop opens a conflict only at an open marker and seals one only
    at a close marker. *)
Lemma scanStep_count_open (st : ScanState) text :
  (length (conflicts (scanStep st text)) + Nat.b2n (scanInConflict (scanStep st text))
   <= length (conflicts st) + Nat.b2n (scanInConflict st) + Nat.b2n (isOpen text))%nat.
Proof.
  step_cases text; simpl; try lia.
  - destruct (scanInConflict st); simpl; lia.
  - destruct (scanInConflict st); simpl; [|lia].
    destruct (current st); simpl; [|lia]. rewrite length_app. simpl. lia.
  - destruct (scanInConflict st && _ && _ && _); simpl; [|lia].
    destruct (Unmarshal _); simpl; [|lia]. destruct (current st); simpl; lia.
Qed.

Lemma scanStep_count_close (st : ScanState) text :
  (length (conflicts (scanStep st text))
   <= length (conflicts st) + Nat.b2n (isClose text))%nat.
Proof.
  destruct (isClose text) eqn:Hc.
  - step_cases text; simpl; try lia; try done;
      repeat match goal with
             | |- context [match ?x with _ => _ end] => destruct x; simpl
             end;
      rewrite ?length_app; simpl; lia.
  - rewrite scanStep_conflicts by done. simpl. lia.
Qed.

Lemma scanLoop_count (st : ScanState) lines :
  (length (conflicts (scanLoop st lines)) + Nat.b2n (scanInConflict (scanLoop st lines))
   <= length (conflicts st) + Nat.b2n (scanInConflict st)
      + length (List.filter isOpen lines))%nat
  /\ (length (conflicts (scanLoop st lines))
      <= length (conflicts st) + length (List.filter isClose lines))%nat.
Proof.
  unfold scanLoop. revert st. induction lines as [|l ls IH]; intros st.
  - simpl. lia.
  - rewrite fold_left_cons. destruct (IH (scanStep st l)) as [IH1 IH2].
    pose proof (scanStep_count_open st l). pose proof (scanStep_count_close st l).
    simpl List.filter. split.
    + destruct (isOpen l); simpl in *; lia.
    + destruct (isClose l); simpl in *; lia.
Qed.

(** Only an open marker and a close marker move the scanning loop into
    or out of a conflict. *)
Lemma scanStep_inConflict_keep (st : ScanState) text :
  isOpen text = false -> isClose text = false ->
  scanInConflict (scanStep st text) = scanInConflict st.
Proof.
  intros Ho Hc. step_cases text; simpl; try done.
  - by destruct (scanInConflict st).
  - destruct (scanInConflict st && _ && _ && _); [|done].
    destruct (Unmarshal _); [|done]. by destruct (current st).
Qed.

Lemma scanStep_close_outside (st : ScanState) text :
  isClose text = true -> scanInConflict st = false ->
  scanInConflict (scanStep st text) = false.
Proof.
  intros Hc Hin. pose proof (close_is_not_open _ Hc) as Ho.
  pose proof (close_not_divider _ Hc) as Hd.
  step_cases text; simpl; try done. by rewrite Hin.
Qed.

(** The two loops over the lines of the file, side by side. *)
Lemma lockstep_step (st : ScanState) remapTable i ast text :
  (scanInConflict st = true -> is_Some (current st)) ->
  scanInConflict st = inConflict ast ->
  scanInConflict (scanStep st text) = inConflict (applyStep remapTable i ast text).
Proof.
  intros Hcur Hsame.
  destruct (isOpen text) eqn:Ho.
  { by rewrite scanStep_open, applyStep_open. }
  destruct (isClose text) eqn:Hc.
  { rewrite applyStep_close by done. simpl.
    destruct (scanInConflict st) eqn:Hin.
    - destruct Hcur as [c Hc']; [done|]. by erewrite scanStep_close.
    - by apply scanStep_close_outside. }
  rewrite scanStep_inConflict_keep by done.
  destruct (isDivider text) eqn:Hd.
  { by rewrite applyStep_divider. }
  assert (Hm : isMarker text = false) by (unfold isMarker; by rewrite Ho, Hd, Hc).
  destruct (inConflict ast) eqn:Hin.
  - by rewrite applyStep_inside.
  - by rewrite applyStep_outside.
Qed.

Lemma lockstep_loop (st : ScanState) remapTable i ast lines :
  (scanInConflict st = true -> is_Some (current st)) ->
  scanInConflict st = inConflict ast ->
  scanInConflict (scanLoop st lines) = inConflict (applyLoop remapTable i ast lines).
Proof.
  unfold scanLoop. revert st i ast. induction lines as [|l ls IH]; intros st i ast Hcur Hsame.
  - done.
  - rewrite fold_left_cons. simpl applyLoop. apply IH.
    + by apply scan_current_set_step.
    + by apply lockstep_step.
Qed.

(** X1 ([detectConflicts]): the blocks reported are in the order of the
    file, with line numbers counted from 1: every block starts after the
    end of the block before it, ends after its own start, and ends within
    the lines of the file. *)
Theorem detect_regions_ordered (content : string) :
  regionsWithin 0 (fst (detectConflicts content))
    (Z.of_nat (length (fileLines content))) = true.
Proof.
  destruct (tooLong content) eqn:E.
  - rewrite detect_stops by done. simpl. apply Z.leb_le. lia.
  - rewrite detect_ok by done. simpl.
    pose proof (scanOrdered_loop scanInit (fileLines content)) as Hinv.
    unfold scanOrdered in Hinv. rewrite scanLoop_lineNum in Hinv. simpl in Hinv.
    specialize (Hinv eq_refl).
    destruct (current _) as [c|].
    + destruct Hinv. eapply regionsWithin_weaken; [|done]. lia.
    + done.
Qed.

(** X2 ([detectConflicts]): a file whose only close marker ends a conflict
    with an open marker, lines that are no markers, a divider and again
    lines that are no markers, gives one block: its HEAD issues are the
    records decoded from the lines before the divider, its BASE issues
    those from the lines after it, in order, and its line numbers are
    those of the two markers.  Open markers and dividers before the
    conflict change nothing. *)
Theorem detect_single_region (content : string) (pre heads bases post : list string)
    (openLine divider closeLine : string) :
  tooLong content = false ->
  fileLines content = pre ++ openLine :: heads ++ divider :: bases ++ closeLine :: post ->
  isOpen openLine = true -> isDivider divider = true -> isClose closeLine = true ->
  Forall (fun l => isMarker l = false) heads ->
  Forall (fun l => isMarker l = false) bases ->
  Forall (fun l => isClose l = false) pre ->
  Forall (fun l => isClose l = false) post ->
  detectConflicts content
  = ([mkConflictBlock (omap scanRecord heads) (omap scanRecord bases)
        (Z.of_nat (length pre) + 1)
        (Z.of_nat (length pre) + Z.of_nat (length heads) + Z.of_nat (length bases) + 3)],
     None).
Proof.
  intros Hlong Hlines Ho Hd Hc Hheads Hbases Hpre Hpost.
  rewrite detect_ok, Hlines by done. f_equal.
  replace (pre ++ openLine :: heads ++ divider :: bases ++ closeLine :: post)
    with (pre ++ (openLine :: heads ++ divider :: bases ++ [closeLine]) ++ post)
    by (repeat (progress (simpl; rewrite <- ?app_assoc)); reflexivity).
  rewrite !scanLoop_app, scanLoop_conflicts by done.
  rewrite scanLoop_region by done. simpl.
  rewrite scanLoop_conflicts, scanLoop_lineNum by done. done.
Qed.

(** X3 ([detectConflicts]): a conflict without a divider is reported with
    every record on the HEAD side and no BASE issue. *)
Theorem detect_region_without_divider (content : string) (pre heads post : list string)
    (openLine closeLine : string) :
  tooLong content = false ->
  fileLines content = pre ++ openLine :: heads ++ closeLine :: post ->
  isOpen openLine = true -> isClose closeLine = true ->
  Forall (fun l => isMarker l = false) heads ->
  Forall (fun l => isClose l = false) pre ->
  Forall (fun l => isClose l = false) post ->
  detectConflicts content
  = ([mkConflictBlock (omap scanRecord heads) []
        (Z.of_nat (length pre) + 1)
        (Z.of_nat (length pre) + Z.of_nat (length heads) + 2)],
     None).
Proof.
  intros Hlong Hlines Ho Hc Hheads Hpre Hpost.
  rewrite detect_ok, Hlines by done. f_equal.
  replace (pre ++ openLine :: heads ++ closeLine :: post)
    with (pre ++ (openLine :: heads ++ [closeLine]) ++ post)
    by (repeat (progress (simpl; rewrite <- ?app_assoc)); reflexivity).
  rewrite !scanLoop_app, scanLoop_conflicts by done.
  rewrite scanLoop_region_undivided by done. simpl.
  rewrite scanLoop_conflicts, scanLoop_lineNum by done. done.
Qed.

(** X4 ([detectConflicts]): there are at most as many blocks as the file
    has open markers, and at most as many as it has close markers. *)
Theorem detect_regions_bounded_by_markers (content : string) :
  (length (fst (detectConflicts content))
   <= length (List.filter isOpen (fileLines content)))%nat
  /\ (length (fst (detectConflicts content))
      <= length (List.filter isClose (fileLines content)))%nat.
Proof.
  destruct (tooLong content) eqn:E.
  - rewrite detect_stops by done. simpl. lia.
  - rewrite detect_ok by done. simpl.
    destruct (scanLoop_count scanInit (fileLines content)) as [H1 H2].
    simpl in H1, H2. lia.
Qed.

(** X5 ([detectConflicts], [applyResolutions]): after any number of lines
    the scanning loop, on the tokens of the line scanner, and the
    reconstruction loop, on the lines themselves, are both inside a
    conflict or both outside: the lines that the reconstructor replaces
    are those that the scanner reads as part of a conflict. *)
Theorem scan_apply_lockstep (remapTable : gmap string string) (lines : list string) :
  scanInConflict (scanLoop scanInit (map bufio.dropCR lines))
  = inConflict (applyLoop remapTable 0 applyInit lines).
Proof.
  rewrite scanLoop_dropCR. by apply lockstep_loop.
Qed.

(** X6 ([detectConflicts]): detection fails if and only if a line of the
    file has [bufio.MaxScanTokenSize] bytes or more; it then reports no
    block at all, also when conflicts precede that line. *)
Theorem detect_too_long_iff (content : string) :
  (snd (detectConflicts content) <> None <-> tooLong content = true)
  /\ (snd (detectConflicts content) <> None ->
      detectConflicts content = ([], Some (ErrReading ErrTooLong))).
Proof.
  destruct (tooLong content) eqn:E.
  - rewrite detect_stops by done. by split.
  - rewrite detect_ok by done. simpl. split; [split|]; done.
Qed.

End ScannerProperties.

Lemma detect_single_region_witness :
  tooLong collisionFile = false
  /\ fileLines collisionFile
     = [outsideRecord] ++ "<<<<<<< HEAD" :: [headLine] ++ "=======" :: [baseLine]
       ++ ">>>>>>> feature" :: [""]
  /\ detectConflicts collisionFile = ([collision], None).
Proof.
  assert (H1 : tooLong collisionFile = false) by (by vm_compute).
  assert (H2 : fileLines collisionFile
               = [outsideRecord] ++ "<<<<<<< HEAD" :: [headLine] ++ "=======" :: [baseLine]
                 ++ ">>>>>>> feature" :: [""]) by (by vm_compute).
  split; [exact H1|]. split; [exact H2|].
  rewrite (detect_single_region collisionFile [outsideRecord] [headLine] [baseLine] [""]
             "<<<<<<< HEAD" "=======" ">>>>>>> feature" H1 H2);
    [by vm_compute|reflexivity|reflexivity|reflexivity|repeat constructor..].
Defined.

Lemma detect_region_without_divider_witness :
  tooLong undividedFile = false
  /\ fileLines undividedFile
     = [plainLine] ++ "<<<<<<< HEAD" :: [headLine; baseLine] ++ ">>>>>>> feature" :: []
  /\ detectConflicts undividedFile
     = ([mkConflictBlock [ours "bd-1"; theirs "bd-1"] [] 2 5], None).
Proof.
  assert (H1 : tooLong undividedFile = false) by (by vm_compute).
  assert (H2 : fileLines undividedFile
               = [plainLine] ++ "<<<<<<< HEAD" :: [headLine; baseLine]
                 ++ ">>>>>>> feature" :: []) by (by vm_compute).
  split; [exact H1|]. split; [exact H2|].
  rewrite (detect_region_without_divider undividedFile [plainLine] [headLine; baseLine] []
             "<<<<<<< HEAD" ">>>>>>> feature" H1 H2);
    [by vm_compute|reflexivity|reflexivity|repeat constructor..].
Defined.

(** * The collision resolver: the resolutions it returns *)

Section ResolverProperties.

Context {Other : Type} `{!Runtime Other}.

Local Abbreviation Issue := (Issue Other).
Local Abbreviation ConflictBlock := (ConflictBlock Other).

(** On the BASE side every record gets one resolution: it is kept, or it
    is remapped to the id that the identifier source returns. *)
Lemma basePass_structure store (issues : list Issue) ids rs ids' rs' :
  fold_left (baseStep store) issues (Ok (ids, rs)) = Ok (ids', rs') ->
  exists rsB,
    rs' = rs ++ rsB
    /\ Forall2 (fun id res =>
                  res = keepBase id
                  \/ exists new, getNextAvailableID store = Ok new /\ res = remap id new)
               (map ID issues) rsB.
Proof.
  revert ids rs. induction issues as [|i issues IH]; intros ids rs.
  - intros [= <- <-]. exists []. split; [by rewrite app_nil_r|constructor].
  - rewrite fold_left_cons. unfold baseStep at 2. case_bool_decide as Hc.
    + destruct (getNextAvailableID store) as [new|e0] eqn:Hid;
        [|by rewrite baseStep_Err].
      intros (rsB & -> & HrsB)%IH. exists (remap (ID i) new :: rsB).
      split; [by rewrite <- app_assoc|]. constructor; [|done]. right. by exists new.
    + intros (rsB & -> & HrsB)%IH. exists (keepBase (ID i) :: rsB).
      split; [by rewrite <- app_assoc|]. constructor; [by left|done].
Qed.

Lemma resolve_heads_then_bases store (cs : list ConflictBlock) rs :
  resolveConflictsMechanical store cs = Ok rs ->
  exists rsB,
    rs = map keepHead (headIDsOf cs) ++ rsB
    /\ Forall2 (fun id res =>
                  res = keepBase id
                  \/ exists new, getNextAvailableID store = Ok new /\ res = remap id new)
               (baseIDsOf cs) rsB.
Proof.
  unfold resolveConflictsMechanical. rewrite headPass_flat, headPass_spec, basePass_flat.
  destruct (fold_left _ _ _) as [[ids' rs']|e] eqn:Hfold; [|done].
  intros [= <-]. apply basePass_structure in Hfold as (rsB & -> & HrsB).
  exists rsB. split; [|done]. unfold headIDsOf. by rewrite app_nil_l, map_map.
Qed.

(** When no id collides the identifier source is never called. *)
Lemma basePass_no_collision store (issues : list Issue) ids rs :
  NoDup (map ID issues) ->
  (forall id, id ∈ map ID issues -> id ∉ ids) ->
  exists ids',
    fold_left (baseStep store) issues (Ok (ids, rs))
    = Ok (ids', rs ++ map keepBase (map ID issues)).
Proof.
  revert ids rs. induction issues as [|i issues IH]; intros ids rs Hnd Hnew.
  - exists ids. simpl. by rewrite app_nil_r.
  - rewrite fold_left_cons. unfold baseStep at 2. simpl in Hnd, Hnew.
    apply NoDup_cons in Hnd as [Hi Hnd].
    rewrite bool_decide_eq_false_2 by (apply Hnew; by left).
    destruct (IH ({[ID i]} ∪ ids) (rs ++ [keepBase (ID i)]) Hnd) as [ids' ->].
    + intros id Hid [->%elem_of_singleton|Hin]%elem_of_union; [done|].
      by apply (Hnew id); [right|].
    + exists ids'. simpl. by rewrite <- app_assoc.
Qed.

Lemma collides_false (cs : list ConflictBlock) :
  collides cs = false <->
  NoDup (baseIDsOf cs) /\ forall id, id ∈ baseIDsOf cs -> id ∉ headIDsOf cs.
Proof.
  unfold collides. rewrite negb_false_iff, andb_true_iff, bool_decide_eq_true, forallb_forall.
  split; intros [Hnd Hall]; (split; [done|]).
  - intros id Hid%list_elem_of_In. apply Hall in Hid.
    by apply negb_true_iff, bool_decide_eq_false in Hid.
  - intros id Hid%list_elem_of_In. apply negb_true_iff, bool_decide_eq_false. by apply Hall.
Qed.

Lemma resolve_keeps_all store (cs : list ConflictBlock) :
  collides cs = false ->
  resolveConflictsMechanical store cs
  = Ok (map keepHead (headIDsOf cs) ++ map keepBase (baseIDsOf cs)).
Proof.
  intros [Hnd Hnew]%collides_false.
  unfold resolveConflictsMechanical. rewrite headPass_flat, headPass_spec, basePass_flat.
  edestruct (basePass_no_collision store (flat_map BaseIssues cs)) as [ids' ->]; [exact Hnd| |].
  - intros id Hid [Hin|Hin%elem_of_empty]%elem_of_union; [|done].
    apply elem_of_list_to_set in Hin. by apply (Hnew id).
  - unfold headIDsOf, baseIDsOf. cbn [app]. by rewrite !map_map.
Qed.

(** With a failing identifier source the first collision ends the loop. *)
Lemma basePass_fails store (issues : list Issue) ids rs e0 :
  getNextAvailableID store = Err e0 ->
  ~ (NoDup (map ID issues) /\ forall id, id ∈ map ID issues -> id ∉ ids) ->
  fold_left (baseStep store) issues (Ok (ids, rs)) = Err (ErrNextID e0).
Proof.
  intros Hid. revert ids rs. induction issues as [|i issues IH]; intros ids rs Hcol.
  - destruct Hcol. split; [constructor|]. by intros id Hin%elem_of_nil.
  - rewrite fold_left_cons. unfold baseStep at 2. rewrite Hid.
    case_bool_decide as Hc; [by rewrite baseStep_Err|].
    apply IH. intros [Hnd Hnew]. apply Hcol. simpl. split.
    + apply NoDup_cons. split; [|done]. intros Hin. apply (Hnew _ Hin).
      apply elem_of_union_l. by apply elem_of_singleton.
    + intros id [->|Hin]%elem_of_cons; [done|].
      intros Hids. apply (Hnew _ Hin). by apply elem_of_union_r.
Qed.

Lemma keeps_no_table (rs : list Resolution) (t : gmap string string) :
  Forall (fun res => Action res = "keep") rs -> fold_left tableStep rs t = t.
Proof.
  intros Hall. revert t. induction Hall as [|res rs Hres Hall IH]; intros t; [done|].
  simpl. rewrite IH. unfold tableStep. by rewrite Hres.
Qed.

(** With a failing identifier source a collision makes the resolver
    fail. *)
Lemma resolve_collision_fails (store : Store Other) (cs : list ConflictBlock) e0 :
  getNextAvailableID store = Err e0 -> collides cs = true ->
  resolveConflictsMechanical store cs = Err (ErrNextID e0).
Proof.
  intros Hid Hcol.
  unfold resolveConflictsMechanical. rewrite headPass_flat, headPass_spec, basePass_flat.
  rewrite (basePass_fails store _ _ _ e0); [done|done|].
  intros [Hnd Hnew]. assert (collides cs = false); [|congruence].
  apply collides_false. split; [done|]. intros id Hin Hhead. apply (Hnew id Hin).
  apply elem_of_union_l. by apply elem_of_list_to_set.
Qed.

(** The resolutions of a run are those that the report functions tell
    apart. *)
Lemma resolve_mechanical (store : Store Other) (cs : list ConflictBlock) rs :
  resolveConflictsMechanical store cs = Ok rs -> Forall mechanical rs.
Proof.
  intros (rsB & -> & HrsB)%resolve_heads_then_bases. apply Forall_app. split.
  - apply Forall_map, Forall_true. intros id. by left.
  - apply Forall_forall. intros res Hin. apply list_elem_of_lookup in Hin as [k Hk].
    destruct (Forall2_lookup_r _ _ _ _ _ HrsB Hk) as (id & _ & [->|(new & _ & ->)]);
      [by left|by right].
Qed.

(** X7 ([resolveConflictsMechanical]): the resolutions returned are one
    "keep" for every HEAD record of the blocks, in order, followed by one
    resolution for every BASE record, in order, which either keeps the
    record or remaps its id to the one that [getNextAvailableID] returns;
    the HEAD records are never remapped. *)
Theorem resolve_structure (store : Store Other) (cs : list ConflictBlock)
    (rs : list Resolution) :
  resolveConflictsMechanical store cs = Ok rs ->
  exists rsB,
    rs = map keepHead (headIDsOf cs) ++ rsB
    /\ length rs = (length (headIDsOf cs) + length (baseIDsOf cs))%nat
    /\ Forall2 (fun id res =>
                  res = keepBase id
                  \/ exists new, getNextAvailableID store = Ok new /\ res = remap id new)
               (baseIDsOf cs) rsB.
Proof.
  intros (rsB & -> & HrsB)%resolve_heads_then_bases. exists rsB.
  split; [done|]. split; [|done].
  rewrite length_app, length_map. f_equal. symmetry. by eapply Forall2_length.
Qed.

(** X8 ([resolveConflictsMechanical]): when no BASE record has the id of a
    HEAD record or of an earlier BASE record, every record is kept, with
    any store, also one that is not initialized or fails, and the remap
    table built from the resolutions is empty. *)
Theorem resolve_no_collision (store : Store Other) (cs : list ConflictBlock) :
  collides cs = false ->
  resolveConflictsMechanical store cs
  = Ok (map keepHead (headIDsOf cs) ++ map keepBase (baseIDsOf cs))
  /\ buildRemapTable (map keepHead (headIDsOf cs) ++ map keepBase (baseIDsOf cs)) = ∅.
Proof.
  intros Hcol. split; [by apply resolve_keeps_all|].
  apply keeps_no_table, Forall_app. split; by apply Forall_map, Forall_true.
Qed.

(** X9 ([resolveConflictsMechanical]): resolution fails if and only if the
    identifier source fails and some BASE record has the id of a HEAD
    record or of an earlier BASE record; the error is the error of the
    identifier source, wrapped. *)
Theorem resolve_fails_iff (store : Store Other) (cs : list ConflictBlock) (e : error) :
  resolveConflictsMechanical store cs = Err e
  <-> (exists e0, getNextAvailableID store = Err e0 /\ e = ErrNextID e0)
      /\ collides cs = true.
Proof.
  split.
  - intros Herr. split; [by apply resolve_Err in Herr as [_ ?]|].
    destruct (collides cs) eqn:Hcol; [done|].
    by rewrite resolve_keeps_all in Herr.
  - intros [(e0 & Hid & ->) Hcol]. by apply resolve_collision_fails.
Qed.

(** X10 ([resolveConflictsMechanical], [applyResolutions]): every entry
    of the remap table built from the resolutions of a run maps the id of
    a BASE record to the id that [getNextAvailableID] returns for the
    store, and there is an entry only if some id collides. *)
Theorem remap_table_entries (store : Store Other) (cs : list ConflictBlock)
    (rs : list Resolution) (old new : string) :
  resolveConflictsMechanical store cs = Ok rs ->
  buildRemapTable rs !! old = Some new ->
  old ∈ baseIDsOf cs /\ getNextAvailableID store = Ok new /\ collides cs = true.
Proof.
  intros Hres Htab.
  assert (Hcol : collides cs = true).
  { destruct (collides cs) eqn:Hcol; [done|].
    rewrite resolve_keeps_all in Hres by done. injection Hres as <-.
    unfold buildRemapTable in Htab. rewrite keeps_no_table in Htab; [done|].
    apply Forall_app. split; by apply Forall_map, Forall_true. }
  apply resolve_heads_then_bases in Hres as (rsB & -> & HrsB).
  apply tableStep_origin in Htab as [Htab|(res & Hin & Hact & <- & <-)]; [done|].
  apply elem_of_app in Hin as [Hin|Hin].
  { apply list_elem_of_fmap in Hin as (id & -> & _). done. }
  apply list_elem_of_lookup in Hin as [k Hk].
  destruct (Forall2_lookup_r _ _ _ _ _ HrsB Hk) as (id & Hid & [->|(new & Hnew & ->)]);
    [done|].
  simpl. split; [by eapply list_elem_of_lookup_2|done].
Qed.

End ResolverProperties.

Lemma resolve_structure_witness :
  resolveConflictsMechanical store5 [twoCollisions]
  = Ok [keepHead "bd-1"; keepHead "bd-2"; remap "bd-1" "bd-6"; remap "bd-2" "bd-6"]
  /\ exists rsB,
       [keepHead "bd-1"; keepHead "bd-2"; remap "bd-1" "bd-6"; remap "bd-2" "bd-6"]
       = map keepHead (headIDsOf [twoCollisions]) ++ rsB
       /\ length rsB = 2%nat.
Proof.
  assert (H1 : resolveConflictsMechanical store5 [twoCollisions]
               = Ok [keepHead "bd-1"; keepHead "bd-2"; remap "bd-1" "bd-6";
                     remap "bd-2" "bd-6"]) by (by vm_compute).
  split; [exact H1|].
  destruct (resolve_structure store5 [twoCollisions] _ H1) as (rsB & E & _ & HrsB).
  exists rsB. split; [exact E|]. symmetry. exact (Forall2_length _ _ _ HrsB).
Defined.

Lemma resolve_no_collision_witness :
  collides [distinctIDs] = false
  /\ resolveConflictsMechanical NilStore [distinctIDs]
     = Ok [keepHead "bd-1"; keepBase "bd-2"].
Proof.
  assert (H1 : collides [distinctIDs] = false) by (by vm_compute).
  split; [exact H1|].
  exact (proj1 (resolve_no_collision NilStore [distinctIDs] H1)).
Defined.

Lemma remap_table_entries_witness :
  resolveConflictsMechanical store5 [collision] = Ok [keepHead "bd-1"; remap "bd-1" "bd-6"]
  /\ buildRemapTable [keepHead "bd-1"; remap "bd-1" "bd-6"] !! "bd-1" = Some "bd-6"
  /\ "bd-1" ∈ baseIDsOf [collision]
  /\ getNextAvailableID store5 = Ok "bd-6".
Proof.
  assert (H1 : resolveConflictsMechanical store5 [collision]
               = Ok [keepHead "bd-1"; remap "bd-1" "bd-6"]) by (by vm_compute).
  assert (H2 : buildRemapTable [keepHead "bd-1"; remap "bd-1" "bd-6"] !! "bd-1"
               = Some "bd-6") by (by vm_compute).
  split; [exact H1|]. split; [exact H2|].
  destruct (remap_table_entries store5 [collision] _ _ _ H1 H2) as (H3 & H4 & _).
  by split.
Defined.

(** * The identifier source *)

From Stdlib Require Import DecimalPos.

Section Decimal.

(** [fmt.Sscanf] with [%d] reads back what [fmt.Sprintf] with [%d] wrote. *)
Lemma digits_of_uint d :
  fmt.digits (NilEmpty.string_of_uint d) = NilEmpty.string_of_uint d.
Proof. induction d; simpl; by rewrite ?IHd. Qed.

Lemma decimal_of_uint_acc d acc :
  fmt.decimal (Z.pos acc) (NilEmpty.string_of_uint d) = Z.pos (Pos.of_uint_acc d acc).
Proof.
  revert acc. induction d; intros acc; [done|..];
    cbn [NilEmpty.string_of_uint fmt.decimal Pos.of_uint_acc]; rewrite <- IHd; f_equal;
    match goal with
    | |- context [byteZ ?c] =>
      let v := eval vm_compute in (byteZ c) in change (byteZ c) with v
    end; lia.
Qed.

Lemma decimal_of_uint d :
  fmt.decimal 0 (NilEmpty.string_of_uint d) = Z.of_N (Pos.of_uint d).
Proof.
  induction d; [done|..]; cbn [NilEmpty.string_of_uint fmt.decimal Pos.of_uint];
    first [exact IHd|apply decimal_of_uint_acc].
Qed.

(** A text that starts with a digit is scanned from its first byte: its
    leading digits are the number. *)
Lemma Sscanf_d_digit c r :
  fmt.isDigit c = true ->
  fmt.Sscanf_d (String c r)
  = (let v := fmt.decimal 0 (fmt.digits (String c r)) in
     if (fmt.minInt64 <=? v) && (v <=? fmt.maxInt64) then Some v else None).
Proof.
  destruct c as [[] [] [] [] [] [] [] []]; intros Hd;
    first [by vm_compute in Hd|reflexivity].
Qed.

Lemma itoa_spec n :
  0 <= n ->
  exists c r, fmt.itoa n = String c r /\ fmt.isDigit c = true
              /\ fmt.digits (fmt.itoa n) = fmt.itoa n
              /\ fmt.decimal 0 (fmt.itoa n) = n.
Proof.
  intros Hn. unfold fmt.itoa. destruct n as [|p|p]; [by exists "0"%char, ""| |lia].
  simpl. pose proof (Unsigned.to_uint_nonnil p) as Hnil.
  pose proof (Unsigned.of_to p) as Hof.
  assert (E : NilZero.string_of_uint (Pos.to_uint p)
              = NilEmpty.string_of_uint (Pos.to_uint p)).
  { by destruct (Pos.to_uint p). }
  rewrite E, digits_of_uint, decimal_of_uint, Hof.
  destruct (Pos.to_uint p); [done|..]; by eexists _, _.
Qed.

Lemma Sscanf_d_itoa n :
  0 <= n <= fmt.maxInt64 -> fmt.Sscanf_d (fmt.itoa n) = Some n.
Proof.
  intros [Hn Hmax]. destruct (itoa_spec n Hn) as (c & r & E & Hc & Hds & Hv).
  rewrite E, Sscanf_d_digit by done. rewrite <- E, Hds, Hv. simpl.
  unfold fmt.minInt64, fmt.maxInt64 in *.
  rewrite (proj2 (Z.leb_le _ _)), (proj2 (Z.leb_le _ _)) by lia. done.
Qed.

Lemma Sscanf_d_range s v :
  fmt.Sscanf_d s = Some v -> fmt.minInt64 <= v <= fmt.maxInt64.
Proof.
  unfold fmt.Sscanf_d. destruct (fmt.SkipSpace _ _) as [s1|]; [|done].
  match goal with |- context [let '(_, _) := ?x in _] => destruct x as [neg s2] end.
  destruct (fmt.digits s2); [done|].
  destruct (_ && _) eqn:Hr; [|done]. intros [= <-].
  by apply andb_prop in Hr as [?%Z.leb_le ?%Z.leb_le].
Qed.

(** A text of digits has no hyphen. *)
Lemma Split_digits s : fmt.digits s = s -> strings.Split s "-" = [s].
Proof.
  induction s as [|c s IH]; [done|]. simpl.
  destruct (fmt.isDigit c) eqn:Hc; [|done]. intros [= Hs].
  destruct (Ascii.eqb_spec c "-") as [->|_]; [done|]. by rewrite IH.
Qed.

Lemma Split_app s t sep :
  strings.Split (s +:+ String sep t) sep = strings.Split s sep ++ strings.Split t sep.
Proof.
  induction s as [|c s IH].
  - rewrite append_nil. simpl. by rewrite Ascii.eqb_refl.
  - rewrite append_cons. simpl. rewrite IH.
    destruct (Ascii.eqb c sep); [done|].
    destruct (strings.Split s sep) eqn:E; [by apply Split_nonempty in E|done].
Qed.

Lemma wrap64_small z : fmt.minInt64 <= z <= fmt.maxInt64 -> wrap64 z = z.
Proof.
  unfold wrap64, fmt.minInt64, fmt.maxInt64. intros Hz.
  rewrite Z.mod_small; lia.
Qed.

End Decimal.

Section NextID.

Context {Other : Type} `{!Runtime Other}.

Local Abbreviation Issue := (Issue Other).

Lemma issueNumber_range id : 0 <= fmt.maxInt64 /\ issueNumber id <= fmt.maxInt64.
Proof.
  split; [done|]. unfold issueNumber. destruct (2 <=? _)%nat; [|done].
  destruct (fmt.Sscanf_d _) as [v|] eqn:E; [|done].
  by apply Sscanf_d_range in E as [_ ?].
Qed.

(** One round of the loop, in terms of the number and of the prefix of
    the id. *)
Lemma nextIDStep_spec m p (issue : Issue) :
  0 <= m ->
  nextIDStep (m, p) issue
  = (Z.max m (issueNumber (ID issue)),
     if String.eqb p "" then idPrefix (ID issue) else p).
Proof.
  intros Hm. unfold nextIDStep, issueNumber, idPrefix.
  destruct (2 <=? _)%nat.
  - f_equal. destruct (Z.ltb_spec m (default 0 (fmt.Sscanf_d (List.last (strings.Split (ID issue) "-") "")))); lia.
  - f_equal; [lia|]. by destruct (String.eqb_spec p "") as [->|].
Qed.

(** The running maximum is the highest number seen. *)
Lemma nextID_max (all : list Issue) m p :
  0 <= m ->
  let M := fst (fold_left nextIDStep all (m, p)) in
  m <= M
  /\ Forall (fun i => issueNumber (ID i) <= M) all
  /\ (M = m \/ exists i, i ∈ all /\ issueNumber (ID i) = M).
Proof.
  revert m p. induction all as [|i all IH]; intros m p Hm; cbv zeta.
  - simpl. split; [lia|]. split; [constructor|by left].
  - rewrite fold_left_cons, nextIDStep_spec by done.
    destruct (IH (Z.max m (issueNumber (ID i)))
                 (if String.eqb p "" then idPrefix (ID i) else p)) as (H1 & H2 & H3); [lia|].
    split; [lia|]. split; [constructor; [lia|done]|].
    destruct H3 as [H3|(j & Hj & H3)].
    + destruct (Z.max_spec m (issueNumber (ID i))) as [[_ E]|[_ E]].
      * right. exists i. split; [by left|]. by rewrite H3.
      * left. by rewrite H3.
    + right. exists j. split; [by right|done].
Qed.

(** The prefix, once taken, stays; until then ids without one are passed
    over. *)
Lemma nextID_prefix_kept (all : list Issue) m p :
  0 <= m -> p <> "" -> snd (fold_left nextIDStep all (m, p)) = p.
Proof.
  revert m. induction all as [|i all IH]; intros m Hm Hp; [done|].
  rewrite fold_left_cons, nextIDStep_spec by done. apply String.eqb_neq in Hp as Hp'. rewrite Hp'.
  apply IH; [lia|done].
Qed.

Lemma nextID_prefix_skipped (all : list Issue) m :
  0 <= m -> Forall (fun i => idPrefix (ID i) = "") all ->
  snd (fold_left nextIDStep all (m, "")) = "".
Proof.
  intros Hm Hall. revert m Hm. induction Hall as [|i all Hi Hall IH]; intros m Hm; [done|].
  rewrite fold_left_cons, nextIDStep_spec by done. simpl. rewrite Hi. apply IH. lia.
Qed.

Lemma getNextAvailableID_spec (all : list Issue) :
  getNextAvailableID (Issues all)
  = Ok (fmt.Sprintf_s_d
          (if String.eqb (snd (fold_left nextIDStep all (0, ""))) ""
           then "bd" else snd (fold_left nextIDStep all (0, "")))
          (wrap64 (fst (fold_left nextIDStep all (0, "")) + 1))).
Proof. unfold getNextAvailableID. by destruct (fold_left _ _ _). Qed.

(** The id written from a prefix and a number is read back as that
    prefix and that number. *)
Lemma Sprintf_split pre n :
  0 <= n ->
  strings.Split (fmt.Sprintf_s_d pre n) "-" = strings.Split pre "-" ++ [fmt.itoa n].
Proof.
  intros Hn. unfold fmt.Sprintf_s_d. rewrite append_cons, append_nil, Split_app.
  f_equal. apply Split_digits. by destruct (itoa_spec n Hn) as (_ & _ & _ & _ & ? & _).
Qed.

Lemma Sprintf_hyphenated pre n :
  0 <= n -> (2 <=? length (strings.Split (fmt.Sprintf_s_d pre n) "-"))%nat = true.
Proof.
  intros Hn. rewrite Sprintf_split, length_app by done.
  destruct (strings.Split pre "-") eqn:E; [by apply Split_nonempty in E|].
  apply Nat.leb_le. simpl. lia.
Qed.

Lemma issueNumber_Sprintf pre n :
  0 <= n <= fmt.maxInt64 -> issueNumber (fmt.Sprintf_s_d pre n) = n.
Proof.
  intros Hn. unfold issueNumber. rewrite Sprintf_hyphenated by lia.
  rewrite Sprintf_split, last_last, Sscanf_d_itoa by lia. done.
Qed.

Lemma idPrefix_Sprintf pre n :
  0 <= n -> idPrefix (fmt.Sprintf_s_d pre n) = pre.
Proof.
  intros Hn. unfold idPrefix. rewrite Sprintf_hyphenated by lia.
  rewrite Sprintf_split, length_app by done. simpl.
  replace (length (strings.Split pre "-") + 1 - 1)%nat
    with (length (strings.Split pre "-")) by lia.
  rewrite take_app_length. apply Join_Split.
Qed.

(** An id with a hyphen is its prefix, a hyphen and its last part. *)
Lemma Join_snoc l x sep :
  l <> [] -> strings.Join (l ++ [x]) sep = strings.Join l sep +:+ sep +:+ x.
Proof.
  induction l as [|a l IH]; [done|]. intros _. destruct l as [|b l].
  - done.
  - change ((a :: b :: l) ++ [x]) with (a :: (b :: l) ++ [x]).
    rewrite Join_cons by done. rewrite IH by done.
    rewrite (Join_cons a (b :: l)) by done. by rewrite !app_assoc_string.
Qed.

Lemma idPrefix_text id :
  hyphenated id = true ->
  id = idPrefix id +:+ "-" +:+ List.last (strings.Split id "-") "".
Proof.
  unfold hyphenated, idPrefix. intros Hh. rewrite Hh.
  destruct (exists_last (Split_nonempty id "-")) as (l & x & E).
  rewrite E in *. rewrite last_last, length_app. simpl.
  replace (length l + 1 - 1)%nat with (length l) by lia.
  rewrite take_app_length. rewrite <- Join_snoc, <- E.
  - symmetry. apply Join_Split.
  - intros ->. by simpl in Hh.
Qed.

(** X11 ([getNextAvailableID]): when no stored id carries the largest
    64-bit number, the id returned reads back as a number that is at
    least 1 and above the number of every stored id, and it is 1 or one
    more than the number of a stored id. *)
Theorem next_id_above_all (all : list Issue) :
  Forall (fun i => issueNumber (ID i) < fmt.maxInt64) all ->
  exists id,
    getNextAvailableID (Issues all) = Ok id
    /\ 1 <= issueNumber id
    /\ Forall (fun i => issueNumber (ID i) < issueNumber id) all
    /\ (issueNumber id = 1
        \/ exists i, i ∈ all /\ issueNumber id = issueNumber (ID i) + 1).
Proof.
  intros Hall. eexists. split; [apply getNextAvailableID_spec|].
  destruct (nextID_max all 0 "") as (H1 & H2 & H3); [lia|]. simpl in H1, H2, H3.
  set (M := fst (fold_left nextIDStep all (0, ""))) in *.
  assert (HM : M < fmt.maxInt64).
  { destruct H3 as [->|(i & Hi & <-)]; [done|].
    by apply (proj1 (Forall_forall _ _) Hall). }
  unfold fmt.maxInt64 in HM.
  rewrite wrap64_small, issueNumber_Sprintf by (unfold fmt.minInt64, fmt.maxInt64; lia).
  split; [lia|]. split.
  - eapply Forall_impl; [exact H2|]. simpl. lia.
  - destruct H3 as [->|(i & Hi & E)]; [by left|]. right. exists i. split; [done|lia].
Qed.

(** X12 ([getNextAvailableID]): when a stored id carries the largest
    64-bit number, the increment wraps around: the id returned ends with
    the smallest 64-bit number, and the number read back from it is 0. *)
Theorem next_id_overflow (all : list Issue) (i : Issue) :
  i ∈ all -> issueNumber (ID i) = fmt.maxInt64 ->
  exists pre,
    getNextAvailableID (Issues all) = Ok (pre +:+ "--9223372036854775808")
    /\ issueNumber (pre +:+ "--9223372036854775808") = 0.
Proof.
  intros Hi Hnum. eexists. split.
  - rewrite getNextAvailableID_spec.
    destruct (nextID_max all 0 "") as (H1 & H2 & H3); [lia|]. simpl in H1, H2, H3.
    set (M := fst (fold_left nextIDStep all (0, ""))) in *.
    assert (HM : M = fmt.maxInt64).
    { apply Z.le_antisymm.
      - destruct H3 as [->|(j & _ & <-)]; [done|]. apply issueNumber_range.
      - rewrite <- Hnum. by apply (proj1 (Forall_forall _ _) H2). }
    rewrite HM. reflexivity.
  - unfold issueNumber.
    change "--9223372036854775808" with (String "-" "-9223372036854775808").
    rewrite Split_app.
    change (strings.Split "-9223372036854775808" "-")
      with ([""] ++ ["9223372036854775808"]).
    rewrite app_assoc, last_last, !length_app.
    replace (2 <=? _)%nat with true; [done|].
    symmetry. apply Nat.leb_le. simpl. lia.
Qed.

(** X13 ([getNextAvailableID]): when no stored id has a hyphen, and so
    when the store is empty, the id returned is [bd-1]. *)
Theorem next_id_default (all : list Issue) :
  Forall (fun i => hyphenated (ID i) = false) all ->
  getNextAvailableID (Issues all) = Ok "bd-1".
Proof.
  intros Hall. rewrite getNextAvailableID_spec.
  assert (E : fold_left nextIDStep all (0, "") = (0, "")).
  { induction Hall as [|i all Hi Hall IH]; [done|]. rewrite fold_left_cons.
    unfold nextIDStep at 2. unfold hyphenated in Hi. by rewrite Hi. }
  rewrite E. reflexivity.
Qed.

(** X14 ([getNextAvailableID]): the prefix of the id returned is that of
    the first stored id that has a non-empty one, which is the text of
    that id before its last hyphen, whatever the ids stored after it
    are. *)
Theorem next_id_prefix_of_first (skipped rest : list Issue) (first : Issue) :
  Forall (fun i => idPrefix (ID i) = "") skipped ->
  idPrefix (ID first) <> "" ->
  (exists n, getNextAvailableID (Issues (skipped ++ first :: rest))
             = Ok (fmt.Sprintf_s_d (idPrefix (ID first)) n))
  /\ ID first
     = idPrefix (ID first) +:+ "-" +:+ List.last (strings.Split (ID first) "-") "".
Proof.
  intros Hskip Hfirst. split.
  - eexists. rewrite getNextAvailableID_spec.
    assert (E : snd (fold_left nextIDStep (skipped ++ first :: rest) (0, ""))
                = idPrefix (ID first)).
    { rewrite fold_left_app, fold_left_cons.
      pose proof (nextID_prefix_skipped skipped 0 ltac:(lia) Hskip) as Hs.
      destruct (nextID_max skipped 0 "") as (Hm & _); [lia|].
      destruct (fold_left nextIDStep skipped (0, "")) as [m p]. simpl in Hs, Hm.
      subst p. rewrite nextIDStep_spec by done. simpl.
      apply nextID_prefix_kept; [lia|done]. }
    rewrite E. apply String.eqb_neq in Hfirst. rewrite Hfirst. reflexivity.
  - apply idPrefix_text. unfold hyphenated. unfold idPrefix in Hfirst.
    by destruct (2 <=? _)%nat.
Qed.

End NextID.

Lemma next_id_above_all_witness :
  Forall (fun i => issueNumber (ID i) < fmt.maxInt64)
         [stored "bd-1"; stored "bd-2"; stored "bd-3"; stored "bd-4"; stored "bd-5"]
  /\ getNextAvailableID store5 = Ok "bd-6"
  /\ exists id, getNextAvailableID store5 = Ok id /\ 1 <= issueNumber id.
Proof.
  assert (H1 : Forall (fun i => issueNumber (ID i) < fmt.maxInt64)
                 [stored "bd-1"; stored "bd-2"; stored "bd-3"; stored "bd-4";
                  stored "bd-5"]) by (repeat constructor).
  split; [exact H1|]. split; [by vm_compute|].
  destruct (next_id_above_all _ H1) as (id & H2 & H3 & _).
  exists id. by split.
Defined.

Lemma next_id_overflow_witness :
  stored "bd-9223372036854775807" ∈ [stored "bd-1"; stored "bd-9223372036854775807"]
  /\ issueNumber (ID (stored "bd-9223372036854775807")) = fmt.maxInt64
  /\ getNextAvailableID (Issues [stored "bd-1"; stored "bd-9223372036854775807"])
     = Ok "bd--9223372036854775808"
  /\ exists pre,
       getNextAvailableID (Issues [stored "bd-1"; stored "bd-9223372036854775807"])
       = Ok (pre +:+ "--9223372036854775808")
       /\ issueNumber (pre +:+ "--9223372036854775808") = 0.
Proof.
  assert (H1 : stored "bd-9223372036854775807"
               ∈ [stored "bd-1"; stored "bd-9223372036854775807"]).
  { apply elem_of_cons. right. apply elem_of_cons. by left. }
  assert (H2 : issueNumber (ID (stored "bd-9223372036854775807")) = fmt.maxInt64)
    by (by vm_compute).
  split; [exact H1|]. split; [exact H2|].
  split; [by vm_compute|].
  exact (next_id_overflow _ _ H1 H2).
Defined.

Lemma next_id_default_witness :
  Forall (fun i => hyphenated (ID i) = false) [stored "alpha"; stored "beta"]
  /\ getNextAvailableID (Issues [stored "alpha"; stored "beta"]) = Ok "bd-1".
Proof.
  assert (H1 : Forall (fun i => hyphenated (ID i) = false)
                 [stored "alpha"; stored "beta"]) by (repeat constructor).
  split; [exact H1|]. exact (next_id_default _ H1).
Defined.

Lemma next_id_prefix_of_first_witness :
  Forall (fun i => idPrefix (ID i) = "") [stored "alpha"]
  /\ idPrefix (ID (stored "my-proj-3")) <> ""
  /\ getNextAvailableID (Issues ([stored "alpha"] ++ stored "my-proj-3" :: [stored "bd-7"]))
     = Ok "my-proj-8"
  /\ exists n,
       getNextAvailableID (Issues ([stored "alpha"] ++ stored "my-proj-3" :: [stored "bd-7"]))
       = Ok (fmt.Sprintf_s_d (idPrefix (ID (stored "my-proj-3"))) n).
Proof.
  assert (H1 : Forall (fun i => idPrefix (ID i) = "") [stored "alpha"])
    by (repeat constructor).
  assert (H2 : idPrefix (ID (stored "my-proj-3")) <> "") by (by vm_compute).
  split; [exact H1|]. split; [exact H2|].
  split; [by vm_compute|].
  exact (proj1 (next_id_prefix_of_first [stored "alpha"] [stored "bd-7"] _ H1 H2)).
Defined.

(** * The reference rewriter and the file reconstructor *)

Section ReconstructorProperties.

Context {Other : Type} `{!Runtime Other}.

Local Abbreviation Issue := (Issue Other).

(** Replacement of the empty string. *)
Lemma insertAtRunes_length new k s :
  (String.length s + String.length new <= String.length (strings.insertAtRunes new k s))%nat.
Proof.
  revert k. induction s as [|c s IH]; intros k; [simpl; lia|].
  cbn [strings.insertAtRunes]. destruct k as [|k].
  - generalize (snd (utf8.DecodeRuneInString (String c s)) - 1)%nat. intros k.
    rewrite length_app_string. cbn [String.length]. specialize (IH k). lia.
  - cbn [String.length]. specialize (IH k). lia.
Qed.

Lemma insertAtRunes_prefix new s :
  String.prefix new (strings.insertAtRunes new 0 s) = true.
Proof.
  apply prefix_spec. destruct s as [|c s]; simpl.
  - exists "". by rewrite app_empty_r.
  - by eexists.
Qed.

Lemma ReplaceAll_empty_old s new :
  new <> "" -> strings.ReplaceAll s "" new = strings.insertAtRunes new 0 s.
Proof.
  intros Hnew. unfold strings.ReplaceAll.
  destruct (String.eqb_spec "" new) as [E|_]; [by destruct Hnew|done].
Qed.

(** A line inside a conflict gives at most one line, a serialized
    record; a line outside gives itself or a serialized record. *)
Lemma insideLine_cases remapTable i line :
  insideLine remapTable i line = []
  \/ exists issue : Issue, insideLine remapTable i line = [Marshal issue].
Proof.
  unfold insideLine. destruct (negb _); [|by left].
  destruct (Unmarshal _); [right; by eexists|by left].
Qed.

Lemma outsideLine_cases remapTable i line :
  outsideLine remapTable i line = line
  \/ exists issue : Issue, outsideLine remapTable i line = Marshal issue.
Proof.
  unfold outsideLine. destruct (_ && _ && _ && _); [|by left].
  destruct (Unmarshal _); [|by left].
  destruct (modified _ _ _); [right; by eexists|by left].
Qed.

Lemma marker_cases line :
  isOpen line = true
  \/ (isOpen line = false /\ isClose line = true)
  \/ (isOpen line = false /\ isClose line = false /\ isDivider line = true)
  \/ isMarker line = false.
Proof.
  unfold isMarker. destruct (isOpen line); [by left|].
  destruct (isClose line); [right; by left|].
  destruct (isDivider line); [right; right; by left|by repeat right].
Qed.

(** What holds of the lines of the file that are no markers and of every
    serialized record holds of every line emitted. *)
Lemma applyStep_emits (P : string -> Prop) remapTable i st line :
  (forall issue : Issue, P (Marshal issue)) ->
  (isMarker line = false -> P line) ->
  Forall P (resolved st) -> Forall P (conflictLines st) ->
  Forall P (resolved (applyStep remapTable i st line))
  /\ Forall P (conflictLines (applyStep remapTable i st line)).
Proof.
  intros HM Hline Hres Hbuf.
  destruct (marker_cases line) as [Ho|[[Ho Hc]|[(Ho & Hc & Hd)|Hm]]].
  - rewrite applyStep_open by done. by split.
  - rewrite applyStep_close by done. simpl. split; [by apply Forall_app|done].
  - by rewrite applyStep_divider.
  - destruct (inConflict st) eqn:Hin.
    + rewrite applyStep_inside by done. simpl. split; [done|].
      apply Forall_app. split; [done|].
      destruct (insideLine_cases remapTable i line) as [->|[issue ->]]; [done|].
      by repeat constructor.
    + rewrite applyStep_outside by done. simpl. split; [|done].
      apply Forall_app. split; [done|]. constructor; [|done].
      destruct (outsideLine_cases remapTable i line) as [->|[issue ->]]; [by apply Hline|done].
Qed.

Lemma applyLoop_emits (P : string -> Prop) remapTable i st lines :
  (forall issue : Issue, P (Marshal issue)) ->
  Forall (fun line => isMarker line = false -> P line) lines ->
  Forall P (resolved st) -> Forall P (conflictLines st) ->
  Forall P (resolved (applyLoop remapTable i st lines))
  /\ Forall P (conflictLines (applyLoop remapTable i st lines)).
Proof.
  intros HM Hlines. revert i st.
  induction Hlines as [|l ls Hl Hls IH]; intros i st Hres Hbuf; [done|].
  simpl. destruct (applyStep_emits P remapTable i st l); [done..|]. by apply IH.
Qed.

(** Every line read adds at most one line to those emitted or buffered. *)
Lemma applyStep_count remapTable i st line :
  (length (resolved (applyStep remapTable i st line))
   + length (conflictLines (applyStep remapTable i st line))
   <= length (resolved st) + length (conflictLines st) + 1)%nat.
Proof.
  destruct (marker_cases line) as [Ho|[[Ho Hc]|[(Ho & Hc & Hd)|Hm]]].
  - rewrite applyStep_open by done. simpl. lia.
  - rewrite applyStep_close by done. simpl. rewrite length_app. lia.
  - rewrite applyStep_divider by done. lia.
  - destruct (inConflict st) eqn:Hin.
    + rewrite applyStep_inside by done. simpl. rewrite length_app.
      destruct (insideLine_cases remapTable i line) as [->|[issue ->]]; simpl; lia.
    + rewrite applyStep_outside by done. simpl. rewrite length_app. simpl. lia.
Qed.

Lemma applyLoop_count remapTable i st lines :
  (length (resolved (applyLoop remapTable i st lines))
   + length (conflictLines (applyLoop remapTable i st lines))
   <= length (resolved st) + length (conflictLines st) + length lines)%nat.
Proof.
  revert i st. induction lines as [|l ls IH]; intros i st; simpl; [lia|].
  specialize (IH (S i) (applyStep remapTable i st l)).
  pose proof (applyStep_count remapTable i st l). lia.
Qed.

(** A conflict and the lines after it, from any state of the loop. *)
Lemma applyLoop_region_then remapTable i st openLine heads divider bases closeLine post :
  isOpen openLine = true -> isDivider divider = true -> isClose closeLine = true ->
  Forall (fun l => isMarker l = false) heads ->
  Forall (fun l => isMarker l = false) bases ->
  Forall (fun l => isMarker l = false) post ->
  resolved (applyLoop remapTable i st
              (openLine :: heads ++ divider :: bases ++ closeLine :: post))
  = resolved st ++ insideLines remapTable (S i) heads
      ++ insideLines remapTable (S (S (i + length heads))) bases
      ++ outsideLines remapTable (S (S (S (i + length heads + length bases)))) post.
Proof.
  intros Ho Hd Hc Hheads Hbases Hpost.
  replace (openLine :: heads ++ divider :: bases ++ closeLine :: post)
    with ((openLine :: heads ++ divider :: bases ++ [closeLine]) ++ post)
    by (repeat (progress (simpl; rewrite <- ?app_assoc)); reflexivity).
  rewrite applyLoop_app, applyLoop_region, applyLoop_outside by done. simpl.
  rewrite <- !app_assoc. do 3 f_equal. f_equal.
  rewrite length_app. simpl. rewrite length_app. simpl. lia.
Qed.

(** X15 ([remapTextReferences], [applyResolutions]): when the remap table
    is the single entry that maps the empty id to a new id, which is not
    empty, every text is changed: the result begins with the new id and
    is longer than the text; so every record outside the conflicts counts
    as modified and is written back re-serialized.  (With a second entry
    in the table the later replacements can undo this.) *)
Theorem empty_old_id_rewrites_everything (new : string) (i : nat) (issue : Issue) :
  new <> "" ->
  (forall k text,
     String.prefix new (remapTextReferences k text {["" := new]}) = true
     /\ (String.length text
         < String.length (remapTextReferences k text {["" := new]}))%nat)
  /\ modified {["" := new]} i issue = true
  /\ (forall line,
        candidate line = true -> Unmarshal (strings.TrimSpace line) = Some issue ->
        outsideLine {["" := new]} i line = Marshal (resolveOutside {["" := new]} i issue)).
Proof.
  intros Hnew.
  assert (Htext : forall k text,
            String.prefix new (remapTextReferences k text {["" := new]}) = true
            /\ (String.length text
                < String.length (remapTextReferences k text {["" := new]}))%nat).
  { intros k text. rewrite remapTextReferences_singleton, ReplaceAll_empty_old by done.
    split; [apply insertAtRunes_prefix|].
    pose proof (insertAtRunes_length new 0 text).
    destruct new; [done|]. simpl in *. lia. }
  assert (Hmod : modified {["" := new]} i issue = true).
  { unfold modified. destruct (Htext (4 * i)%nat (Description issue)) as [_ Hlen].
    destruct (String.eqb_spec
                (remapTextReferences (4 * i) (Description issue) {["" := new]})
                (Description issue)) as [E|_]; [rewrite E in Hlen; lia|].
    simpl. by rewrite orb_true_r. }
  split; [done|]. split; [done|].
  intros line Hcand Hdec. by rewrite (outsideLine_record _ _ _ issue), Hmod.
Qed.

(** X16 ([applyResolutions]): for a file with one conflict (an open
    marker, lines, a divider, lines, a close marker) and no other marker,
    the content written back is, joined by newlines: every line before
    the conflict, as it was or re-serialized; the records of the HEAD
    side, then those of the BASE side, re-serialized, with nothing for
    the three markers and for the lines of the conflict that are not
    records; every line after the conflict. *)
Theorem apply_single_region (content : string) (rs : list Resolution)
    (pre heads bases post : list string) (openLine divider closeLine : string) :
  fileLines content = pre ++ openLine :: heads ++ divider :: bases ++ closeLine :: post ->
  isOpen openLine = true -> isDivider divider = true -> isClose closeLine = true ->
  Forall (fun l => isMarker l = false) pre ->
  Forall (fun l => isMarker l = false) heads ->
  Forall (fun l => isMarker l = false) bases ->
  Forall (fun l => isMarker l = false) post ->
  let remapTable := buildRemapTable rs in
  let h := S (length pre) in
  let b := S (h + length heads) in
  let p := S (b + length bases) in
  applyResolutions content rs
  = strings.Join
      (outsideLines remapTable 0 pre ++ insideLines remapTable h heads
         ++ insideLines remapTable b bases ++ outsideLines remapTable p post)
      (String NL "").
Proof.
  intros Hlines Ho Hd Hc Hpre Hheads Hbases Hpost. cbv zeta.
  unfold applyResolutions. change (strings.Split content NL) with (fileLines content).
  rewrite Hlines, applyLoop_app, applyLoop_region_then by done.
  rewrite applyLoop_outside by done. simpl. done.
Qed.

(** X17 ([applyResolutions]): an open marker inside a conflict starts the
    conflict again: the lines between the first open marker and the
    second, records included, are not written back, whatever the
    resolutions are. *)
Theorem apply_restarted_region_dropped (content : string) (rs : list Resolution)
    (pre lost heads bases post : list string)
    (openLine again divider closeLine : string) :
  fileLines content
  = pre ++ openLine :: lost ++ again :: heads ++ divider :: bases ++ closeLine :: post ->
  isOpen openLine = true -> isOpen again = true ->
  isDivider divider = true -> isClose closeLine = true ->
  Forall (fun l => isClose l = false) lost ->
  Forall (fun l => isMarker l = false) pre ->
  Forall (fun l => isMarker l = false) heads ->
  Forall (fun l => isMarker l = false) bases ->
  Forall (fun l => isMarker l = false) post ->
  let remapTable := buildRemapTable rs in
  let h := S (S (length pre + length lost)) in
  let b := S (h + length heads) in
  let p := S (b + length bases) in
  applyResolutions content rs
  = strings.Join
      (outsideLines remapTable 0 pre ++ insideLines remapTable h heads
         ++ insideLines remapTable b bases ++ outsideLines remapTable p post)
      (String NL "").
Proof.
  intros Hlines Ho Ho' Hd Hc Hlost Hpre Hheads Hbases Hpost. cbv zeta.
  unfold applyResolutions. change (strings.Split content NL) with (fileLines content).
  rewrite Hlines, applyLoop_app.
  change (openLine :: lost ++ again :: heads ++ divider :: bases ++ closeLine :: post)
    with ((openLine :: lost) ++ again :: heads ++ divider :: bases ++ closeLine :: post).
  rewrite applyLoop_app, applyLoop_region_then by done.
  cbn [applyLoop]. rewrite applyStep_open by done.
  destruct (applyLoop_unclosed (buildRemapTable rs) (S (0 + length pre))
              (mkApplyState
                 (resolved (applyLoop (buildRemapTable rs) 0 applyInit pre)) true [])
              lost Hlost eq_refl) as [-> _].
  rewrite applyLoop_outside by done. simpl.
  replace (length pre + S (length lost))%nat with (S (length pre + length lost)) by lia.
  done.
Qed.

(** X18 ([applyResolutions]): every line of the output is a line of the
    input that is not a marker, or a serialized record; and the output
    has at most as many lines as the input: the reconstructor writes no
    marker of the input back and no text of its own. *)
Theorem apply_lines_provenance (remapTable : gmap string string) (lines : list string) :
  let out := resolved (applyLoop remapTable 0 applyInit lines) in
  Forall (fun l => (l ∈ lines /\ isMarker l = false)
                   \/ exists issue : Issue, l = Marshal issue) out
  /\ (length out <= length lines)%nat.
Proof.
  cbv zeta. split.
  - apply applyLoop_emits; try done.
    + intros issue. right. by exists issue.
    + apply Forall_forall. intros l Hl Hm. by left.
  - pose proof (applyLoop_count remapTable 0 applyInit lines) as Hc. simpl in Hc. lia.
Qed.

End ReconstructorProperties.

Lemma empty_old_id_rewrites_everything_witness :
  "bd-6" <> ""
  /\ resolveConflictsMechanical store5 [missingIDs] = Ok [keepHead ""; remap "" "bd-6"]
  /\ buildRemapTable [keepHead ""; remap "" "bd-6"] = {["" := "bd-6"]}
  /\ remapTextReferences 0 "ab" {["" := "bd-6"]} = "bd-6abd-6bbd-6"
  /\ modified {["" := "bd-6"]} 0 (ours "bd-1") = true.
Proof.
  assert (H1 : "bd-6" <> "") by done.
  split; [exact H1|]. split; [by vm_compute|]. split; [by vm_compute|].
  split; [by vm_compute|].
  exact (proj1 (proj2 (empty_old_id_rewrites_everything "bd-6" 0 (ours "bd-1") H1))).
Defined.

Lemma apply_single_region_witness :
  fileLines collisionFile
  = [outsideRecord] ++ "<<<<<<< HEAD" :: [headLine] ++ "=======" :: [baseLine]
    ++ ">>>>>>> feature" :: [""]
  /\ applyResolutions collisionFile [keepHead "bd-1"; remap "bd-1" "bd-6"]
     = fileOf [json.Marshal (mkIssue "bd-9" "nine" "see bd-6 and bd-60" "" "" ""
                               [mkDependency "bd-9" "bd-6" "blocks"] tt);
               json.Marshal (ours "bd-6"); json.Marshal (theirs "bd-6"); ""].
Proof.
  assert (H1 : fileLines collisionFile
               = [outsideRecord] ++ "<<<<<<< HEAD" :: [headLine] ++ "=======" :: [baseLine]
                 ++ ">>>>>>> feature" :: [""]) by (by vm_compute).
  split; [exact H1|].
  rewrite (apply_single_region collisionFile [keepHead "bd-1"; remap "bd-1" "bd-6"]
             [outsideRecord] [headLine] [baseLine] [""]
             "<<<<<<< HEAD" "=======" ">>>>>>> feature" H1);
    [by vm_compute|reflexivity|reflexivity|reflexivity|repeat constructor..].
Defined.

Lemma apply_restarted_region_dropped_witness :
  fileLines restartedFile
  = [plainLine] ++ "<<<<<<< HEAD" :: [lostLine] ++ "<<<<<<< HEAD" :: [headLine]
    ++ "=======" :: [baseLine] ++ ">>>>>>> feature" :: []
  /\ applyResolutions restartedFile [keepHead "bd-1"; remap "bd-1" "bd-6"]
     = fileOf [plainLine; json.Marshal (ours "bd-6"); json.Marshal (theirs "bd-6")].
Proof.
  assert (H1 : fileLines restartedFile
               = [plainLine] ++ "<<<<<<< HEAD" :: [lostLine] ++ "<<<<<<< HEAD" :: [headLine]
                 ++ "=======" :: [baseLine] ++ ">>>>>>> feature" :: []) by (by vm_compute).
  split; [exact H1|].
  rewrite (apply_restarted_region_dropped restartedFile
             [keepHead "bd-1"; remap "bd-1" "bd-6"]
             [plainLine] [lostLine] [headLine] [baseLine] []
             "<<<<<<< HEAD" "<<<<<<< HEAD" "=======" ">>>>>>> feature" H1);
    [by vm_compute|reflexivity|reflexivity|reflexivity|reflexivity|repeat constructor..].
Defined.

(** * The file written back *)

Section Lines.

Lemma oneLine_app a b : oneLine (a +:+ b) = oneLine a && oneLine b.
Proof.
  induction a as [|c a IH]; [by rewrite append_nil|].
  rewrite append_cons. simpl. by rewrite IH, andb_assoc.
Qed.

Lemma Split_oneLine s : oneLine s = true -> strings.Split s NL = [s].
Proof.
  induction s as [|c s IH]; [done|]. simpl.
  intros [Hc Hs]%andb_prop. apply negb_true_iff in Hc. rewrite Hc, IH by done. done.
Qed.

Lemma Split_lines_oneLine s :
  Forall (fun l => oneLine l = true) (strings.Split s NL).
Proof.
  induction s as [|c s IH]; [by repeat constructor|]. simpl.
  destruct (Ascii.eqb c NL) eqn:Hc; [by constructor|].
  destruct (strings.Split s NL) as [|h t]; [constructor; [simpl; by rewrite Hc|done]|].
  inversion IH; subst. constructor; [|done]. simpl. by rewrite Hc.
Qed.

(** Lines without a newline, joined by newlines and split again. *)
Lemma Split_Join lines :
  lines <> [] -> Forall (fun l => oneLine l = true) lines ->
  strings.Split (strings.Join lines (String NL "")) NL = lines.
Proof.
  intros Hne Hall. induction Hall as [|l ls Hl Hls IH]; [done|].
  destruct ls as [|l' ls].
  - by apply Split_oneLine.
  - rewrite Join_cons by done. rewrite append_cons, append_nil, Split_app.
    rewrite Split_oneLine, IH by done. done.
Qed.

Lemma notNL c : byteZ c <> 10 -> Ascii.eqb c NL = false.
Proof. intros Hc. by destruct (Ascii.eqb_spec c NL) as [->|]. Qed.

(** The bytes of a rune after its first byte are not newlines. *)
Lemma decode_continuation c0 r0 r w :
  utf8.DecodeRuneInString (String c0 r0) = (r, S (S w)) ->
  oneLine (stake (S w) r0) = true.
Proof.
  unfold utf8.DecodeRuneInString.
  pose proof (first_cases (byteZ c0)) as Hf.
  destruct (utf8.first (byteZ c0)) as [sz [lo hi]]. simpl in Hf.
  destruct sz as [|[|sz]]; [done..|].
  destruct Hf as [Hf|[Hf|[_ Hlo]]]; [done..|].
  destruct (_ <? _)%nat; [done|].
  destruct r0 as [|c1 r1]; [done|].
  destruct (utf8.in_range lo hi (byteZ c1)) eqn:H1; [|done]. simpl negb. cbv iota.
  assert (N1 : Ascii.eqb c1 NL = false).
  { apply notNL. unfold utf8.in_range in H1.
    apply andb_prop in H1 as [?%Z.leb_le _]. lia. }
  destruct (_ <=? 2)%nat.
  { intros [= <- <-]. simpl. by rewrite N1. }
  destruct r1 as [|c2 r2]; [done|].
  destruct (utf8.in_range 128 191 (byteZ c2)) eqn:H2; [|done]. simpl negb. cbv iota.
  assert (N2 : Ascii.eqb c2 NL = false).
  { apply notNL. unfold utf8.in_range in H2.
    apply andb_prop in H2 as [?%Z.leb_le _]. lia. }
  destruct (_ <=? 3)%nat.
  { intros [= <- <-]. simpl. by rewrite N1, N2. }
  destruct r2 as [|c3 r3]; [done|].
  destruct (utf8.in_range 128 191 (byteZ c3)) eqn:H3; [|done]. simpl negb. cbv iota.
  assert (N3 : Ascii.eqb c3 NL = false).
  { apply notNL. unfold utf8.in_range in H3.
    apply andb_prop in H3 as [?%Z.leb_le _]. lia. }
  intros [= <- <-]. simpl. by rewrite N1, N2, N3.
Qed.

(** The encoder writes a record on one line. *)
Lemma escapeByte_oneLine c : oneLine (json.escapeByte (byteZ c)) = true.
Proof. destruct c as [[] [] [] [] [] [] [] []]; reflexivity. Qed.

Lemma encodeBody_oneLine s skip keep :
  (keep = true -> oneLine (stake skip s) = true) ->
  oneLine (json.encodeBody skip keep s) = true.
Proof.
  revert skip keep. induction s as [|c s IH]; intros skip keep Hkeep; [done|].
  cbn [json.encodeBody]. destruct skip as [|k].
  - assert (H0 : forall keep', oneLine (json.encodeBody 0 keep' s) = true).
    { intros keep'. by apply IH. }
    destruct (byteZ c <? 128) eqn:Hb.
    + destruct ((byteZ c =? 34) || (byteZ c =? 92)) eqn:H1.
      { rewrite oneLine_app. cbn [oneLine]. rewrite H0, (notNL c); [done|].
        apply orb_prop in H1 as [?%Z.eqb_eq|?%Z.eqb_eq]; lia. }
      destruct (byteZ c =? 10) eqn:H2; [by rewrite oneLine_app, H0|].
      destruct (byteZ c =? 13); [by rewrite oneLine_app, H0|].
      destruct (byteZ c =? 9); [by rewrite oneLine_app, H0|].
      destruct (_ || _ || _ || _); [by rewrite oneLine_app, escapeByte_oneLine, H0|].
      cbn [oneLine]. rewrite H0, (notNL c); [done|]. by apply Z.eqb_neq.
    + destruct (utf8.DecodeRuneInString (String c s)) as [r [|[|w]]] eqn:Hdec;
        [by rewrite oneLine_app, H0..|].
      destruct (r =? 8232); [rewrite oneLine_app, IH; done|].
      destruct (r =? 8233); [rewrite oneLine_app, IH; done|].
      cbn [oneLine]. rewrite (notNL c) by (apply Z.ltb_ge in Hb; lia).
      rewrite IH; [done|]. intros _. by eapply decode_continuation.
  - destruct keep.
    + specialize (Hkeep eq_refl). simpl in Hkeep.
      apply andb_prop in Hkeep as [Hc Hs]. cbn [oneLine]. by rewrite Hc, IH.
    + by apply IH.
Qed.

Lemma encodeString_oneLine s : oneLine (json.encodeString s) = true.
Proof.
  unfold json.encodeString. rewrite !oneLine_app, encodeBody_oneLine; done.
Qed.

Lemma encodeDependency_oneLine d : oneLine (json.encodeDependency d) = true.
Proof.
  unfold json.encodeDependency, json.member.
  rewrite !oneLine_app, !encodeString_oneLine. done.
Qed.

Lemma encodeDependencies_oneLine ds :
  oneLine (strings.Join (map json.encodeDependency ds) ",") = true.
Proof.
  induction ds as [|d ds IH]; [done|]. destruct ds as [|d' ds].
  - apply encodeDependency_oneLine.
  - change (map json.encodeDependency (d :: d' :: ds))
      with (json.encodeDependency d :: map json.encodeDependency (d' :: ds)).
    rewrite Join_cons by done. by rewrite !oneLine_app, encodeDependency_oneLine, IH.
Qed.

Lemma json_Marshal_oneLine i : oneLine (json.Marshal i) = true.
Proof.
  unfold json.Marshal, json.member.
  rewrite !oneLine_app, !encodeString_oneLine.
  destruct (Dependencies i); [done|].
  by rewrite !oneLine_app, encodeDependencies_oneLine.
Qed.

(** Trimming leaves the first byte of a text in place, if anything. *)
Lemma trimRightSpace_nil fuel : strings.trimRightSpace fuel "" = "".
Proof. by destruct fuel. Qed.

Lemma trimRightSpace_head fuel c x :
  strings.trimRightSpace fuel (String c x) = ""
  \/ exists y, strings.trimRightSpace fuel (String c x) = String c y.
Proof.
  revert x. induction fuel as [|f IH]; intros x; [right; by eexists|].
  cbn [strings.trimRightSpace].
  destruct (utf8.DecodeLastRuneInString (String c x)) as [r w].
  destruct (_ && _); [|right; by eexists].
  destruct (String.length (String c x) - w)%nat as [|k]; simpl.
  - left. apply trimRightSpace_nil.
  - apply IH.
Qed.

(** A serialized record is no marker. *)
Lemma json_Marshal_not_marker i : isMarker (json.Marshal i) = false.
Proof.
  assert (exists X, json.Marshal i = String "{" X) as [X ->].
  { unfold json.Marshal. rewrite append_cons, append_nil. by eexists. }
  assert (E : strings.TrimSpace (String "{" X)
              = strings.trimRightSpace (String.length (String "{" X)) (String "{" X))
    by reflexivity.
  unfold isMarker, isOpen, isDivider, isClose. rewrite E.
  destruct (trimRightSpace_head (String.length (String "{" X)) "{" X) as [->|[y ->]];
    [done|].
  unfold strings.HasPrefix. rewrite !prefix_cons.
  by repeat match goal with |- context [ascii_dec ?a ?b] => destruct (ascii_dec a b) end.
Qed.

End Lines.

Section Output.

Context {Other : Type} `{!Runtime Other}.

Local Abbreviation Issue := (Issue Other).

(** X19 ([applyResolutions], [detectConflicts], [resolveConflictsCmd]):
    when a serialized record is one line and is no marker, as with
    [json.Marshal], the content written back has no marker line left,
    whatever the input and the resolutions are; detection finds no
    conflict in it, and the command run again reports no conflict, or
    fails on a line that has become too long. *)
Theorem apply_output_conflict_free (content : string) (rs : list Resolution) :
  (forall issue : Issue,
     isMarker (Marshal issue) = false /\ oneLine (Marshal issue) = true) ->
  noMarkers (applyResolutions content rs)
  /\ fst (detectConflicts (applyResolutions content rs)) = []
  /\ forall auto dryRun store,
       fst (resolveConflictsCmd auto dryRun store (applyResolutions content rs))
       = NoConflicts
       \/ exists e,
            fst (resolveConflictsCmd auto dryRun store (applyResolutions content rs))
            = DetectFailed e.
Proof.
  intros HM.
  assert (Hno : noMarkers (applyResolutions content rs)).
  { unfold noMarkers, fileLines, applyResolutions.
    set (out := resolved (applyLoop (buildRemapTable rs) 0 applyInit
                            (strings.Split content NL))).
    assert (Hout : Forall (fun l => isMarker l = false /\ oneLine l = true) out).
    { apply applyLoop_emits; try done.
      eapply Forall_impl; [apply Split_lines_oneLine|]. by intros l Hl Hm. }
    destruct out as [|l ls] eqn:E; [by repeat constructor|].
    rewrite Split_Join; [|done|].
    - eapply Forall_impl; [exact Hout|]. by intros ? [? _].
    - eapply Forall_impl; [exact Hout|]. by intros ? [_ ?]. }
  assert (Hdet : fst (detectConflicts (applyResolutions content rs)) = []).
  { destruct (detectConflicts_lines (applyResolutions content rs)) as [->| ->]; [done|].
    simpl. rewrite scanLoop_conflicts; [done|].
    eapply Forall_impl; [exact Hno|].
    intros l Hl. by apply isMarker_false in Hl as (_ & _ & ?). }
  split; [done|]. split; [done|].
  intros auto dryRun store. unfold resolveConflictsCmd.
  destruct (detectConflicts _) as [cs [e|]]; [right; by exists e|].
  simpl in Hdet. subst cs. by left.
Qed.

End Output.

Lemma apply_output_conflict_free_witness :
  (forall issue : Issue unit,
     isMarker (Marshal issue) = false /\ oneLine (Marshal issue) = true)
  /\ noMarkers (applyResolutions collisionFile [keepHead "bd-1"; remap "bd-1" "bd-6"])
  /\ fst (detectConflicts
            (applyResolutions collisionFile [keepHead "bd-1"; remap "bd-1" "bd-6"])) = [].
Proof.
  assert (H1 : forall issue : Issue unit,
             isMarker (Marshal issue) = false /\ oneLine (Marshal issue) = true).
  { intros issue. split; [apply json_Marshal_not_marker|apply json_Marshal_oneLine]. }
  split; [exact H1|].
  destruct (apply_output_conflict_free collisionFile
              [keepHead "bd-1"; remap "bd-1" "bd-6"] H1) as (H2 & H3 & _).
  by split.
Defined.

(** * The JSON reports *)

Section ReportProperties.

Context {Other : Type} `{!Runtime Other}.

Local Abbreviation ConflictBlock := (ConflictBlock Other).

(** A slice grown by [append] in a loop over a list. *)
Lemma append_loop {A B : Type} (f : A -> B) (l : list A) (s : slice B) :
  fold_left (fun result x => append_slice result (f x)) l s
  = match l with
    | [] => s
    | _ => Slice (slice_elems s ++ map f l)
    end.
Proof.
  revert s. induction l as [|x l IH]; intros s; [done|].
  rewrite fold_left_cons, IH. destruct l as [|y l]; [done|].
  unfold append_slice. simpl. by rewrite <- app_assoc.
Qed.

Lemma cons_eq_inv {A : Type} (x y : A) l l' : x :: l = y :: l' -> x = y /\ l = l'.
Proof. by intros [= -> ->]. Qed.

Lemma map_entries_inj {A B : Type} (f : A -> B) (l l' : list A) (s s' : slice B) :
  s = nil_slice -> s' = nil_slice ->
  fold_left (fun result x => append_slice result (f x)) l s
  = fold_left (fun result x => append_slice result (f x)) l' s' ->
  map f l = map f l'.
Proof.
  intros -> ->. rewrite !append_loop.
  destruct l, l'; try done. rewrite !map_cons. cbn [slice_elems app].
  intros [= E1 E2]. by rewrite E1, E2.
Qed.

(** The members of the map built for a resolution. *)
Lemma resolutionEntry_action res :
  resolutionEntry res !! "action" = Some (FString (Action res)).
Proof.
  unfold resolutionEntry. by repeat destruct (String.eqb _ _).
Qed.

Lemma resolutionEntry_reason res :
  resolutionEntry res !! "reason" = Some (FString (Reason res)).
Proof.
  unfold resolutionEntry. by repeat destruct (String.eqb _ _).
Qed.

Lemma resolutionEntry_keep res :
  Action res = "keep" ->
  resolutionEntry res !! "issue_id" = Some (FString (IssueID_ res)).
Proof. unfold resolutionEntry. by intros ->. Qed.

Lemma resolutionEntry_remap res :
  Action res = "remap" ->
  resolutionEntry res !! "old_id" = Some (FString (OldID res))
  /\ resolutionEntry res !! "new_id" = Some (FString (NewID res)).
Proof. unfold resolutionEntry. by intros ->. Qed.

Lemma resolutionEntry_inj res res' :
  mechanical res -> mechanical res' ->
  resolutionEntry res = resolutionEntry res' -> res = res'.
Proof.
  intros Hm Hm' E.
  assert (Ha : Action res = Action res').
  { pose proof (resolutionEntry_action res) as H1. rewrite E, resolutionEntry_action in H1.
    by injection H1. }
  assert (Hr : Reason res = Reason res').
  { pose proof (resolutionEntry_reason res) as H1. rewrite E, resolutionEntry_reason in H1.
    by injection H1. }
  destruct Hm as [(Hk & Ho & Hn)|[Hk Hi]], Hm' as [(Hk' & Ho' & Hn')|[Hk' Hi']];
    try congruence.
  - pose proof (resolutionEntry_keep res Hk) as H1.
    rewrite E, (resolutionEntry_keep res' Hk') in H1. injection H1 as H1.
    destruct res, res'. simpl in *. congruence.
  - destruct (resolutionEntry_remap res Hk) as [H1 H2].
    destruct (resolutionEntry_remap res' Hk') as [H1' H2'].
    rewrite E, H1' in H1. rewrite E, H2' in H2. injection H1 as H1. injection H2 as H2.
    destruct res, res'. simpl in *. congruence.
Qed.

(** The members of the map built for a conflict. *)
Lemma conflictEntry_members (c : ConflictBlock) :
  conflictEntry c !! "line_start" = Some (FInt (LineStart c))
  /\ conflictEntry c !! "line_end" = Some (FInt (LineEnd c))
  /\ conflictEntry c !! "head_issues" = Some (FStrings (map ID (HeadIssues c)))
  /\ conflictEntry c !! "base_issues" = Some (FStrings (map ID (BaseIssues c))).
Proof. done. Qed.

Lemma conflictEntry_summary (c c' : ConflictBlock) :
  conflictEntry c = conflictEntry c' <-> conflictSummary c = conflictSummary c'.
Proof.
  split.
  - intros E. destruct (conflictEntry_members c) as (H1 & H2 & H3 & H4).
    destruct (conflictEntry_members c') as (H1' & H2' & H3' & H4').
    rewrite E in H1, H2, H3, H4. unfold conflictSummary. congruence.
  - unfold conflictSummary, conflictEntry. by intros [= -> -> -> ->].
Qed.

(** X20 ([formatResolutionsJSON], [resolveConflictsMechanical]): the
    report of the resolutions of a run tells them all: two lists of
    resolutions that the resolver returns and that have the same report
    are the same list. *)
Theorem formatResolutionsJSON_faithful (store store' : Store Other)
    (cs cs' : list ConflictBlock) (rs rs' : list Resolution) :
  resolveConflictsMechanical store cs = Ok rs ->
  resolveConflictsMechanical store' cs' = Ok rs' ->
  formatResolutionsJSON rs = formatResolutionsJSON rs' ->
  rs = rs'.
Proof.
  intros Hm%resolve_mechanical Hm'%resolve_mechanical E.
  apply map_entries_inj in E; [|done..].
  revert rs' Hm' E. induction Hm as [|res rs Hres Hrs IH]; intros rs' Hm' E.
  - by destruct rs'.
  - destruct rs' as [|res' rs']; [done|]. rewrite !map_cons in E.
    apply cons_eq_inv in E as [E1 E2].
    inversion Hm'; subst. f_equal; [by apply resolutionEntry_inj|by apply IH].
Qed.

(** X21 ([formatConflictsJSON]): the report of the conflicts shows of
    every block its two line numbers and the ids of its HEAD and BASE
    records, and nothing else: two lists of blocks have the same report
    if and only if they agree on these. *)
Theorem formatConflictsJSON_summary (cs cs' : list ConflictBlock) :
  formatConflictsJSON cs = formatConflictsJSON cs'
  <-> map conflictSummary cs = map conflictSummary cs'.
Proof.
  split.
  - intros E. apply map_entries_inj in E; [|done..].
    revert cs' E. induction cs as [|c cs IH]; intros [|c' cs'] E; try done.
    rewrite !map_cons in E. apply cons_eq_inv in E as [E1 E2]. rewrite !map_cons.
    f_equal; [|by apply IH]. by apply conflictEntry_summary.
  - intros E. unfold formatConflictsJSON. rewrite !append_loop.
    assert (E' : map conflictEntry cs = map conflictEntry cs').
    { revert cs' E. induction cs as [|c cs IH]; intros [|c' cs'] E; try done.
      rewrite !map_cons in E. apply cons_eq_inv in E as [E1 E2]. rewrite !map_cons.
      f_equal; [|by apply IH]. by apply conflictEntry_summary. }
    destruct cs, cs'; try done. by rewrite E'.
Qed.

(** X22 ([formatConflictsJSON], [formatResolutionsJSON]): each of the two
    functions returns a nil slice, not an empty one, when its argument is
    empty, and otherwise one map for every element, in order. *)
Theorem format_nil_iff_empty (cs : list ConflictBlock) (rs : list Resolution) :
  (formatConflictsJSON cs = nil_slice <-> cs = [])
  /\ slice_elems (formatConflictsJSON cs) = map conflictEntry cs
  /\ (formatResolutionsJSON rs = nil_slice <-> rs = [])
  /\ slice_elems (formatResolutionsJSON rs) = map resolutionEntry rs.
Proof.
  unfold formatConflictsJSON, formatResolutionsJSON. rewrite !append_loop.
  split; [|split; [|split]].
  - by destruct cs.
  - by destruct cs.
  - by destruct rs.
  - by destruct rs.
Qed.

End ReportProperties.

Lemma formatResolutionsJSON_faithful_witness :
  resolveConflictsMechanical store5 [collision] = Ok [keepHead "bd-1"; remap "bd-1" "bd-6"]
  /\ resolveConflictsMechanical (Issues [stored "bd-5"]) [collision]
     = Ok (map keepHead ["bd-1"] ++ [remap "bd-1" "bd-6"])
  /\ formatResolutionsJSON [keepHead "bd-1"; remap "bd-1" "bd-6"]
     = formatResolutionsJSON (map keepHead ["bd-1"] ++ [remap "bd-1" "bd-6"])
  /\ [keepHead "bd-1"; remap "bd-1" "bd-6"]
     = map keepHead ["bd-1"] ++ [remap "bd-1" "bd-6"].
Proof.
  assert (H1 : resolveConflictsMechanical store5 [collision]
               = Ok [keepHead "bd-1"; remap "bd-1" "bd-6"]) by (by vm_compute).
  assert (H2 : resolveConflictsMechanical (Issues [stored "bd-5"]) [collision]
               = Ok (map keepHead ["bd-1"] ++ [remap "bd-1" "bd-6"])) by (by vm_compute).
  assert (H3 : formatResolutionsJSON [keepHead "bd-1"; remap "bd-1" "bd-6"]
               = formatResolutionsJSON (map keepHead ["bd-1"] ++ [remap "bd-1" "bd-6"]))
    by reflexivity.
  split; [exact H1|]. split; [exact H2|]. split; [exact H3|].
  exact (formatResolutionsJSON_faithful store5 (Issues [stored "bd-5"])
           [collision] [collision] _ _ H1 H2 H3).
Defined.

(** * The command *)

Section CommandProperties.

Context {Other : Type} `{!Runtime Other}.

Local Abbreviation ConflictBlock := (ConflictBlock Other).

(** The command, by the result of detection. *)
Lemma command_too_long auto dryRun (store : Store Other) content :
  tooLong content = true ->
  resolveConflictsCmd auto dryRun store content
  = (DetectFailed (ErrReading ErrTooLong), content).
Proof. intros Hlong. unfold resolveConflictsCmd. by rewrite detect_stops. Qed.

Lemma collides_nil : collides ([] : list ConflictBlock) = false.
Proof. apply collides_false. split; [constructor|]. by intros id Hin%elem_of_nil. Qed.

Lemma length_zero {A : Type} (l : list A) : (length l =? 0)%nat = true <-> l = [].
Proof. destruct l; simpl; split; done. Qed.

(** X23 ([resolveConflictsCmd]): a dry run leaves the file as it was,
    whether [--auto] is given or not, and what it reports is what a run
    with [--auto] alone then applies: the same resolutions, for the same
    conflicts. *)
Theorem dry_run_previews_auto (auto : bool) (store : Store Other) (content : string)
    (rs : list Resolution) :
  fst (resolveConflictsCmd auto true store content) = DryRun rs ->
  resolveConflictsCmd auto true store content = (DryRun rs, content)
  /\ resolveConflictsCmd true false store content
     = (Resolved (fst (detectConflicts content)) rs, applyResolutions content rs).
Proof.
  unfold resolveConflictsCmd.
  destruct (detectConflicts content) as [cs [e|]]; [done|].
  destruct (length cs =? 0)%nat; [done|]. rewrite andb_false_r. simpl.
  destruct (resolveConflictsMechanical store cs) as [rs'|e]; [|done].
  simpl. by intros [= ->].
Qed.

(** The ways in which a run ends with status 1 when every operation on
    the file succeeds. *)
Lemma exitCode_cases (auto dryRun : bool) (store : Store Other) (content : string) :
  exitCode (fst (resolveConflictsCmd auto dryRun store content)) = 1
  <-> tooLong content = true
      \/ (auto || dryRun = true
          /\ (exists e0, getNextAvailableID store = Err e0)
          /\ collides (fst (detectConflicts content)) = true).
Proof.
  destruct (tooLong content) eqn:Hlong.
  { rewrite command_too_long by done. simpl. split; [by left|done]. }
  unfold resolveConflictsCmd. rewrite detect_ok by done. cbn [fst].
  set (cs := conflicts (scanLoop scanInit (fileLines content))).
  destruct (length cs =? 0)%nat eqn:Hlen.
  { apply length_zero in Hlen. rewrite Hlen, collides_nil. simpl.
    split; [done|]. by intros [|(_ & _ & ?)]. }
  destruct auto, dryRun; simpl;
    try (destruct (resolveConflictsMechanical store cs) as [rs|e] eqn:Hres; simpl;
         [ split; [done|]; intros [|(_ & [e0 He0] & Hcol)]; [done|];
           pose proof (resolve_collision_fails store cs e0 He0 Hcol) as Herr;
           congruence
         | split; [|done]; intros _; right;
           destruct (resolve_Err _ _ _ Hres) as (_ & e0 & He0 & _);
           split; [done|]; split; [by exists e0|];
           destruct (collides cs) eqn:Hcol; [done|];
           by rewrite resolve_keeps_all in Hres ]).
  split; [done|]. by intros [|(? & _)].
Qed.

(** The runs that reach [applyResolutions]. *)
Lemma command_resolved_iff (auto dryRun : bool) (store : Store Other) (content : string)
    cs rs :
  fst (resolveConflictsCmd auto dryRun store content) = Resolved cs rs
  <-> auto = true /\ dryRun = false /\ detectConflicts content = (cs, None)
      /\ cs <> [] /\ resolveConflictsMechanical store cs = Ok rs.
Proof.
  unfold resolveConflictsCmd.
  destruct (detectConflicts content) as [cs' [e|]].
  { split; [done|]. by intros (_ & _ & ? & _). }
  destruct (length cs' =? 0)%nat eqn:Hlen.
  { apply length_zero in Hlen. subst cs'. split; [done|].
    by intros (_ & _ & [= <-] & ? & _). }
  assert (cs' <> []) by (intros ->; done).
  destruct auto, dryRun; simpl;
    try (split; [done|]; by intros (? & ? & _));
    destruct (resolveConflictsMechanical store cs') as [rs'|e] eqn:Hres; simpl;
    try (split; [done|]; intros (? & ? & [= <-] & _ & ?); congruence).
  split.
  - intros [= <- <-]. by repeat split.
  - intros (_ & _ & [= <-] & _ & Hrs). rewrite Hres in Hrs. by injection Hrs as <-.
Qed.

(** When every operation on the file succeeds the run ends as
    [resolveConflictsCmd] has it. *)
Lemma run_without_error (auto dryRun : bool) (store : Store Other) (content : string) :
  resolveConflictsRun (mkFileAccess true true true true) auto dryRun store content
  = Ended (fst (resolveConflictsCmd auto dryRun store content)).
Proof.
  unfold resolveConflictsRun. simpl. by destruct (fst _).
Qed.

Lemma apply_reached (auto dryRun : bool) (store : Store Other) (content : string) :
  (auto = true /\ dryRun = false /\ fst (detectConflicts content) <> []
   /\ exists rs, resolveConflictsMechanical store (fst (detectConflicts content)) = Ok rs)
  <-> exists cs rs, fst (resolveConflictsCmd auto dryRun store content) = Resolved cs rs.
Proof.
  split.
  - intros (Ha & Hd & Hne & rs & Hrs). exists (fst (detectConflicts content)), rs.
    apply command_resolved_iff. repeat split; try done.
    destruct (tooLong content) eqn:Hlong.
    + by rewrite detect_stops in Hne.
    + by rewrite detect_ok.
  - intros (cs & rs & (Ha & Hd & Hdet & Hne & Hrs)%command_resolved_iff).
    rewrite Hdet. simpl. repeat split; try done. by exists rs.
Qed.

(** X24 ([resolveConflictsCmd], [detectConflicts], [applyResolutions]):
    the operations on the file ending as [access] says, the command exits
    with status 1 in these cases only: the file cannot be opened; the
    line scanner fails to read it; a line of the file is too long for the
    line scanner; resolution is asked for ([--auto] or [--dry-run]), the
    identifier source fails, and some BASE record of the conflicts found
    has the id of a HEAD record or of an earlier BASE record; or, with
    [--auto] and without [--dry-run], conflicts were found and resolved
    and [applyResolutions] cannot read the file or cannot write it back.
    In every other case it exits with status 0. *)
Theorem command_exit_code (access : FileAccess) (auto dryRun : bool)
    (store : Store Other) (content : string) :
  (exitStatus (resolveConflictsRun access auto dryRun store content) = 1
   <-> opens access = false
       \/ scans access = false
       \/ tooLong content = true
       \/ (auto || dryRun = true
           /\ (exists e0, getNextAvailableID store = Err e0)
           /\ collides (fst (detectConflicts content)) = true)
       \/ (auto = true /\ dryRun = false
           /\ fst (detectConflicts content) <> []
           /\ (exists rs, resolveConflictsMechanical store (fst (detectConflicts content))
                          = Ok rs)
           /\ reads access && writes access = false))
  /\ (exitStatus (resolveConflictsRun access auto dryRun store content) = 0
      \/ exitStatus (resolveConflictsRun access auto dryRun store content) = 1).
Proof.
  unfold resolveConflictsRun.
  pose proof (exitCode_cases auto dryRun store content) as Hcases.
  pose proof (apply_reached auto dryRun store content) as Hreach.
  assert (Htf : true = false -> False) by done.
  assert (H01 : 0 = 1 -> False) by done.
  destruct (opens access) eqn:Hopen; simpl negb; cbv iota;
    [|split; [split; [by left|done]|by right]].
  destruct (scans access) eqn:Hscan; simpl negb; cbv iota;
    [|split; [split; [right; by left|done]|by right]].
  destruct (fst (resolveConflictsCmd auto dryRun store content))
    as [e| |cs|e|rs|cs rs] eqn:Ho.
  1-5: assert (HB : ~ (auto = true /\ dryRun = false
                      /\ fst (detectConflicts content) <> []
                      /\ exists rs, resolveConflictsMechanical store
                                      (fst (detectConflicts content)) = Ok rs))
         by (intros (? & ? & ?)%Hreach; done);
       cbn [exitStatus]; (split; [tauto|simpl; first [by left|by right]]).
  assert (HB : auto = true /\ dryRun = false
               /\ fst (detectConflicts content) <> []
               /\ exists rs, resolveConflictsMechanical store
                               (fst (detectConflicts content)) = Ok rs)
    by (apply Hreach; by exists cs, rs).
  simpl in Hcases.
  destruct (reads access && writes access) eqn:Hrw; cbn [exitStatus exitCode].
  - split; [tauto|by left].
  - split; [|by right]. split; [|done]. intros _. do 4 right. tauto.
Qed.

(** X25 ([resolveConflictsCmd]): the file is changed only by a run with
    [--auto] and without [--dry-run] that found conflicts and resolved
    them; the content is then what [applyResolutions] writes for the
    resolutions of [resolveConflictsMechanical]. *)
Theorem command_writes_only_on_auto (auto dryRun : bool) (store : Store Other)
    (content : string) :
  snd (resolveConflictsCmd auto dryRun store content) <> content ->
  auto = true /\ dryRun = false
  /\ exists cs rs,
       detectConflicts content = (cs, None) /\ cs <> []
       /\ resolveConflictsMechanical store cs = Ok rs
       /\ resolveConflictsCmd auto dryRun store content
          = (Resolved cs rs, applyResolutions content rs).
Proof.
  unfold resolveConflictsCmd.
  destruct (detectConflicts content) as [cs [e|]]; [done|].
  destruct (length cs =? 0)%nat eqn:Hlen; [done|].
  destruct auto, dryRun; simpl; try done;
    destruct (resolveConflictsMechanical store cs) as [rs|e] eqn:Hres; try done.
  intros _. split; [done|]. split; [done|]. exists cs, rs.
  split; [done|]. split; [by intros ->|]. by split.
Qed.

(** X26 ([resolveConflictsCmd]): without [--auto] and [--dry-run] the
    command never consults the store: it ends in the same way with any
    store, by showing the conflicts found, by reporting that there is
    none, or on a failure of detection. *)
Theorem detection_only_ignores_store (store store' : Store Other) (content : string) :
  resolveConflictsCmd false false store content
  = resolveConflictsCmd false false store' content
  /\ snd (resolveConflictsCmd false false store content) = content
  /\ (fst (resolveConflictsCmd false false store content) = NoConflicts
      \/ (exists cs, cs <> []
                     /\ fst (resolveConflictsCmd false false store content)
                        = ShowConflicts cs)
      \/ fst (resolveConflictsCmd false false store content)
         = DetectFailed (ErrReading ErrTooLong)).
Proof.
  destruct (tooLong content) eqn:Hlong.
  { rewrite !command_too_long by done. split; [done|]. split; [done|]. by repeat right. }
  unfold resolveConflictsCmd. rewrite detect_ok by done.
  destruct (length _ =? 0)%nat eqn:Hlen; simpl.
  - split; [done|]. split; [done|]. by left.
  - split; [done|]. split; [done|]. right. left. eexists. split; [|done].
    intros E. by rewrite E in Hlen.
Qed.

End CommandProperties.

Lemma dry_run_previews_auto_witness :
  fst (resolveConflictsCmd false true store5 collisionFile)
  = DryRun [keepHead "bd-1"; remap "bd-1" "bd-6"]
  /\ resolveConflictsCmd false true store5 collisionFile
     = (DryRun [keepHead "bd-1"; remap "bd-1" "bd-6"], collisionFile)
  /\ resolveConflictsCmd true false store5 collisionFile
     = (Resolved (fst (detectConflicts collisionFile))
          [keepHead "bd-1"; remap "bd-1" "bd-6"],
        applyResolutions collisionFile [keepHead "bd-1"; remap "bd-1" "bd-6"]).
Proof.
  assert (H1 : fst (resolveConflictsCmd false true store5 collisionFile)
               = DryRun [keepHead "bd-1"; remap "bd-1" "bd-6"]) by (by vm_compute).
  split; [exact H1|].
  exact (dry_run_previews_auto false store5 collisionFile _ H1).
Defined.

Lemma command_writes_only_on_auto_witness :
  snd (resolveConflictsCmd true false store5 collisionFile) <> collisionFile
  /\ exists cs rs,
       detectConflicts collisionFile = (cs, None) /\ cs <> []
       /\ resolveConflictsMechanical store5 cs = Ok rs
       /\ resolveConflictsCmd true false store5 collisionFile
          = (Resolved cs rs, applyResolutions collisionFile rs).
Proof.
  assert (H1 : snd (resolveConflictsCmd true false store5 collisionFile) <> collisionFile).
  { vm_compute. discriminate. }
  split; [exact H1|].
  exact (proj2 (proj2 (command_writes_only_on_auto true false store5 collisionFile H1))).
Defined.

(** * Which records are remapped *)

Section Remapped.

Context {Other : Type} `{!Runtime Other}.

Local Abbreviation Issue := (Issue Other).
Local Abbreviation ConflictBlock := (ConflictBlock Other).

(** The set of ids of the second loop, after the BASE records [earlier]. *)
Lemma clashes_snoc_remap heads fresh earlier id x :
  clashes heads fresh earlier id ->
  clashes heads fresh (earlier ++ [id]) x
  <-> x = fresh \/ clashes heads fresh earlier x.
Proof.
  intros Hid.
  assert (Hcol : ~ (NoDup (earlier ++ [id])
                    /\ forall y, y ∈ earlier ++ [id] -> y ∉ heads)).
  { intros [Hnd Hdis]. apply NoDup_app in Hnd as (Hnd & Hnew & _).
    destruct Hid as [Hh|[He|[_ Hc]]].
    - apply (Hdis id); [|done]. apply elem_of_app. right. by apply list_elem_of_singleton.
    - apply (Hnew id He). by apply list_elem_of_singleton.
    - apply Hc. split; [done|]. intros y Hy. apply Hdis, elem_of_app. by left. }
  unfold clashes. rewrite elem_of_app, list_elem_of_singleton. split.
  - intros [Hh|[[He| ->]|[-> _]]]; [right; by left|right; right; by left| |by left].
    right. exact Hid.
  - intros [->|[Hh|[He|[-> Hc]]]]; [by repeat right|by left|right; left; by left|].
    by repeat right.
Qed.

Lemma clashes_snoc_keep heads fresh earlier id x :
  ~ clashes heads fresh earlier id ->
  clashes heads fresh (earlier ++ [id]) x
  <-> x = id \/ clashes heads fresh earlier x.
Proof.
  intros Hid.
  assert (Hh : id ∉ heads) by (intros ?; apply Hid; by left).
  assert (He : id ∉ earlier) by (intros ?; apply Hid; right; by left).
  assert (Hcol : (NoDup (earlier ++ [id]) /\ forall y, y ∈ earlier ++ [id] -> y ∉ heads)
                 <-> (NoDup earlier /\ forall y, y ∈ earlier -> y ∉ heads)).
  { rewrite NoDup_app. split.
    - intros [(Hnd & _ & _) Hdis]. split; [done|]. intros y Hy. apply Hdis, elem_of_app.
      by left.
    - intros [Hnd Hdis]. split.
      + split; [done|]. split; [|apply NoDup_singleton].
        intros y Hy ->%list_elem_of_singleton. done.
      + intros y [Hy| ->%list_elem_of_singleton]%elem_of_app; [by apply Hdis|done]. }
  unfold clashes. rewrite elem_of_app, list_elem_of_singleton, Hcol. tauto.
Qed.

Lemma basePass_exact store fresh heads (issues : list Issue) earlier ids rs ids' rs' :
  getNextAvailableID store = Ok fresh ->
  (forall x, x ∈ ids <-> clashes heads fresh earlier x) ->
  fold_left (baseStep store) issues (Ok (ids, rs)) = Ok (ids', rs') ->
  forall k id, map ID issues !! k = Some id ->
    (clashes heads fresh (earlier ++ take k (map ID issues)) id ->
     rs' !! (length rs + k)%nat = Some (remap id fresh))
    /\ (~ clashes heads fresh (earlier ++ take k (map ID issues)) id ->
        rs' !! (length rs + k)%nat = Some (keepBase id)).
Proof.
  intros Hfresh. revert earlier ids rs.
  induction issues as [|i issues IH]; intros earlier ids rs Hinv Hfold k id Hk; [done|].
  rewrite fold_left_cons in Hfold. unfold baseStep at 2 in Hfold. rewrite Hfresh in Hfold.
  destruct k as [|k].
  - simpl in Hk. injection Hk as <-. simpl take. rewrite app_nil_r, Nat.add_0_r.
    case_bool_decide as Hin.
    + apply basePass_structure in Hfold as (rsB & -> & _).
      rewrite <- app_assoc, lookup_app_r, Nat.sub_diag by lia. simpl.
      split; [done|]. intros Hn. destruct Hn. by apply Hinv.
    + apply basePass_structure in Hfold as (rsB & -> & _).
      rewrite <- app_assoc, lookup_app_r, Nat.sub_diag by lia. simpl.
      split; [|done]. intros Hc. destruct Hin. by apply Hinv.
  - simpl in Hk. simpl take.
    replace (earlier ++ ID i :: take k (map ID issues))
      with ((earlier ++ [ID i]) ++ take k (map ID issues)) by (by rewrite <- app_assoc).
    replace (length rs + S k)%nat with (length (rs ++ [remap (ID i) fresh]) + k)%nat
      by (rewrite length_app; simpl; lia).
    case_bool_decide as Hin.
    + eapply IH; [|exact Hfold|exact Hk].
      intros x. rewrite clashes_snoc_remap by (by apply Hinv).
      rewrite elem_of_union, elem_of_singleton, Hinv. done.
    + replace (length (rs ++ [remap (ID i) fresh]))
        with (length (rs ++ [keepBase (ID i)])) by (by rewrite !length_app).
      eapply IH; [|exact Hfold|exact Hk].
      intros x. rewrite clashes_snoc_keep by (by rewrite <- Hinv).
      rewrite elem_of_union, elem_of_singleton, Hinv. done.
Qed.

(** X27 ([resolveConflictsMechanical]): with a store that hands out the
    id [fresh], the resolution of the [k]-th BASE record is a remap to
    [fresh] exactly when its id clashes: a HEAD record has it, or an
    earlier BASE record has it, or it is [fresh] itself and an earlier
    BASE record has clashed; otherwise the record is kept. *)
Theorem resolve_remaps_exactly (store : Store Other) (cs : list ConflictBlock)
    (rs : list Resolution) (fresh : string) (k : nat) (id : string) :
  resolveConflictsMechanical store cs = Ok rs ->
  getNextAvailableID store = Ok fresh ->
  baseIDsOf cs !! k = Some id ->
  (clashes (headIDsOf cs) fresh (take k (baseIDsOf cs)) id ->
   rs !! (length (headIDsOf cs) + k)%nat = Some (remap id fresh))
  /\ (~ clashes (headIDsOf cs) fresh (take k (baseIDsOf cs)) id ->
      rs !! (length (headIDsOf cs) + k)%nat = Some (keepBase id)).
Proof.
  unfold resolveConflictsMechanical. rewrite headPass_flat, headPass_spec, basePass_flat.
  destruct (fold_left _ _ _) as [[ids' rs']|e] eqn:Hfold; [|done].
  intros [= <-] Hfresh Hk.
  assert (Hinv : forall x,
            x ∈ list_to_set (map ID (flat_map HeadIssues cs)) ∪ (∅ : gset string)
            <-> clashes (headIDsOf cs) fresh [] x).
  { intros x. unfold clashes. rewrite elem_of_union, elem_of_list_to_set. unfold headIDsOf.
    split; [intros [?|?%elem_of_empty]; [by left|done]|].
    intros [?|[?%elem_of_nil|[_ Hc]]]; [by left|done|].
    destruct Hc. split; [constructor|]. by intros ? ?%elem_of_nil. }
  pose proof (basePass_exact store fresh (headIDsOf cs) _ [] _ _ _ _ Hfresh Hinv Hfold
                k id Hk) as Hexact.
  rewrite !app_nil_l, length_map in Hexact.
  unfold headIDsOf. rewrite length_map. exact Hexact.
Qed.

End Remapped.

Lemma resolve_remaps_exactly_witness :
  resolveConflictsMechanical store5 [freshClash]
  = Ok [keepHead "bd-1"; remap "bd-1" "bd-6"; remap "bd-6" "bd-6"; keepBase "bd-7"]
  /\ getNextAvailableID store5 = Ok "bd-6"
  /\ baseIDsOf [freshClash] !! 1%nat = Some "bd-6"
  /\ clashes (headIDsOf [freshClash]) "bd-6" (take 1 (baseIDsOf [freshClash])) "bd-6"
  /\ [keepHead "bd-1"; remap "bd-1" "bd-6"; remap "bd-6" "bd-6"; keepBase "bd-7"]
       !! (length (headIDsOf [freshClash]) + 1)%nat
     = Some (remap "bd-6" "bd-6").
Proof.
  assert (H1 : resolveConflictsMechanical store5 [freshClash]
               = Ok [keepHead "bd-1"; remap "bd-1" "bd-6"; remap "bd-6" "bd-6";
                     keepBase "bd-7"]) by (by vm_compute).
  assert (H2 : getNextAvailableID store5 = Ok "bd-6") by (by vm_compute).
  assert (H3 : baseIDsOf [freshClash] !! 1%nat = Some "bd-6") by reflexivity.
  assert (H4 : clashes (headIDsOf [freshClash]) "bd-6"
                 (take 1 (baseIDsOf [freshClash])) "bd-6").
  { right. right. split; [done|]. intros [_ Hdis]. apply (Hdis "bd-1").
    - apply elem_of_cons. by left.
    - apply elem_of_cons. by left. }
  split; [exact H1|]. split; [exact H2|]. split; [exact H3|]. split; [exact H4|].
  exact (proj1 (resolve_remaps_exactly store5 [freshClash] _ "bd-6" 1 "bd-6" H1 H2 H3) H4).
Defined.

(** * The scanner and the reconstructor on the same lines *)

Section Agreement.

Context {Other : Type} `{!Runtime Other}.

Local Abbreviation Issue := (Issue Other).
Local Abbreviation ScanState := (@ScanState Other).

Lemma insideLine_scanned remapTable i line :
  (forall r, Unmarshal (String "<" r) = None /\ Unmarshal (String "=" r) = None
             /\ Unmarshal (String ">" r) = None) ->
  insideLine remapTable i line
  = match scanRecord line with
    | Some issue => [Marshal (resolveInside remapTable i issue)]
    | None => []
    end.
Proof.
  intros HU. unfold insideLine, scanRecord, candidate.
  destruct (String.eqb (strings.TrimSpace line) ""); [done|]. simpl.
  destruct (strings.HasPrefix (strings.TrimSpace line) "<") eqn:H1.
  { apply HasPrefix_head in H1 as [r ->]. by destruct (HU r) as (-> & _ & _). }
  destruct (strings.HasPrefix (strings.TrimSpace line) "=") eqn:H2.
  { apply HasPrefix_head in H2 as [r ->]. by destruct (HU r) as (_ & -> & _). }
  destruct (strings.HasPrefix (strings.TrimSpace line) ">") eqn:H3.
  { apply HasPrefix_head in H3 as [r ->]. by destruct (HU r) as (_ & _ & ->). }
  done.
Qed.

(** X28 ([detectConflicts], [applyResolutions]): when no text that
    begins with [<], [=] or [>] decodes as a record, as with
    [json.Unmarshal], the two loops read the same records from the lines
    of a conflict: the reconstructor writes a line, the rewritten record
    serialized, for exactly the lines from which the scanner takes an
    issue, so that it writes as many records for a conflict as the
    scanner reports for it. *)
Theorem inside_records_are_scanned (remapTable : gmap string string) :
  (forall r, Unmarshal (String "<" r) = None /\ Unmarshal (String "=" r) = None
             /\ Unmarshal (String ">" r) = None) ->
  (forall i line,
     insideLine remapTable i line
     = match scanRecord line with
       | Some issue => [Marshal (resolveInside remapTable i issue)]
       | None => []
       end)
  /\ (forall i lines,
        length (insideLines remapTable i lines) = length (omap scanRecord lines)).
Proof.
  intros HU. split; [intros i line; by apply insideLine_scanned|].
  intros i lines. revert i. induction lines as [|l ls IH]; intros i; [done|].
  cbn [insideLines]. rewrite length_app, IH, insideLine_scanned by done.
  simpl. by destruct (scanRecord l).
Qed.

(** X29 ([detectConflicts], [applyResolutions]): a carriage return at the
    end of a line changes nothing for the scanner, and for the
    reconstructor it changes only the lines that are written back as they
    were, which keep it: the lines written re-serialized lose it. *)
Theorem carriage_return_ignored (st : ScanState) (remapTable : gmap string string)
    (i : nat) (line : string) (lines : list string) :
  scanStep st (line +:+ String CR "") = scanStep st line
  /\ scanLoop st (map (fun l => l +:+ String CR "") lines) = scanLoop st lines
  /\ isMarker (line +:+ String CR "") = isMarker line
  /\ insideLine remapTable i (line +:+ String CR "") = insideLine remapTable i line
  /\ ((outsideLine remapTable i (line +:+ String CR "") = line +:+ String CR ""
       /\ outsideLine remapTable i line = line)
      \/ (outsideLine remapTable i (line +:+ String CR "") = outsideLine remapTable i line
          /\ exists issue : Issue, outsideLine remapTable i line = Marshal issue)).
Proof.
  assert (Hstep : forall st' l, scanStep st' (l +:+ String CR "") = scanStep st' l).
  { intros st' l. unfold scanStep. by rewrite TrimSpace_app_CR. }
  split; [apply Hstep|]. split; [|split; [|split]].
  - unfold scanLoop. revert st. induction lines as [|l ls IH]; intros st; [done|].
    rewrite map_cons, !fold_left_cons, Hstep. apply IH.
  - unfold isMarker, isOpen, isDivider, isClose. by rewrite TrimSpace_app_CR.
  - unfold insideLine. by rewrite TrimSpace_app_CR.
  - unfold outsideLine. rewrite TrimSpace_app_CR.
    destruct (_ && _ && _ && _); [|by left].
    destruct (Unmarshal _) as [issue|]; [|by left].
    destruct (modified _ _ _); [right|by left]. split; [done|]. by eexists.
Qed.

End Agreement.

Lemma inside_records_are_scanned_witness :
  (forall r, json.Unmarshal (String "<" r) = None /\ json.Unmarshal (String "=" r) = None
             /\ json.Unmarshal (String ">" r) = None)
  /\ length (insideLines {["bd-1" := "bd-6"]} 0 [headLine; ""; "<not a record>"; baseLine])
     = length (omap scanRecord [headLine; ""; "<not a record>"; baseLine])
  /\ omap scanRecord [headLine; ""; "<not a record>"; baseLine]
     = [ours "bd-1"; theirs "bd-1"].
Proof.
  assert (H1 : forall r, json.Unmarshal (String "<" r) = None
                         /\ json.Unmarshal (String "=" r) = None
                         /\ json.Unmarshal (String ">" r) = None).
  { intros r. by repeat split. }
  split; [exact H1|]. split; [|by vm_compute].
  exact (proj2 (inside_records_are_scanned {["bd-1" := "bd-6"]} H1) 0%nat
           [headLine; ""; "<not a record>"; baseLine]).
Defined.

(** * Allocation, once the id handed out is stored *)

Section Advance.

Context {Other : Type} `{!Runtime Other}.

Local Abbreviation Issue := (Issue Other).

(** X30 ([getNextAvailableID]): once an issue with the id handed out is
    added to the store, the id handed out next is another one: it has
    the same prefix and the next number. *)
Theorem next_id_advances (all : list Issue) (issue : Issue) :
  Forall (fun i => issueNumber (ID i) < fmt.maxInt64 - 1) all ->
  getNextAvailableID (Issues all) = Ok (ID issue) ->
  exists id',
    getNextAvailableID (Issues (all ++ [issue])) = Ok id'
    /\ issueNumber id' = issueNumber (ID issue) + 1
    /\ idPrefix id' = idPrefix (ID issue)
    /\ id' <> ID issue.
Proof.
  intros Hall. rewrite !getNextAvailableID_spec, fold_left_app.
  destruct (nextID_max all 0 "") as (H1 & H2 & H3); [lia|]. cbv zeta in H1, H2, H3.
  destruct (fold_left nextIDStep all (0, "")) as [M P] eqn:Hfold.
  cbn [fst snd] in *.
  assert (HM : M < fmt.maxInt64 - 1).
  { destruct H3 as [->|(i & Hi & <-)]; [done|].
    by apply (proj1 (Forall_forall _ _) Hall). }
  unfold fmt.maxInt64 in HM.
  rewrite wrap64_small by (unfold fmt.minInt64, fmt.maxInt64; lia).
  set (P' := if String.eqb P "" then "bd" else P).
  assert (HP' : String.eqb P' "" = false).
  { unfold P'. by destruct (String.eqb P "") eqn:E. }
  intros [= Hid]. cbn [fold_left]. rewrite nextIDStep_spec by done. rewrite <- Hid.
  rewrite issueNumber_Sprintf, idPrefix_Sprintf by (unfold fmt.maxInt64; lia).
  cbn [fst snd].
  assert (E : (if String.eqb P "" then P' else P) = P').
  { unfold P'. by destruct (String.eqb P ""). }
  rewrite E, HP', Z.max_r by lia.
  rewrite wrap64_small by (unfold fmt.minInt64, fmt.maxInt64; lia).
  eexists. split; [reflexivity|].
  rewrite issueNumber_Sprintf, idPrefix_Sprintf by (unfold fmt.maxInt64; lia).
  split; [done|]. split; [done|].
  intros Heq. apply (f_equal issueNumber) in Heq.
  rewrite !issueNumber_Sprintf in Heq by (unfold fmt.maxInt64; lia). lia.
Qed.

End Advance.

Lemma next_id_advances_witness :
  Forall (fun i => issueNumber (ID i) < fmt.maxInt64 - 1)
         [stored "bd-1"; stored "bd-2"; stored "bd-3"; stored "bd-4"; stored "bd-5"]
  /\ getNextAvailableID store5 = Ok (ID (stored "bd-6"))
  /\ getNextAvailableID
       (Issues ([stored "bd-1"; stored "bd-2"; stored "bd-3"; stored "bd-4"; stored "bd-5"]
                ++ [stored "bd-6"])) = Ok "bd-7"
  /\ exists id',
       getNextAvailableID
         (Issues ([stored "bd-1"; stored "bd-2"; stored "bd-3"; stored "bd-4";
                   stored "bd-5"] ++ [stored "bd-6"])) = Ok id'
       /\ issueNumber id' = issueNumber (ID (stored "bd-6")) + 1.
Proof.
  assert (H1 : Forall (fun i => issueNumber (ID i) < fmt.maxInt64 - 1)
                 [stored "bd-1"; stored "bd-2"; stored "bd-3"; stored "bd-4";
                  stored "bd-5"]) by (repeat constructor).
  assert (H2 : getNextAvailableID store5 = Ok (ID (stored "bd-6"))) by (by vm_compute).
  split; [exact H1|]. split; [exact H2|]. split; [by vm_compute|].
  destruct (next_id_advances _ (stored "bd-6") H1 H2) as (id' & H3 & H4 & _).
  exists id'. by split.
Defined.
